(** * PLUMED: replica exchange patterns and the EMMI cryo-EM restraint

    A shallow embedding of [src/ExchangePatterns.cpp] and of the scoring
    core of [src/isdb/EMMI.cpp], with the properties of the natural-language
    specification stated and settled against it.

    Numbers.  A C++ [double] is read as an exact number: a rational ([Q])
    in [ExchangePatterns], where only products and the conversion to [int]
    occur and everything is executable, and a real ([R]) in [EMMI], whose
    code calls [sqrt], [exp], [log] and [erf].  Rounding error of the
    floating-point unit is outside the model.  [int] and [unsigned] values
    are integers ([Z], [nat]) and their arithmetic does not wrap around;
    the conversion of a [double] to [unsigned] keeps its range of 32
    bits ([EMMI.to_unsigned]). *)

From Stdlib Require Import ZArith QArith List Lia String.
From Stdlib Require Import Reals Lra.
From stdpp Require Import base list sorting.

(* ===================================================================== *)
(** * ExchangePatterns *)
(* ===================================================================== *)

Module ExchangePatterns.

Local Open Scope Z_scope.

(** Conversion of a [double] to [int], as done by the assignment
    [ind[i] = random.RandU01()*nrepl]: the fractional part is discarded
    (truncation toward zero). *)
Definition double_to_int (x : Q) : Z := Z.quot (Qnum x) (Z.pos (Qden x)).

(** [ind[j]] for an index inside the caller's buffer ([0] stands for a read
    outside it, which the loops below never perform on a buffer of at least
    [nrepl] cells). *)
Definition at_ (ind : list Z) (j : nat) : Z := nth j ind 0.

(** The inner loop [for(int j=0;j<i;j++) if(ind[i]==ind[j]) stat=1;]
    started with [stat=0]. *)
Definition scan (ind : list Z) (i : nat) : bool :=
  fold_left (fun stat j => if Z.eqb (at_ ind i) (at_ ind j) then true else stat)
            (seq 0 i) false.

(** Modelled from the spec: the random generator (tools/Random.h) is
    external; it is the sequence of values its next calls to [RandU01]
    return.  One iteration of [while(stat)] consumes one of them;
    the loop is unbounded in the source, so the model answers [None] when
    the sequence is used up before the loop has left. *)
Fixpoint while_stat (rnd : list Q) (ind : list Z) (i : nat) (nrepl : Z)
  : option (list Z * list Q) :=
  match rnd with
  | [] => None
  | u :: rnd' =>
      let ind' := <[ i := double_to_int (u * inject_Z nrepl) ]> ind in
      if scan ind' i then while_stat rnd' ind' i nrepl
      else Some (ind', rnd')
  end.

(** [for(int i=...;i<nrepl;i++)] with [todo] iterations left. *)
Fixpoint for_i (todo i : nat) (rnd : list Q) (ind : list Z) (nrepl : Z)
  : option (list Z * list Q) :=
  match todo with
  | O => Some (ind, rnd)
  | S todo' =>
      match while_stat rnd ind i nrepl with
      | None => None
      | Some (ind', rnd') => for_i todo' (S i) rnd' ind' nrepl
      end
  end.

Definition getList (rnd : list Q) (ind : list Z) (nrepl : Z)
  : option (list Z * list Q) :=
  for_i (Z.to_nat nrepl) 0 rnd ind nrepl.

(** The generator's contract: every value lies in [[0,1)]. *)
Definition unit_draw (u : Q) : Prop := (0 <= u)%Q /\ (u < 1)%Q.

(** What a finished prefix [ind[0..i)] looks like. *)
Definition good_prefix (nrepl : Z) (i : nat) (ind : list Z) : Prop :=
  NoDup (take i ind) /\ Forall (fun v => 0 <= v < nrepl) (take i ind).

(** ** What [getList] computes *)

(** The value that the draw [u] puts into a cell. *)
Definition cell (nrepl : Z) (u : Q) : Z := double_to_int (u * inject_Z nrepl).

(** The first [todo] values among the cells of the draws [rnd] that are
    neither in [seen] nor taken before, in the order of the draws, with
    the draws that are left behind the last one taken; [None] when the
    draws do not hold that many. *)
Fixpoint pick (nrepl : Z) (rnd : list Q) (todo : nat) (seen : list Z)
  : option (list Z * list Q) :=
  match rnd with
  | [] => match todo with O => Some ([], []) | S _ => None end
  | u :: rnd' =>
      match todo with
      | O => Some ([], rnd)
      | S todo' =>
          let c := cell nrepl u in
          if bool_decide (c ∈ seen) then pick nrepl rnd' todo seen
          else match pick nrepl rnd' todo' (seen ++ [c]) with
               | Some (cs, rest) => Some (c :: cs, rest)
               | None => None
               end
      end
  end.

End ExchangePatterns.

(* ===================================================================== *)
(** * EMMI *)
(* ===================================================================== *)

Module EMMI.

Local Open Scope R_scope.

#[global] Instance R_inhabited : Inhabited R := populate 0.

Definition Rleb (a b : R) : bool := if Rle_dec a b then true else false.
Definition Rltb (a b : R) : bool := if Rlt_dec a b then true else false.

(** ** Functions of <cmath> *)

Definition gauss (t : R) : R := exp (- (t * t)).

Definition gauss_integrable (a b : R) : Riemann_integrable gauss a b.
Proof.
  assert (C : forall x, continuity_pt gauss x).
  { intro x. apply derivable_continuous_pt. unfold gauss. reg. }
  destruct (Rle_dec a b) as [Hab|Hab].
  - apply continuity_implies_RiemannInt; [exact Hab|intros; apply C].
  - apply RiemannInt_P1.
    apply continuity_implies_RiemannInt; [lra|intros; apply C].
Defined.

(** [erf(x)], the error function: (2/sqrt(pi)) times the integral of
    [exp(-t*t)] from 0 to [x]. *)
Definition erf (x : R) : R := 2 / sqrt PI * RiemannInt (gauss_integrable 0 x).

(** [floor(x)]. *)
Definition floor (x : R) : Z := Int_part x.

(** [round(x)]: the nearest integer, halves away from zero. *)
Definition round (x : R) : Z :=
  if Rle_dec 0 x then Int_part (x + / 2) else (- Int_part (- x + / 2))%Z.

(** [static_cast<unsigned>] of an integral [double].  [unsigned] has 32
    bits: the conversion returns the values from 0 to 2^32 - 1 as they
    are; for the others the language leaves the result undefined, and the
    model takes what the conversion through a 64-bit register leaves in
    the low 32 bits, the value modulo 2^32.  What is stated of a value
    that can leave the range carries the range as a premise. *)
Definition to_unsigned (z : Z) : nat := Z.to_nat (z mod 2 ^ 32).

(** [acc = 0.0; for(unsigned i=0; i<n; ++i) acc += f(i);] *)
Definition for_sum (n : nat) (f : nat -> R) : R :=
  fold_left (fun acc i => acc + f i) (seq 0 n) 0.

(** [accumulate(v.begin(), v.end(), 0.0)] *)
Definition accumulate (v : list R) : R := fold_left Rplus v 0.

(** ** Vectors of tools/Vector.h *)

Class Indexed (T : Type) := component : T -> nat -> R.
Notation "v .[ k ]" := (component v k)
  (at level 1, left associativity, format "v .[ k ]").

(** Modelled from the spec: [PLMD::Vector] (tools/Vector.h) is not among
    the sources; it is the triple of coordinates of a position or
    displacement, [delta] the raw difference of two positions and [modulo]
    the length used for the spatial cutoff. *)
Record Vector : Type := mkVector { vec_x : R; vec_y : R; vec_z : R }.

#[global] Instance Vector_indexed : Indexed Vector :=
  fun v k => match k with O => vec_x v | 1%nat => vec_y v | _ => vec_z v end.
#[global] Instance Vector_inhabited : Inhabited Vector :=
  populate (mkVector 0 0 0).

Definition Vminus (a b : Vector) : Vector :=
  mkVector (a.[0] - b.[0]) (a.[1] - b.[1]) (a.[2] - b.[2]).
Definition Vplus (a b : Vector) : Vector :=
  mkVector (a.[0] + b.[0]) (a.[1] + b.[1]) (a.[2] + b.[2]).
Definition Vscale (s : R) (a : Vector) : Vector :=
  mkVector (s * a.[0]) (s * a.[1]) (s * a.[2]).
Definition delta (v1 v2 : Vector) : Vector := Vminus v2 v1.
Definition modulo (v : Vector) : R :=
  sqrt (v.[0] * v.[0] + v.[1] * v.[1] + v.[2] * v.[2]).

(** [VectorGeneric<6>]: the upper triangle 00, 01, 02, 11, 12, 22 of a
    symmetric 3x3 matrix. *)
Record VectorGeneric6 : Type :=
  mkV6 { m00 : R; m01 : R; m02 : R; m11 : R; m12 : R; m22 : R }.

#[global] Instance V6_indexed : Indexed VectorGeneric6 :=
  fun c k => match k with
             | O => m00 c | 1%nat => m01 c | 2%nat => m02 c
             | 3%nat => m11 c | 4%nat => m12 c | _ => m22 c
             end.
#[global] Instance V6_inhabited : Inhabited VectorGeneric6 :=
  populate (mkV6 0 0 0 0 0 0).

(** ** Fatal errors *)

(** [error(msg)] stops the program: a computation either finishes with a
    value or is [Fatal]. *)
Inductive outcome (A : Type) : Type :=
| Done (a : A)
| Fatal (msg : string).
Arguments Done {A} a.
Arguments Fatal {A} msg.

Definition bind {A B : Type} (x : outcome A) (k : A -> outcome B) : outcome B :=
  match x with Done a => k a | Fatal m => Fatal m end.
Notation "e ;; k" := (bind e (fun _ => k))
  (at level 100, k at level 200, right associativity).

Definition is_done {A : Type} (x : outcome A) : bool :=
  match x with Done _ => true | Fatal _ => false end.

(** ** The host (Colvar / ActionAtomistic services) *)

(** Modelled from the spec: the periodic-boundary distance primitive and
    the host's step data are external; [pbcDistance a b] is the minimal
    periodic image of [b - a] for the current box, whatever the box is. *)
Record Host : Type := mkHost {
  pbcDistance : Vector -> Vector -> Vector;
  Positions : list Vector;
  getStep : Z;
  getExchangeStep : bool
}.

Definition getPosition (h : Host) (im : nat) : Vector := Positions h !!! im.

(** ** The random generator (tools/Random.h) *)

(** Modelled from the spec: the generator's algorithm is external and only
    its consumption matters; it is the sequence of numbers it is going to
    return and a cursor into it. *)
Record Random : Type := mkRandom { draws : nat -> R; cursor : nat }.

Definition RandU01 (r : Random) : R * Random :=
  (draws r (cursor r), mkRandom (draws r) (S (cursor r))).

(** ** Collective sums *)

(** [comm.Sum(&v[0], v.size())] seen from one process: every cell receives
    what the other members of the communicator hold in it. *)
Definition Sum (own others : list R) : list R :=
  imap (fun i x => x + others !!! i) own.

(** What the other processes contribute to the collective sums of one
    evaluation: [ms_*] over the replicas ([multi_sim_comm]), [co_*] over
    the workers of this replica ([comm]). *)
Record Net : Type := mkNet {
  ms_ovmd : list R;
  ms_inv_s2 : list R;
  co_ovmd : list R;
  co_inv_s2 : list R;
  ms_sigma : list R;
  ms_MCaccept : nat
}.

(** ** The data GMM *)

Record GMMrow : Type := mkRow {
  Id : Z; Weight : R;
  Mean_0 : R; Mean_1 : R; Mean_2 : R;
  Cov : VectorGeneric6;
  Beta : Z
}.

Record GMMdata : Type := mkGMM {
  GMM_d_m_ : list Vector;
  GMM_d_w_ : list R;
  GMM_d_cov_ : list VectorGeneric6;
  GMM_d_beta_ : list Z
}.

Definition check_GMM_d (cov : VectorGeneric6) (w : R) : outcome unit :=
  (* check if positive defined, by calculating the 3 leading principal minors *)
  let pm1 := cov.[0] in
  let pm2 := cov.[0] * cov.[3] - cov.[1] * cov.[1] in
  let pm3 := cov.[0] * (cov.[3] * cov.[5] - cov.[4] * cov.[4])
             - cov.[1] * (cov.[1] * cov.[5] - cov.[4] * cov.[2])
             + cov.[2] * (cov.[1] * cov.[4] - cov.[3] * cov.[2]) in
  (* apply Sylvester's criterion *)
  if Rleb pm1 0 || Rleb pm2 0 || Rleb pm3 0
  then Fatal "check data GMM: covariance matrix is not positive defined"
  else
    (* check if weight is positive *)
    if Rltb w 0 then Fatal "check data GMM: weight must be positive"
    else Done tt.

(** The body of [while(ifile->scanField("Id",idcomp))], one row at a time. *)
Fixpoint get_GMM_d_rows (rows : list GMMrow) (d : GMMdata) : outcome GMMdata :=
  match rows with
  | [] => Done d
  | r :: rows' =>
      check_GMM_d (Cov r) (Weight r) ;;
      if negb (Beta r =? 0)%Z && negb (Beta r =? 1)%Z
      then Fatal "Beta must be either 0 or 1"
      else get_GMM_d_rows rows'
             (mkGMM (GMM_d_m_ d ++ [mkVector (Mean_0 r) (Mean_1 r) (Mean_2 r)])
                    (GMM_d_w_ d ++ [Weight r])
                    (GMM_d_cov_ d ++ [Cov r])
                    (GMM_d_beta_ d ++ [Beta r]))
  end.

(** [GMM_file] is [None] when the file does not exist. *)
Definition get_GMM_d (GMM_file : option (list GMMrow)) : outcome GMMdata :=
  match GMM_file with
  | Some rows => get_GMM_d_rows rows (mkGMM [] [] [] [])
  | None => Fatal "Cannot find GMM_FILE"
  end.

(** ** Overlaps *)

Definition cfact_ : R := 1 / Rpower (2 * PI) (3 / 2).

Definition det3 (sum : VectorGeneric6) : R :=
  sum.[0] * (sum.[3] * sum.[5] - sum.[4] * sum.[4])
  - sum.[1] * (sum.[1] * sum.[5] - sum.[4] * sum.[2])
  + sum.[2] * (sum.[1] * sum.[4] - sum.[3] * sum.[2]).

Definition inverse3 (sum : VectorGeneric6) (det : R) : VectorGeneric6 :=
  mkV6 ((sum.[3] * sum.[5] - sum.[4] * sum.[4]) / det)
       ((sum.[2] * sum.[4] - sum.[1] * sum.[5]) / det)
       ((sum.[1] * sum.[4] - sum.[2] * sum.[3]) / det)
       ((sum.[0] * sum.[5] - sum.[2] * sum.[2]) / det)
       ((sum.[2] * sum.[1] - sum.[0] * sum.[4]) / det)
       ((sum.[0] * sum.[3] - sum.[1] * sum.[1]) / det).

Definition V6plus (a b : VectorGeneric6) : VectorGeneric6 :=
  mkV6 (a.[0] + b.[0]) (a.[1] + b.[1]) (a.[2] + b.[2])
       (a.[3] + b.[3]) (a.[4] + b.[4]) (a.[5] + b.[5]).

(** Returns the prefactor, and the sum and inverse it leaves in its two
    output arguments. *)
Definition get_prefactor_inverse
    (GMM_cov_0 GMM_cov_1 : VectorGeneric6) (GMM_w_0 GMM_w_1 : R)
  : R * VectorGeneric6 * VectorGeneric6 :=
  let sum := V6plus GMM_cov_0 GMM_cov_1 in
  let det := det3 sum in
  let pre_fact := cfact_ / sqrt det * GMM_w_0 * GMM_w_1 in
  (pre_fact, sum, inverse3 sum det).

(** The displacement both overlap routines start from. *)
Definition displacement (pbc_ : bool) (h : Host) (m_m d_m : Vector) : Vector :=
  if pbc_ then pbcDistance h d_m m_m else delta d_m m_m.

Definition quadratic_form (md : Vector) (inv_cov_md : VectorGeneric6)
  : R * R * R * R :=
  let p_x := md.[0] * inv_cov_md.[0] + md.[1] * inv_cov_md.[1] + md.[2] * inv_cov_md.[2] in
  let p_y := md.[0] * inv_cov_md.[1] + md.[1] * inv_cov_md.[3] + md.[2] * inv_cov_md.[4] in
  let p_z := md.[0] * inv_cov_md.[2] + md.[1] * inv_cov_md.[4] + md.[2] * inv_cov_md.[5] in
  (md.[0] * p_x + md.[1] * p_y + md.[2] * p_z, p_x, p_y, p_z).

(** Returns the overlap and the derivative left in [ov_der]. *)
Definition get_overlap (pbc_ : bool) (h : Host) (m_m d_m : Vector)
    (pre_fact : R) (inv_cov_md : VectorGeneric6) : R * Vector :=
  let md := displacement pbc_ h m_m d_m in
  let '(ov, p_x, p_y, p_z) := quadratic_form md inv_cov_md in
  let ov := pre_fact * exp (- 0.5 * ov) in
  (ov, Vscale ov (mkVector p_x p_y p_z)).

Definition get_exp_overlap (pbc_ : bool) (h : Host) (m_m d_m : Vector)
    (inv_cov_md : VectorGeneric6) : R :=
  let md := displacement pbc_ h m_m d_m in
  let '(ov, _, _, _) := quadratic_form md inv_cov_md in
  ov.

Definition get_self_overlap (pbc_ : bool) (h : Host) (d : GMMdata) (id : nat) : R :=
  for_sum (length (GMM_d_m_ d)) (fun i =>
    let '(pre_fact, _, inv_sum) :=
      get_prefactor_inverse (GMM_d_cov_ d !!! id) (GMM_d_cov_ d !!! i)
                            (GMM_d_w_ d !!! id) (GMM_d_w_ d !!! i) in
    fst (get_overlap pbc_ h (GMM_d_m_ d !!! id) (GMM_d_m_ d !!! i) pre_fact inv_sum)).

(** ** Sorting and extrema of <algorithm> *)

(** [std::sort] in ascending order (here by insertion; the result of
    sorting numbers does not depend on the method). *)
Fixpoint insert_sorted (x : R) (l : list R) : list R :=
  match l with
  | [] => [x]
  | y :: l' => if Rle_dec x y then x :: l else y :: insert_sorted x l'
  end.

Definition sort (l : list R) : list R := fold_right insert_sorted [] l.

(** [*max_element(v.begin(), v.end())] of a vector that is not empty. *)
Definition max_element (v : list R) : R :=
  match v with [] => 0 | x :: v' => fold_left Rmax v' x end.

(** ** Construction *)

(** Scattering widths and weights of the four atom types C, O, N, S. *)
Definition GMM_m_s_ : list R := [15.146; 8.59722; 11.1116; 15.8952].
Definition GMM_m_w_table : list R := [2.49982; 1.97692; 2.20402; 5.14099].

Definition dpcutoff_ : R := 15.0.
Definition nexp_ : nat := Z.to_nat 1000000.

(** The literals the constructor stores for 1/sqrt(2) and sqrt(2/pi); a
    [double] carries fifteen decimal digits, and the model reads the two
    members as the numbers they stand for. *)
Definition inv_sqrt2_literal : R := 0.707106781186548.
Definition sqrt2_pi_literal : R := 0.797884560802865.
Definition inv_sqrt2_ : R := / sqrt 2.
Definition sqrt2_pi_ : R := sqrt (2 / PI).

(** ** The model GMM *)

Import Ascii.

(** [std::isdigit] on the characters of an atom name. *)
Definition isdigit (c : Ascii.ascii) : bool :=
  (48 <=? Ascii.nat_of_ascii c)%nat && (Ascii.nat_of_ascii c <=? 57)%nat.

(** [name.at(k)], which throws beyond the end of the name. *)
Definition string_at (name : string) (k : nat) : outcome Ascii.ascii :=
  match String.get k name with
  | Some c => Done c
  | None => Fatal "basic_string::at"
  end.

(** map between an atom type and an index *)
Definition type_map : list (Ascii.ascii * nat) :=
  [("C"%char, 0%nat); ("O"%char, 1%nat); ("N"%char, 2%nat); ("S"%char, 3%nat)].

Definition type_map_find (type : Ascii.ascii) : option nat :=
  match List.find (fun e => Ascii.eqb (fst e) type) type_map with
  | Some e => Some (snd e)
  | None => None
  end.

(** The body of the loop of [get_GMM_m] for one atom name. *)
Definition atom_type (name : string) : outcome nat :=
  bind (string_at name 0) (fun first =>
  (* GOLDEN RULE: type is first letter, if not a number *)
  bind (if negb (isdigit first) then Done first
        (* otherwise is the second *)
        else string_at name 1) (fun type =>
  (* check if key in map *)
  match type_map_find type with
  | Some t => Done t
  | None => Fatal (String.append "Wrong atom type "
                     (String type (String.append " from atom name " name)))
  end)).

(** The accumulator is [GMM_m_type_] and the list of weights, one for
    each atom. *)
Fixpoint get_GMM_m_atoms (getAtomName : nat -> string) (atoms : list nat)
    (GMM_m_type_ : list nat) (GMM_m_w : list R) : outcome (list nat * list R) :=
  match atoms with
  | [] => Done (GMM_m_type_, GMM_m_w)
  | a :: atoms' =>
      bind (atom_type (getAtomName a)) (fun t =>
        get_GMM_m_atoms getAtomName atoms'
          (* save atom type *)
          (GMM_m_type_ ++ [t])
          (* this will be normalized in the final density *)
          (GMM_m_w ++ [GMM_m_w_table !!! t]))
  end.

(** [get_GMM_m]: [moldat] holds the name tables of the MOLINFO actions of
    the input; the result is [GMM_m_type_] and the returned weights. *)
Definition get_GMM_m (moldat : list (nat -> string)) (atoms : list nat)
  : outcome (list nat * list R) :=
  (* check if MOLINFO line is present *)
  match moldat with
  | [m] => get_GMM_m_atoms m atoms [] []
  | _ => Fatal "MOLINFO DATA not found"
  end.

(** [read_exp_errors]: one root-mean-square error for each row of the
    error file. *)
Definition read_exp_errors (nexp : nat) (rows : list (list R)) : list R :=
  map (fun errs =>
         let err_tot := for_sum nexp (fun i => errs !!! i * errs !!! i) in
         sqrt (err_tot / INR nexp)) rows.

(** What [calculate_useful_stuff] fills. *)
Record UsefulStuff : Type := mkUseful {
  us_pre_fact : list R;
  us_inv_cov_md : list VectorGeneric6;
  us_dexp : R;
  us_tab_exp : list R
}.

(** The exponential table: [nexp_] values of [exp(-x)] at the step
    [dexp_]. *)
Definition tabulate (dexp_ : R) : list R :=
  map (fun i => exp (- INR i * dexp_)) (seq 0 nexp_).

Definition calculate_useful_stuff (blur : R) (GMM_m_w_ : list R) (d : GMMdata)
  : UsefulStuff :=
  let per_type (i : nat) :=
    let s := sqrt (0.5 * GMM_m_s_ !!! i) / PI * 0.1 in
    let s2 := s * s + blur * blur / 4.0 in
    let cov := mkV6 s2 0.0 0.0 s2 0.0 s2 in
    map (fun j =>
           let sum := V6plus cov (GMM_d_cov_ d !!! j) in
           let det := det3 sum in
           let pre_fact := cfact_ / sqrt det * GMM_d_w_ d !!! j * GMM_m_w_ !!! i in
           (pre_fact, inverse3 sum det))
        (seq 0 (length (GMM_d_m_ d))) in
  let table := flat_map per_type (seq 0 (length GMM_m_s_)) in
  let dexp_ := dpcutoff_ / INR (nexp_ - 1) in
  mkUseful (map fst table) (map snd table) dexp_ (tabulate dexp_).

(** [prepareCollectiveMC]: for each component the components within
    [MCcut_] of it. *)
Definition prepareCollectiveMC (GMM_d_m_ : list Vector) (MCcut_ : R)
  : list (list nat) :=
  map (fun i =>
         let m_i := GMM_d_m_ !!! i in
         filter (fun j =>
                   let m_j := GMM_d_m_ !!! j in
                   let dist := modulo (Vminus m_i m_j) in
                   Rleb dist MCcut_ = true)
                (seq 0 (length GMM_d_m_)))
      (seq 0 (length GMM_d_m_)).

(** The vectors filled by the loop "set sampling parameters". *)
Record SamplingPars : Type := mkPars {
  sp_sigma_mean : list R;
  sp_sigma_min : list R;
  sp_sigma_max : list R;
  sp_sigma : list R;
  sp_sigma0 : list R
}.

Definition sampling_step (do_sampling_ : bool) (exp_err : option (list R))
    (ovdd_ : list R) (GMM_d_beta_ : list Z)
    (sigma_mean_h sigma_mean_c sigma_ini ov_base ov_max dsigma_ : R)
    (a : SamplingPars) (i : nat) : SamplingPars :=
  (* retrieve experimental error, if present *)
  let s0_exp := match exp_err with Some e => e !!! i | None => 0.0 end in
  (* add sigma_mean contribution *)
  let sigma_mean_ := sp_sigma_mean a in
  let sigma_mean_ :=
    if (GMM_d_beta_ !!! i =? 1)%Z then sigma_mean_ ++ [sigma_mean_h * ovdd_ !!! i]
    else sigma_mean_ in
  let sigma_mean_ :=
    if (GMM_d_beta_ !!! i =? 0)%Z then sigma_mean_ ++ [sigma_mean_c * ovdd_ !!! i]
    else sigma_mean_ in
  if do_sampling_ then
    let sigma_min_ := sp_sigma_min a ++ [s0_exp] in
    let sigma_max_ := sp_sigma_max a ++ [2.0 * ov_max + s0_exp + dsigma_] in
    let sigma_ := sp_sigma a ++
      [Rmax (sigma_min_ !!! i) (Rmin (sigma_max_ !!! i) (sigma_ini * ov_base))] in
    mkPars sigma_mean_ sigma_min_ sigma_max_ sigma_ (sp_sigma0 a)
  else
    let sigma0_ := sp_sigma0 a ++
      [sqrt (s0_exp * s0_exp + sigma_mean_ !!! i * sigma_mean_ !!! i)] in
    mkPars sigma_mean_ (sp_sigma_min a) (sp_sigma_max a) (sp_sigma a) sigma0_.

Definition sampling_parameters (do_sampling_ : bool) (exp_err : option (list R))
    (ovdd_ : list R) (GMM_d_beta_ : list Z)
    (sigma_mean_h sigma_mean_c sigma_ini ov_base ov_max dsigma_ : R) (n : nat)
  : SamplingPars :=
  fold_left (sampling_step do_sampling_ exp_err ovdd_ GMM_d_beta_
               sigma_mean_h sigma_mean_c sigma_ini ov_base ov_max dsigma_)
            (seq 0 n) (mkPars [] [] [] [] []).

(** What the keyword ERR_FILE stands for: no file is named, the file
    named does not exist, or the file holds [Nexp] and the rows of
    errors. *)
Inductive ErrFile : Type :=
| no_ERR_FILE
| ERR_FILE_not_found
| ERR_FILE_rows (nexp : nat) (rows : list (list R)).

(** The keywords after parsing. *)
Record Keywords : Type := mkKeywords {
  SAMPLING : bool; NOPBC : bool;
  ATOMS : list nat;
  SIGMA_MEAN_H : R; SIGMA_MEAN_C : R; SIGMA0 : R;
  DSIGMA : R; MC_STRIDE : Z; MC_CUT : R;
  ERR_FILE : ErrFile;
  PRIOR : R; REGRESSION : nat; NO_WEIGHTS : bool; SCALE : R; BLUR : R;
  NL_CUTOFF : R; NL_STRIDE : nat; NO_AVER : bool; WRITE_STRIDE : nat
}.

(** What the constructor freezes. *)
Record Setup : Type := mkSetup {
  kbt_ : R;
  GMM_m_type_ : list nat;
  GMM_d : GMMdata;
  ovdd_ : list R;
  nrep_ : nat; replica_ : nat;
  sigma_mean_ : list R; sigma_min_ : list R; sigma_max_ : list R;
  sigma0_ : list R;
  dsigma_ : R;
  pre_fact_ : list R; inv_cov_md_ : list VectorGeneric6;
  nl_cutoff_ : R; nl_stride_ : nat; no_aver_ : bool;
  size_ : nat; rank_ : nat; pbc_ : bool;
  MCstride_ : Z; MCcut_ : R; MCneigh_ : list (list nat);
  do_sampling_ : bool; prior_ : R;
  nregres_ : nat; no_weights_ : bool;
  dexp_ : R; tab_exp_ : list R
}.

(** What changes from step to step. *)
Record State : Type := mkState {
  ovmd_ : list R;
  sigma_ : list R;
  scale_ : R;
  MCaccept_ : nat;
  MCfirst_ : Z;
  nl_ : list nat;
  first_time_ : bool;
  random_ : Random
}.

(** Modelled from the spec: a record of the status file holds the time
    stamp and the fields s0, s1, ..., one for each component; the reader
    of the host (tools/IFile.h) is not among the sources, and a record is
    the function from [i] to its field s<i>. *)
Definition StatusRecord : Type := nat -> R.

(** The process environment of the constructor: the communicators, the
    MOLINFO actions of the input (each the table of its atom names), the
    GMM file and the status file ([None] for a file that does not exist),
    and whether the run is a restart. *)
Record Process : Type := mkProcess {
  comm_rank : nat; comm_size : nat;
  multi_sim_rank : nat; multi_sim_size : nat;
  host_kbt : R;
  moldat : list (nat -> string);
  GMM_FILE : option (list GMMrow);
  getRestart : bool;
  STATUS_FILE : option (list StatusRecord);
  seed : Random
}.

(** The tests the constructor makes on the keywords, in its order. *)
Definition keyword_checks (kw : Keywords) : outcome unit :=
  let do_sampling_ := SAMPLING kw in
  (if do_sampling_ && Rleb (SIGMA0 kw) 0
   then Fatal "with SAMPLING you must specify a positive SIGMA0" else Done tt) ;;
  (if do_sampling_ && Rltb (DSIGMA kw) 0
   then Fatal "you must specify a positive DSIGMA" else Done tt) ;;
  (if do_sampling_ && Rltb 0 (DSIGMA kw) && (MC_STRIDE kw <=? 0)%Z
   then Fatal "you must specify a positive MC_STRIDE" else Done tt) ;;
  (if do_sampling_ && Rltb 0 (DSIGMA kw) && Rleb (MC_CUT kw) 0
   then Fatal "you must specify a positive MC_CUT" else Done tt) ;;
  (if Rleb (NL_CUTOFF kw) 0.0
   then Fatal "NL_CUTOFF should be explicitly specified and positive" else Done tt) ;;
  (if (NL_STRIDE kw <=? 0)%nat
   then Fatal "NL_STRIDE should be explicitly specified and positive" else Done tt) ;;
  (if do_sampling_ && (WRITE_STRIDE kw =? 0)%nat
   then Fatal "with SAMPLING you must specify a positive WRITE_STRIDE" else Done tt).

(** [if(errfile.size()>0) exp_err = read_exp_errors(errfile)], which stops
    on a file that does not exist. *)
Definition exp_errors (kw : Keywords) : outcome (option (list R)) :=
  match ERR_FILE kw with
  | no_ERR_FILE => Done None
  | ERR_FILE_not_found => Fatal "Cannot find ERR_FILE"
  | ERR_FILE_rows nexp rows => Done (Some (read_exp_errors nexp rows))
  end.

(** [read_status]: every record of the status file overwrites the
    uncertainties, field by field, so that the last record stays. *)
Definition read_status (status_file : option (list StatusRecord)) (sigma_ : list R)
  : outcome (list R) :=
  match status_file with
  | Some records =>
      Done (fold_left (fun sigma_ fields => map fields (seq 0 (length sigma_)))
                      records sigma_)
  | None => Fatal "Cannot find status file"
  end.

(** The constructor from "normalize atom weight map" on, with the status
    file left aside: [GMM_m_type_] and [GMM_m_w] are what [get_GMM_m] has
    returned, [d] the data GMM that [get_GMM_d] has read and [exp_err]
    the experimental errors.  [h] is the host as the constructor finds
    it. *)
Definition EMMI_build (kw : Keywords) (pr : Process) (h : Host)
    (GMM_m_type_ : list nat) (GMM_m_w : list R) (d : GMMdata)
    (exp_err : option (list R))
  : Setup * State :=
  let do_sampling_ := SAMPLING kw in
  let pbc_ := negb (NOPBC kw) in
  let sigma_ini := SIGMA0 kw in
  let nrep_ := if NO_AVER kw then 1%nat else multi_sim_size pr in
  let replica_ := multi_sim_rank pr in
  let n := length (GMM_d_m_ d) in
  (* normalize atom weight map *)
  let norm_d := accumulate (GMM_d_w_ d) in
  let norm_m := accumulate GMM_m_w in
  let GMM_m_w_ := map (fun w => w * (norm_d / norm_m)) GMM_m_w_table in
  (* get self overlaps between data GMM components *)
  let ovdd_ := map (get_self_overlap pbc_ h d) (seq 0 n) in
  let ovdd_median := sort ovdd_ in
  let ov_base := ovdd_median !!! (length ovdd_median / 2)%nat in
  let ov_max := max_element ovdd_ in
  (* set MC mover *)
  let dsigma_ := DSIGMA kw * ov_base in
  (* set sampling parameters *)
  let sp := sampling_parameters do_sampling_ exp_err ovdd_ (GMM_d_beta_ d)
              (SIGMA_MEAN_H kw) (SIGMA_MEAN_C kw) sigma_ini ov_base ov_max
              dsigma_ n in
  (* calculate auxiliary stuff *)
  let us := calculate_useful_stuff (BLUR kw) GMM_m_w_ d in
  (* prepare collective moves *)
  let MCneigh_ := if do_sampling_ && Rltb 0 dsigma_
                  then prepareCollectiveMC (GMM_d_m_ d) (MC_CUT kw) else [] in
  (mkSetup (host_kbt pr) GMM_m_type_ d ovdd_ nrep_ replica_
           (sp_sigma_mean sp) (sp_sigma_min sp) (sp_sigma_max sp)
           (sp_sigma0 sp) dsigma_ (us_pre_fact us) (us_inv_cov_md us)
           (NL_CUTOFF kw) (NL_STRIDE kw) (NO_AVER kw)
           (comm_size pr) (comm_rank pr) pbc_
           (MC_STRIDE kw) (MC_CUT kw) MCneigh_
           do_sampling_ (PRIOR kw) (REGRESSION kw) (NO_WEIGHTS kw)
           (us_dexp us) (us_tab_exp us),
   mkState (replicate n 0) (sp_sigma sp) (SCALE kw) 0 (-1) [] true (seed pr)).

Definition with_sigma (s : State) (sigma MCaccept : _) : State :=
  mkState (ovmd_ s) sigma (scale_ s) MCaccept (MCfirst_ s) (nl_ s)
          (first_time_ s) (random_ s).

(** The constructor, from the parsed keywords on: the tests on the
    keywords, the model GMM, the data GMM, the experimental errors, the
    frozen quantities and, on a restart in sampled mode, the
    uncertainties of the status file.  Logging is left out. *)
Definition EMMI_new (kw : Keywords) (pr : Process) (h : Host)
  : outcome (Setup * State) :=
  keyword_checks kw ;;
  (* calculate model GMM constant parameters *)
  bind (get_GMM_m (moldat pr) (ATOMS kw)) (fun gm =>
  (* read data GMM parameters *)
  bind (get_GMM_d (GMM_FILE pr)) (fun d =>
  (* read experimental overlaps *)
  bind (exp_errors kw) (fun exp_err =>
  let b := EMMI_build kw pr h (fst gm) (snd gm) d exp_err in
  (* read status file if restarting *)
  bind (if SAMPLING kw && getRestart pr
        then read_status (STATUS_FILE pr) (sigma_ (snd b))
        else Done (sigma_ (snd b))) (fun sigma =>
  Done (fst b, with_sigma (snd b) sigma (MCaccept_ (snd b))))))).

(** ** Monte Carlo on the uncertainties *)

Definition with_random (s : State) (r : Random) : State :=
  mkState (ovmd_ s) (sigma_ s) (scale_ s) (MCaccept_ s) (MCfirst_ s) (nl_ s)
          (first_time_ s) r.
Definition with_overlaps (s : State) (ovmd : list R) (scale : R) : State :=
  mkState ovmd (sigma_ s) scale (MCaccept_ s) (MCfirst_ s) (nl_ s)
          (first_time_ s) (random_ s).
Definition with_MCfirst (s : State) (first : Z) : State :=
  mkState (ovmd_ s) (sigma_ s) (scale_ s) (MCaccept_ s) first (nl_ s)
          (first_time_ s) (random_ s).
Definition with_nl (s : State) (nl : list nat) : State :=
  mkState (ovmd_ s) (sigma_ s) (scale_ s) (MCaccept_ s) (MCfirst_ s) nl
          (first_time_ s) (random_ s).

(** Returns the verdict and the generator, which is advanced only when a
    number was extracted. *)
Definition doAccept (p : Setup) (oldE newE : R) (r : Random) : bool * Random :=
  (* calculate delta energy *)
  let delta := (newE - oldE) / kbt_ p in
  (* if delta is negative always accept move *)
  if Rlt_dec delta 0.0 then (true, r)
  else
    (* otherwise extract random number *)
    let '(s, r) := RandU01 r in
    if Rlt_dec s (exp (- delta)) then (true, r) else (false, r).

(** "check boundaries": the two tests, in the order of the source. *)
Definition check_boundaries (sigma_min_i sigma_max_i new_s : R) : R :=
  let new_s := if Rlt_dec sigma_max_i new_s then 2.0 * sigma_max_i - new_s
               else new_s in
  let new_s := if Rlt_dec new_s sigma_min_i then 2.0 * sigma_min_i - new_s
               else new_s in
  new_s.

(** One turn of "cycle on neighbors" for the neighbor [i]; the accumulator
    is [old_ene], [new_ene] and [new_sigma]. *)
Definition cluster_step (p : Setup) (s : State) (shift : R)
    (a : R * R * list R) (i : nat) : R * R * list R :=
  let '(old_ene, new_ene, new_sigma) := a in
  (* store prefactor *)
  let pre_fact := 0.5 * kbt_ p * (scale_ s * ovmd_ s !!! i - ovdd_ p !!! i)
                               * (scale_ s * ovmd_ s !!! i - ovdd_ p !!! i) in
  (* old inverse s2 *)
  let old_s2 := sigma_mean_ p !!! i * sigma_mean_ p !!! i
                + sigma_ s !!! i * sigma_ s !!! i in
  (* add to old energy *)
  let old_ene := old_ene + (pre_fact / old_s2 + kbt_ p * prior_ p * ln old_s2) in
  (* new sigma *)
  let new_s := sigma_ s !!! i + shift in
  (* check boundaries *)
  let new_s := check_boundaries (sigma_min_ p !!! i) (sigma_max_ p !!! i) new_s in
  (* new inverse s2 *)
  let new_s2 := sigma_mean_ p !!! i * sigma_mean_ p !!! i + new_s * new_s in
  (* add to new energy *)
  let new_ene := new_ene + (pre_fact / new_s2 + kbt_ p * prior_ p * ln new_s2) in
  (old_ene, new_ene, new_sigma ++ [new_s]).

(** [for(j...) sigma_[MCneigh_[nGMM][j]] = new_sigma[j];] *)
Definition commit (neigh : list nat) (new_sigma sigma : list R) : list R :=
  fold_left (fun sig j => <[ neigh !!! j := new_sigma !!! j ]> sig)
            (seq 0 (length neigh)) sigma.

Definition do_sample (p : Setup) : bool :=
  (negb (no_aver_ p) && (rank_ p =? 0)%nat)
  || (no_aver_ p && (rank_ p =? 0)%nat && (replica_ p =? 0)%nat).

Definition doMonteCarlo (p : Setup) (net : Net) (s : State) : State :=
  let n := length (GMM_d_m_ (GMM_d p)) in
  (* extract a random GMM component *)
  let '(u, r) := RandU01 (random_ s) in
  let nGMM := to_unsigned (floor (u * INR n)) in
  let nGMM := if (nGMM =? n)%nat then (n - 1)%nat else nGMM in
  (* and propose a global random shift *)
  let '(u, r) := RandU01 r in
  let shift := dsigma_ p * (2.0 * u - 1.0) in
  let s1 :=
    if do_sample p then
      let neigh := MCneigh_ p !!! nGMM in
      let '(old_ene, new_ene, new_sigma) :=
        fold_left (cluster_step p s shift) neigh (0.0, 0.0, []) in
      (* accept or reject *)
      let '(accept, r) := doAccept p old_ene new_ene r in
      if accept
      then with_random (with_sigma s (commit neigh new_sigma (sigma_ s))
                                   (S (MCaccept_ s))) r
      else with_random s r
    else
      (* put stuff to zero *)
      with_random (with_sigma s (map (fun _ => 0.0) (sigma_ s)) 0) r in
  (* communication between multi replicas *)
  if no_aver_ p && (rank_ p =? 0)%nat
  then with_sigma s1 (Sum (sigma_ s1) (ms_sigma net))
                     (MCaccept_ s1 + ms_MCaccept net)
  else s1.

(** ** Neighbor list *)

(** [std::map<double, unsigned>]: the entries in ascending order of their
    keys, one entry for each key. *)
Definition ov_map : Type := list (R * nat).

(** [ov_m[k] = v] *)
Fixpoint map_assign (k : R) (v : nat) (m : ov_map) : ov_map :=
  match m with
  | [] => [(k, v)]
  | (k', v') :: m' =>
      if Rlt_dec k k' then (k, v) :: m
      else if Rlt_dec k' k then (k', v') :: map_assign k v m'
      else (k, v) :: m'
  end.

(** [ov_m.erase(k)] *)
Fixpoint map_erase (k : R) (m : ov_map) : ov_map :=
  match m with
  | [] => []
  | (k', v') :: m' =>
      if Req_dec_T k k' then m' else (k', v') :: map_erase k m'
  end.

(** "cycle on all atoms" for the component [id]: the accumulator is
    [ov_l], [ov_m] and [ov_tot]. *)
Definition atom_step (p : Setup) (h : Host) (id : nat)
    (a : list R * ov_map * R) (im : nat) : list R * ov_map * R :=
  let '(ov_l, ov_m, ov_tot) := a in
  let GMM_d_size := length (GMM_d_m_ (GMM_d p)) in
  (* get index in auxiliary lists *)
  let kaux := (GMM_m_type_ p !!! im * GMM_d_size + id)%nat in
  (* calculate exponent of overlap *)
  let expov := get_exp_overlap (pbc_ p) h (GMM_d_m_ (GMM_d p) !!! id)
                               (getPosition h im) (inv_cov_md_ p !!! kaux) in
  (* get index of 0.5*expov in tabulated exponential *)
  let itab := to_unsigned (round (0.5 * expov / dexp_ p)) in
  (* check boundaries and skip atom in case *)
  if (length (tab_exp_ p) <=? itab)%nat then a
  else
    let ov := pre_fact_ p !!! kaux * tab_exp_ p !!! itab in
    (ov_l ++ [ov], map_assign ov im ov_m, ov_tot + ov).

Definition candidates (p : Setup) (h : Host) (id : nat) : list R * ov_map * R :=
  fold_left (atom_step p h id) (seq 0 (length (GMM_m_type_ p))) ([], [], 0.0).

(** "integrate ov_l": [res] is the running sum, the loop leaves at the
    first entry that brings it to [ov_cut]. *)
Fixpoint integrate (ov_l : list R) (res ov_cut : R) (ov_m : ov_map) : ov_map :=
  match ov_l with
  | [] => ov_m
  | x :: ov_l' =>
      let res := res + x in
      if Rle_dec ov_cut res then ov_m
      else integrate ov_l' res ov_cut (map_erase x ov_m)
  end.

(** The map that is left for the component [id]; nothing when no atom
    survived the table test. *)
Definition retained (p : Setup) (h : Host) (id : nat) : ov_map :=
  let '(ov_l, ov_m, ov_tot) := candidates p h id in
  match ov_l with
  | [] => []
  | _ =>
      (* define cutoff *)
      let ov_cut := ov_tot * nl_cutoff_ p in
      integrate (sort ov_l) 0.0 ov_cut ov_m
  end.

(** The part [nl_l] of the list built by the worker [rank]. *)
Definition nl_local (p : Setup) (h : Host) (rank : nat) : list nat :=
  let GMM_d_size := length (GMM_d_m_ (GMM_d p)) in
  let GMM_m_size := length (GMM_m_type_ p) in
  flat_map (fun id => map (fun e => (id * GMM_m_size + snd e)%nat) (retained p h id))
           (List.filter (fun id => (id mod size_ p =? rank)%nat) (seq 0 GMM_d_size)).

(** After [Allgatherv] every worker holds the parts of all workers, in
    the order of their ranks. *)
Definition update_neighbor_list (p : Setup) (h : Host) (s : State) : State :=
  with_nl s (flat_map (nl_local p h) (seq 0 (size_ p))).

(** ** Regression *)

(** Both versions return the new [scale_]. *)
Definition doRegression_weighted (p : Setup) (ovmd_ inv_s2 : list R) : R :=
  let Bn := for_sum (length ovmd_) (fun i => ovmd_ !!! i * ovdd_ p !!! i * inv_s2 !!! i) in
  let Bd := for_sum (length ovmd_) (fun i => ovmd_ !!! i * ovmd_ !!! i * inv_s2 !!! i) in
  if Rleb Bd 0 || Rleb Bn 0 then 1 else Bn / Bd.

Definition doRegression (p : Setup) (ovmd_ : list R) : R :=
  let Bn := for_sum (length ovmd_) (fun i => ovmd_ !!! i * ovdd_ p !!! i) in
  let Bd := for_sum (length ovmd_) (fun i => ovmd_ !!! i * ovmd_ !!! i) in
  if Rleb Bd 0 || Rleb Bn 0 then 1 else Bn / Bd.

Definition regression_due (p : Setup) (h : Host) : bool :=
  (0 <? nregres_ p)%nat && (Z.rem (getStep h) (Z.of_nat (nregres_ p)) =? 0)%Z
  && negb (getExchangeStep h).

(** ** The two scores *)

(** The weights [inv_s2] and the overlaps [ovmd_] after the collective
    sums at the head of [calculate_sigma]. *)
Definition gather_sigma (p : Setup) (net : Net) (s : State) : list R * list R :=
  let n := length (ovmd_ s) in
  let escale := 1.0 / INR (nrep_ p) in
  let '(ovmd, inv_s2) :=
    if (rank_ p =? 0)%nat then
      (* calculate inverse sigma squared *)
      let inv_s2 := map (fun i => 1.0 / (sigma_mean_ p !!! i * sigma_mean_ p !!! i
                                         + sigma_ s !!! i * sigma_ s !!! i))
                        (seq 0 n) in
      if negb (no_aver_ p) && (1 <? nrep_ p)%nat
      then (map (fun x => x * escale) (Sum (ovmd_ s) (ms_ovmd net)),
            Sum inv_s2 (ms_inv_s2 net))
      else (ovmd_ s, inv_s2)
    else (map (fun _ => 0.0) (ovmd_ s), replicate n 0.0) in
  (* local communication *)
  if (1 <? size_ p)%nat
  then (Sum ovmd (co_ovmd net), Sum inv_s2 (co_inv_s2 net))
  else (ovmd, inv_s2).

(** [calculate_sigma]: the new state and the value set on "scoreb".  The
    derivatives and the virial, which no other member depends on, and the
    writing of the status file are left out. *)
Definition calculate_sigma (p : Setup) (h : Host) (net : Net) (s : State)
  : State * R :=
  let '(ovmd, inv_s2) := gather_sigma p net s in
  (* get time step *)
  let step := getStep h in
  (* do regression *)
  let scale :=
    if regression_due p h
    then if no_weights_ p then doRegression p ovmd
         else doRegression_weighted p ovmd inv_s2
    else scale_ s in
  (* calculate score *)
  let ene := for_sum (length ovmd) (fun i =>
               (scale * ovmd !!! i - ovdd_ p !!! i)
               * (scale * ovmd !!! i - ovdd_ p !!! i) * inv_s2 !!! i) in
  (* multiply by constant factors *)
  let ene := ene * (0.5 * kbt_ p) in
  let s := with_overlaps s ovmd scale in
  (* do Montecarlo *)
  let s := if Rltb 0 (dsigma_ p) && (Z.rem step (MCstride_ p) =? 0)%Z
              && negb (getExchangeStep h)
           then doMonteCarlo p net s else s in
  (* calculate acceptance ratio *)
  let s := if Rltb 0 (dsigma_ p) && (MCfirst_ s =? -1)%Z
           then with_MCfirst s step else s in
  (s, ene).

(** The value set on "acc" when [dsigma_>0]. *)
Definition acceptance (p : Setup) (h : Host) (s : State) : R :=
  let MCtrials := IZR (floor (IZR (getStep h - MCfirst_ s) / IZR (MCstride_ p))) + 1.0 in
  INR (MCaccept_ s) / MCtrials.

(** The overlaps after the replica average at the head of
    [calculate_marginal]. *)
Definition gather_marginal (p : Setup) (net : Net) (s : State) : list R :=
  let escale := 1.0 / INR (nrep_ p) in
  if negb (no_aver_ p) && (1 <? nrep_ p)%nat then
    let ovmd :=
      if (rank_ p =? 0)%nat
      then map (fun x => x * escale) (Sum (ovmd_ s) (ms_ovmd net))
      else map (fun _ => 0.0) (ovmd_ s) in
    Sum ovmd (co_ovmd net)
  else ovmd_ s.

(** [calculate_marginal]: the new state and the value set on "scoreb". *)
Definition calculate_marginal (p : Setup) (h : Host) (net : Net) (s : State)
  : State * R :=
  (* rescale factor for ensemble average *)
  let escale := 1.0 / INR (nrep_ p) in
  let ovmd := gather_marginal p net s in
  (* do regression *)
  let scale := if regression_due p h then doRegression p ovmd else scale_ s in
  (* calculate score *)
  let ene := for_sum (length ovmd) (fun i =>
               (* useful quantity *)
               let dev := (scale * ovmd !!! i - ovdd_ p !!! i) / sigma0_ p !!! i in
               (* calculate and store err and exp function *)
               let err_f := erf (dev * inv_sqrt2_) in
               (* increment energy *)
               - ln (0.5 / dev * err_f)) in
  (* multiply by constant factors *)
  let ene := ene * (kbt_ p / escale) in
  (with_overlaps s ovmd scale, ene).

(** ** Quantities the statements below speak of *)

(** The value a cluster move proposes for the component [i]. *)
Definition proposal (p : Setup) (s : State) (shift : R) (i : nat) : R :=
  check_boundaries (sigma_min_ p !!! i) (sigma_max_ p !!! i)
                   (sigma_ s !!! i + shift).

(** The energy the sampler attributes to the component [i] at the
    uncertainty [sig]: the data term and the prior term. *)
Definition mc_energy (p : Setup) (s : State) (i : nat) (sig : R) : R :=
  let s2 := sigma_mean_ p !!! i * sigma_mean_ p !!! i + sig * sig in
  0.5 * kbt_ p * (scale_ s * ovmd_ s !!! i - ovdd_ p !!! i)
               * (scale_ s * ovmd_ s !!! i - ovdd_ p !!! i) / s2
  + kbt_ p * prior_ p * ln s2.

(** [sigma] respects its bounds, component by component. *)
Definition within_bounds (p : Setup) (sigma : list R) : Prop :=
  forall i, (i < length sigma)%nat ->
    sigma_min_ p !!! i <= sigma !!! i <= sigma_max_ p !!! i.

(** The bounds are at least one Monte Carlo step apart. *)
Definition wide_bounds (p : Setup) (n : nat) : Prop :=
  0 <= dsigma_ p /\
  forall i, (i < n)%nat -> dsigma_ p <= sigma_max_ p !!! i - sigma_min_ p !!! i.

(** The generator keeps its contract from the cursor on. *)
Definition unit_draws (r : Random) : Prop :=
  forall k, (cursor r <= k)%nat -> 0 <= draws r k < 1.

(** A configuration with one positive definite component. *)
Definition unit_cov : VectorGeneric6 := mkV6 1 0 0 1 0 1.

(** Nothing is added by the other members of a communicator. *)
Definition silent (v : list R) : Prop := forall i : nat, v !!! i = 0.

(** The overlaps are averaged over the replicas. *)
Definition averaging (p : Setup) : bool :=
  negb (no_aver_ p) && (1 <? nrep_ p)%nat.

(** The model overlap of the component [i] that the score is computed
    from on the leader: the replica average when replicas are averaged. *)
Definition overlap_mean (p : Setup) (net : Net) (s : State) (i : nat) : R :=
  if averaging p
  then (ovmd_ s !!! i + ms_ovmd net !!! i) * (1.0 / INR (nrep_ p))
  else ovmd_ s !!! i.

(** The inverse variance of the component [i] on this replica. *)
Definition inv_variance (p : Setup) (s : State) (i : nat) : R :=
  1.0 / (sigma_mean_ p !!! i * sigma_mean_ p !!! i + sigma_ s !!! i * sigma_ s !!! i).

(** The weight of the component [i] in the score and in the weighted
    regression: the inverse variance, summed over the replicas when
    replicas are averaged. *)
Definition weight (p : Setup) (net : Net) (s : State) (i : nat) : R :=
  if averaging p then inv_variance p s i + ms_inv_s2 net !!! i
  else inv_variance p s i.

(** [p] with another prior exponent. *)
Definition with_prior (p : Setup) (prior : R) : Setup :=
  mkSetup (kbt_ p) (GMM_m_type_ p) (GMM_d p) (ovdd_ p) (nrep_ p) (replica_ p)
          (sigma_mean_ p) (sigma_min_ p) (sigma_max_ p) (sigma0_ p) (dsigma_ p)
          (pre_fact_ p) (inv_cov_md_ p) (nl_cutoff_ p) (nl_stride_ p)
          (no_aver_ p) (size_ p) (rank_ p) (pbc_ p) (MCstride_ p) (MCcut_ p)
          (MCneigh_ p) (do_sampling_ p) prior (nregres_ p) (no_weights_ p)
          (dexp_ p) (tab_exp_ p).

(** Two components far apart, of unit covariance and weight. *)
Definition two_components : GMMdata :=
  mkGMM [mkVector 0 0 0; mkVector 9 0 0] [1; 1] [unit_cov; unit_cov] [1%Z; 1%Z].

(** The leader of one of two replicas that are averaged, in sampled mode
    with the weighted regression at every step and no Monte Carlo
    ([DSIGMA=0]); the members that [calculate_sigma] reads are: [kbt_ = 1],
    [ovdd_ = [1; 2]], [nrep_ = 2], [sigma_mean_ = [0; 0]]. *)
Definition leader_of_two : Setup :=
  mkSetup 1 [] two_components [1; 2] 2 0
          [0; 0] [0; 0] [10; 10] [] 0 [] [] 0.01 1
          false 1 0 false 1 1 [] true 1 1 false
          (dpcutoff_ / INR (nexp_ - 1)) (tabulate (dpcutoff_ / INR (nexp_ - 1))).

(** Both replicas see the model overlaps [[1; 1]]; this one holds
    [sigma_ = [1; 1]], the other one [sigma_ = [1; 1/2]], whose inverse
    variances are [[1; 4]]. *)
Definition state_of_two : State :=
  mkState [1; 1] [1; 1] 1 0 (-1) [] false (mkRandom (fun _ => 0) 0).
Definition net_of_two : Net := mkNet [1; 1] [1; 4] [] [] [] 0.
Definition step_0 : Host := mkHost (fun a b => Vminus b a) [] 0 false.

(** The prefactor and the inverse that [get_self_overlap] obtains for the
    pair of data components [id], [i]. *)
Definition pair_prefactor (d : GMMdata) (id i : nat) : R :=
  fst (fst (get_prefactor_inverse (GMM_d_cov_ d !!! id) (GMM_d_cov_ d !!! i)
                                  (GMM_d_w_ d !!! id) (GMM_d_w_ d !!! i))).
Definition pair_inverse (d : GMMdata) (id i : nat) : VectorGeneric6 :=
  snd (get_prefactor_inverse (GMM_d_cov_ d !!! id) (GMM_d_cov_ d !!! i)
                             (GMM_d_w_ d !!! id) (GMM_d_w_ d !!! i)).

(** The quadratic form of the displacement between the means of the data
    components [id] and [i]. *)
Definition pair_form (pbc_ : bool) (h : Host) (d : GMMdata) (id i : nat) : R :=
  fst (fst (fst (quadratic_form
                   (displacement pbc_ h (GMM_d_m_ d !!! id) (GMM_d_m_ d !!! i))
                   (pair_inverse d id i)))).

(** Modelled from the spec: the minimal periodic image in a cubic box of
    edge [L], for displacements shorter than 3L/2 (the primitive itself,
    tools/Pbc.h, is not among the sources). *)
Definition wrap (L x : R) : R :=
  if Rlt_dec (L / 2) x then x - L
  else if Rlt_dec x (- (L / 2)) then x + L
  else x.
Definition cubic_pbcDistance (L : R) (a b : Vector) : Vector :=
  mkVector (wrap L (b.[0] - a.[0])) (wrap L (b.[1] - a.[1])) (wrap L (b.[2] - a.[2])).

(** A cubic box of edge 4. *)
Definition box_4 : Host := mkHost (cubic_pbcDistance 4) [] 0 false.


(** The experimental error of the component [i]: zero without [ERR_FILE]. *)
Definition exp_error (kw : Keywords) (i : nat) : R :=
  match exp_errors kw with Done (Some e) => e !!! i | _ => 0.0 end.

(** A row passes the tests of [get_GMM_d]. *)
Definition good_row (r : GMMrow) : Prop :=
  check_GMM_d (Cov r) (Weight r) = Done tt /\ (Beta r = 0%Z \/ Beta r = 1%Z).

(** Sampled mode with an error file that gives the single component the
    error 1, run on the second worker of a replica. *)
Definition sampling_kw : Keywords :=
  mkKeywords true true [0%nat] 0.1 0.1 1 1 1 1 (ERR_FILE_rows 1 [[1]])
             1 0 false 1 0 0.01 1 false 1.
Definition one_component : list GMMrow := [mkRow 0 1 0 0 0 unit_cov 1].
Definition one_component_data : GMMdata :=
  mkGMM [mkVector 0 0 0] [1] [unit_cov] [1%Z].
Definition one_carbon : list (nat -> string) := [fun _ => "CA"%string].
Definition one_carbon_types : list nat := [0%nat].
Definition one_carbon_weights : list R := [GMM_m_w_table !!! 0%nat].
Definition unit_errors : option (list R) := Some (read_exp_errors 1 [[1]]).
Definition second_worker : Process :=
  mkProcess 1 2 0 1 1 one_carbon (Some one_component) false None
            (mkRandom (fun _ => 0) 0).
Definition first_worker : Process :=
  mkProcess 0 2 0 1 1 one_carbon (Some one_component) false None
            (mkRandom (fun _ => 0) 0).
Definition quiet_net : Net := mkNet [] [] [] [] [] 0.

(** Marginal mode on the same data. *)
Definition marginal_kw : Keywords :=
  mkKeywords false true [0%nat] 0.1 0.1 0 0 0 0 (ERR_FILE_rows 1 [[1]])
             1 0 false 1 0 0.01 1 false 0.

(** The keys of a map, in its order. *)
Definition keys (m : ov_map) : list R := map fst m.

(** What "cycle on all atoms" maintains. *)
Definition collected (a : list R * ov_map * R) : Prop :=
  let '(ov_l, ov_m, ov_tot) := a in
  ov_tot = 0.0 + accumulate ov_l /\
  StronglySorted Rlt (keys ov_m) /\
  forall x, x ∈ keys ov_m <-> x ∈ ov_l.

(** For the component [id]: the table-approximated overlaps of the
    candidate atoms, their sum as the source accumulates it, and the
    overlaps of the atoms that are retained. *)
Definition candidate_overlaps (p : Setup) (h : Host) (id : nat) : list R :=
  fst (fst (candidates p h id)).
Definition candidate_map (p : Setup) (h : Host) (id : nat) : ov_map :=
  snd (fst (candidates p h id)).
Definition total_overlap (p : Setup) (h : Host) (id : nat) : R :=
  snd (candidates p h id).
Definition kept_overlaps (p : Setup) (h : Host) (id : nat) : list R :=
  keys (retained p h id).

(** The bound and the minimality as the specification words them: the
    retained overlaps sum to at least [nl_cutoff_] times the total, and
    without any one of them the sum falls below. *)
Definition retains_cutoff_fraction (p : Setup) (h : Host) (id : nat) : Prop :=
  total_overlap p h id * nl_cutoff_ p <= accumulate (kept_overlaps p h id).
Definition retained_is_minimal (p : Setup) (h : Host) (id : nat) : Prop :=
  forall x, x ∈ kept_overlaps p h id ->
    accumulate (kept_overlaps p h id) - x < total_overlap p h id * nl_cutoff_ p.

(** One data component and two atoms, of types C and O, that sit on its
    mean; the prefactors of the two pairs are 1 and 2. *)
Definition half_cov : VectorGeneric6 := mkV6 (/ 2) 0 0 (/ 2) 0 (/ 2).
Definition nl_setup (nl_cutoff : R) : Setup :=
  mkSetup 1 [0%nat; 1%nat] one_component_data [1] 1 0
          [0] [0] [10] [] 0
          [1; 2; 1; 1] [half_cov; half_cov; half_cov; half_cov]
          nl_cutoff 1 false 1 0 false 1 1 [] true 1 0 false
          (dpcutoff_ / INR (nexp_ - 1)) (tabulate (dpcutoff_ / INR (nexp_ - 1))).
Definition atoms_at_mean : Host :=
  mkHost (fun a b => Vminus b a) [mkVector 0 0 0; mkVector 0 0 0] 0 false.

(** Two components at a distance of 1, further apart than the cutoff 1/2
    of the collective moves. *)
Definition two_apart : list Vector := [mkVector 0 0 0; mkVector 1 0 0].
Definition mc_setup : Setup :=
  mkSetup 1 [] (mkGMM two_apart [1; 1] [unit_cov; unit_cov] [1%Z; 1%Z]) [1; 1] 1 0
          [0; 0] [0; 0] [10; 10] [] 1 [] [] 0.01 1
          false 1 0 false 1 (1 / 2) (prepareCollectiveMC two_apart (1 / 2))
          true 1 0 false
          (dpcutoff_ / INR (nexp_ - 1)) (tabulate (dpcutoff_ / INR (nexp_ - 1))).

(** A state of marginal mode in which no atom overlaps the component. *)
Definition far_state : State :=
  mkState [0] [] 1 0 (-1) [] false (mkRandom (fun _ => 0) 0).


(** ** Symmetric matrices *)

(** The product of the symmetric matrix [c] with the vector [v], and the
    quadratic form of [v], as [get_overlap] computes them. *)
Definition mat_vec (c : VectorGeneric6) (v : Vector) : Vector :=
  let '(_, p_x, p_y, p_z) := quadratic_form v c in mkVector p_x p_y p_z.
Definition form (c : VectorGeneric6) (v : Vector) : R :=
  fst (fst (fst (quadratic_form v c))).

Definition positive_definite (c : VectorGeneric6) : Prop :=
  forall v : Vector, v <> mkVector 0 0 0 -> 0 < form c v.

(** ** The model GMM: the golden rule in words *)

(** What [get_GMM_m] is compared with: the rule as its comments word it,
    written without the functions of the source. *)

(** The characters 0 to 9. *)
Definition digit (c : Ascii.ascii) : Prop :=
  In c (list_ascii_of_string "0123456789").

(** The type letter of an atom name: the first character when it is not
    a digit, the second character when the first is a digit. *)
Inductive type_letter : string -> Ascii.ascii -> Prop :=
| letter_first (c : Ascii.ascii) (rest : string) :
    ~ digit c -> type_letter (String c rest) c
| letter_second (d c : Ascii.ascii) (rest : string) :
    digit d -> type_letter (String d (String c rest)) c.

(** The four elements and their indices. *)
Inductive letter_index : Ascii.ascii -> nat -> Prop :=
| index_C : letter_index "C"%char 0%nat
| index_O : letter_index "O"%char 1%nat
| index_N : letter_index "N"%char 2%nat
| index_S : letter_index "S"%char 3%nat.

(** ** The model GMM: covariances *)

(** The covariance of the model component of type [i] that
    [calculate_useful_stuff] adds to the data covariances. *)
Definition model_cov (blur : R) (i : nat) : VectorGeneric6 :=
  let s := sqrt (0.5 * GMM_m_s_ !!! i) / PI * 0.1 in
  let s2 := s * s + blur * blur / 4.0 in
  mkV6 s2 0.0 0.0 s2 0.0 s2.

(** ** The model overlaps *)

Definition with_first_time (s : State) (b : bool) : State :=
  mkState (ovmd_ s) (sigma_ s) (scale_ s) (MCaccept_ s) (MCfirst_ s) (nl_ s)
          b (random_ s).

Definition prepare (h : Host) (s : State) : State :=
  if getExchangeStep h then with_first_time s true else s.

(** [comm.Sum] on a vector of [Vector]. *)
Definition SumV (own others : list Vector) : list Vector :=
  imap (fun i x => Vplus x (others !!! i)) own.

(** The test at the head of [calculate_overlap]. *)
Definition nl_due (p : Setup) (h : Host) (s : State) : bool :=
  first_time_ s || getExchangeStep h
  || (Z.rem (getStep h) (Z.of_nat (nl_stride_ p)) =? 0)%Z.

(** One turn of the cycle over the neighbor list, for the entry [i]; the
    accumulator is [ovmd_] and [ovmd_der_]. *)
Definition overlap_step (p : Setup) (h : Host) (nl : list nat)
    (a : list R * list Vector) (i : nat) : list R * list Vector :=
  let '(ovmd, ovmd_der) := a in
  let GMM_d_size := length (GMM_d_m_ (GMM_d p)) in
  let GMM_m_size := length (GMM_m_type_ p) in
  (* get data (id) and atom (im) indexes *)
  let id := (nl !!! i / GMM_m_size)%nat in
  let im := (nl !!! i mod GMM_m_size)%nat in
  (* get index in auxiliary lists *)
  let kaux := (GMM_m_type_ p !!! im * GMM_d_size + id)%nat in
  (* add overlap with im component of model GMM *)
  let '(ov, ov_der) :=
    get_overlap (pbc_ p) h (GMM_d_m_ (GMM_d p) !!! id) (getPosition h im)
                (pre_fact_ p !!! kaux) (inv_cov_md_ p !!! kaux) in
  (<[id := ovmd !!! id + ov]> ovmd, <[i := ov_der]> ovmd_der).

(** The entries of the neighbor list that the worker [rank] of [size]
    goes through: [for(i=rank; i<len; i=i+size)]. *)
Definition strided (rank size len : nat) : list nat :=
  List.filter (fun i => (i mod size =? rank)%nat) (seq 0 len).

(** [calculate_overlap]: the new state and [ovmd_der_], which has one
    cell for each entry of the neighbor list; [co_ovmd] and [co_der] are
    what the other workers add in the two collective sums. *)
Definition calculate_overlap (p : Setup) (h : Host)
    (co_ovmd : list R) (co_der : list Vector) (s : State)
  : State * list Vector :=
  let s := if nl_due p h s
           then with_first_time (update_neighbor_list p h s) false
           else s in
  (* clean temporary vectors *)
  let ovmd := map (fun _ => 0.0) (ovmd_ s) in
  let ovmd_der := replicate (length (nl_ s)) (mkVector 0 0 0) in
  (* we have to cycle over all model and data GMM components in the
     neighbor list *)
  let '(ovmd, ovmd_der) :=
    fold_left (overlap_step p h (nl_ s))
              (strided (rank_ p) (size_ p) (length (nl_ s))) (ovmd, ovmd_der) in
  (* communicate stuff *)
  if (1 <? size_ p)%nat
  then (with_overlaps s (Sum ovmd co_ovmd) (scale_ s), SumV ovmd_der co_der)
  else (with_overlaps s ovmd (scale_ s), ovmd_der).

(** The overlap of the data component [id] with the atom [im], as
    [calculate_overlap] computes it. *)
Definition exact_overlap (p : Setup) (h : Host) (id im : nat) : R :=
  let kaux := (GMM_m_type_ p !!! im * length (GMM_d_m_ (GMM_d p)) + id)%nat in
  fst (get_overlap (pbc_ p) h (GMM_d_m_ (GMM_d p) !!! id) (getPosition h im)
                   (pre_fact_ p !!! kaux) (inv_cov_md_ p !!! kaux)).

(** The squared misfit that the regression looks at: the sum of
    [w i * (scale * m i - d i)^2] over the components. *)
Definition misfit (n : nat) (w m d : nat -> R) (scale : R) : R :=
  for_sum n (fun i => w i * ((scale * m i - d i) * (scale * m i - d i))).

(** After the atoms below [k] have been gone through, the map holds
    atoms below [k], none of them twice. *)
Definition atoms_below (k : nat) (a : list R * ov_map * R) : Prop :=
  (forall e, In e (snd (fst a)) -> (snd e < k)%nat) /\
  List.NoDup (map snd (snd (fst a))).


#[global] Instance GMMrow_inhabited : Inhabited GMMrow :=
  populate (mkRow 0 0 0 0 0 (mkV6 0 0 0 0 0 0) 0).

(** The derivative of the overlap of the data component [id] with the
    atom [im], as [calculate_overlap] stores it. *)
Definition exact_overlap_der (p : Setup) (h : Host) (id im : nat) : Vector :=
  let kaux := (GMM_m_type_ p !!! im * length (GMM_d_m_ (GMM_d p)) + id)%nat in
  snd (get_overlap (pbc_ p) h (GMM_d_m_ (GMM_d p) !!! id) (getPosition h im)
                   (pre_fact_ p !!! kaux) (inv_cov_md_ p !!! kaux)).

(** ** Derivatives of the score *)

(** One turn of "get derivatives of bias with respect to atoms" in
    [calculate_sigma], for the entry [i] of the neighbor list; [ovmd],
    [inv_s2] and [scale] are what the head of the function has left in
    [ovmd_], [inv_s2] and [scale_], the accumulator is [atom_der_].  The
    virial, a [Tensor] of the host, is left out. *)
Definition der_step_sigma (p : Setup) (nl : list nat) (ovmd inv_s2 : list R)
    (scale : R) (ovmd_der : list Vector) (atom_der : list Vector) (i : nat)
  : list Vector :=
  let escale := 1.0 / INR (nrep_ p) in
  (* get indexes of data and model component *)
  let id := (nl !!! i / length (GMM_m_type_ p))%nat in
  let im := (nl !!! i mod length (GMM_m_type_ p))%nat in
  (* derivative *)
  let der := kbt_ p * (scale * ovmd !!! id - ovdd_ p !!! id) * inv_s2 !!! id in
  (* chain rule + replica normalization *)
  let tot_der := Vscale scale (Vscale escale (Vscale der (ovmd_der !!! i))) in
  (* increment derivative *)
  <[im := Vplus (atom_der !!! im) tot_der]> atom_der.

(** The derivatives that [calculate_sigma] sets on the atoms:
    [atom_der_] after the loop and the collective sum, to which the other
    workers add [co_der]. *)
Definition calculate_sigma_derivatives (p : Setup) (h : Host) (net : Net)
    (co_der : list Vector) (s : State) (ovmd_der : list Vector) : list Vector :=
  let '(ovmd, inv_s2) := gather_sigma p net s in
  let scale :=
    if regression_due p h
    then if no_weights_ p then doRegression p ovmd
         else doRegression_weighted p ovmd inv_s2
    else scale_ s in
  (* clean temporary vector *)
  let atom_der := replicate (length (GMM_m_type_ p)) (mkVector 0 0 0) in
  (* get derivatives of bias with respect to atoms *)
  let atom_der :=
    fold_left (der_step_sigma p (nl_ s) ovmd inv_s2 scale ovmd_der)
              (strided (rank_ p) (size_ p) (length (nl_ s))) atom_der in
  (* communicate stuff *)
  if (1 <? size_ p)%nat then SumV atom_der co_der else atom_der.

(** The host with the atom [im] at the position [v]. *)
Definition move (h : Host) (im : nat) (v : Vector) : Host :=
  mkHost (pbcDistance h) (<[im := v]> (Positions h)) (getStep h)
         (getExchangeStep h).

(** One evaluation in sampled mode, [calculate_overlap] followed by
    [calculate_sigma], on a single worker: the score and the derivatives
    set on the atoms. *)
Definition sampled_step (p : Setup) (h : Host) (net : Net) (s : State)
  : R * list Vector :=
  let '(s1, ovmd_der) := calculate_overlap p h [] [] s in
  (snd (calculate_sigma p h net s1),
   calculate_sigma_derivatives p h net [] s1 ovmd_der).

(** One data component and two listed atoms at its mean, between two
    rebuilds of the neighbor list ([nl_stride_ = 2], step 1) and without
    regression. *)
Definition forces_setup : Setup :=
  mkSetup 1 [0%nat; 1%nat] one_component_data [1] 1 0
          [0] [0] [10] [] 0
          [1; 2; 1; 1] [half_cov; half_cov; half_cov; half_cov]
          1 2 false 1 0 false 1 1 [] true 1 0 false
          (dpcutoff_ / INR (nexp_ - 1)) (tabulate (dpcutoff_ / INR (nexp_ - 1))).
Definition atoms_at_mean_step_1 : Host :=
  mkHost (fun a b => Vminus b a) [mkVector 0 0 0; mkVector 0 0 0] 1 false.
Definition listed_state : State :=
  mkState [0] [1] 1 0 (-1) [0%nat; 1%nat] false (mkRandom (fun _ => 0) 0).

(** One turn of "get derivatives of bias with respect to atoms" in
    [calculate_marginal], for the entry [i] of the neighbor list; [ovmd]
    and [scale] are what the head of the function has left in [ovmd_] and
    [scale_], [err_f_] and [exp_f_] are read as the score loop has stored
    them.  The virial is left out. *)
Definition der_step_marginal (p : Setup) (nl : list nat) (ovmd : list R)
    (scale : R) (ovmd_der : list Vector) (atom_der : list Vector) (i : nat)
  : list Vector :=
  (* get indexes of data and model component *)
  let id := (nl !!! i / length (GMM_m_type_ p))%nat in
  let im := (nl !!! i mod length (GMM_m_type_ p))%nat in
  let dev := (scale * ovmd !!! id - ovdd_ p !!! id) / sigma0_ p !!! id in
  let err_f := erf (dev * inv_sqrt2_) in
  let exp_f := exp (- 0.5 * dev * dev) in
  (* first part of derivative *)
  let der := - kbt_ p / err_f * sqrt2_pi_ * exp_f / sigma0_ p !!! id in
  (* second part *)
  let der := der + kbt_ p / (scale * ovmd !!! id - ovdd_ p !!! id) in
  (* chain rule *)
  let tot_der := Vscale scale (Vscale der (ovmd_der !!! i)) in
  (* increment derivative *)
  <[im := Vplus (atom_der !!! im) tot_der]> atom_der.

(** The derivatives that [calculate_marginal] sets on the atoms. *)
Definition calculate_marginal_derivatives (p : Setup) (h : Host) (net : Net)
    (co_der : list Vector) (s : State) (ovmd_der : list Vector) : list Vector :=
  let ovmd := gather_marginal p net s in
  let scale := if regression_due p h then doRegression p ovmd else scale_ s in
  (* clean temporary vector *)
  let atom_der := replicate (length (GMM_m_type_ p)) (mkVector 0 0 0) in
  (* get derivatives of bias with respect to atoms *)
  let atom_der :=
    fold_left (der_step_marginal p (nl_ s) ovmd scale ovmd_der)
              (strided (rank_ p) (size_ p) (length (nl_ s))) atom_der in
  (* communicate stuff *)
  if (1 <? size_ p)%nat then SumV atom_der co_der else atom_der.

(** One evaluation in marginal mode, [calculate_overlap] followed by
    [calculate_marginal], on a single worker: the score and the
    derivatives set on the atoms. *)
Definition marginal_step (p : Setup) (h : Host) (net : Net) (s : State)
  : R * list Vector :=
  let '(s1, ovmd_der) := calculate_overlap p h [] [] s in
  (snd (calculate_marginal p h net s1),
   calculate_marginal_derivatives p h net [] s1 ovmd_der).

(** The deviation of the component [i] that the marginal score takes the
    error function of, for the model overlaps [ovmd]. *)
Definition deviation (p : Setup) (scale : R) (ovmd : list R) (i : nat) : R :=
  (scale * ovmd !!! i - ovdd_ p !!! i) / sigma0_ p !!! i.

(** The setup of [forces_setup] in marginal mode, with the error 1 on its
    one component. *)
Definition marginal_forces_setup : Setup :=
  mkSetup 1 [0%nat; 1%nat] one_component_data [1] 1 0
          [0] [0] [10] [1] 0
          [1; 2; 1; 1] [half_cov; half_cov; half_cov; half_cov]
          1 2 false 1 0 false 1 1 [] false 1 0 false
          (dpcutoff_ / INR (nexp_ - 1)) (tabulate (dpcutoff_ / INR (nexp_ - 1))).

(** The setup of [mc_setup] with a Monte Carlo move every second step,
    and the host at the step 3. *)
Definition mc_stride_2 : Setup :=
  mkSetup 1 [] (mkGMM two_apart [1; 1] [unit_cov; unit_cov] [1%Z; 1%Z]) [1; 1] 1 0
          [0; 0] [0; 0] [10; 10] [] 1 [] [] 0.01 1
          false 1 0 false 2 (1 / 2) (prepareCollectiveMC two_apart (1 / 2))
          true 1 0 false
          (dpcutoff_ / INR (nexp_ - 1)) (tabulate (dpcutoff_ / INR (nexp_ - 1))).
Definition step_3 : Host := mkHost (fun a b => Vminus b a) [] 3 false.

End EMMI.
(* ===================================================================== *)
(** * ExchangePatterns: proofs *)
(* ===================================================================== *)

Section GetListProofs.
Import ExchangePatterns.
Local Open Scope Z_scope.

Example getList_3 :
  getList [(1#2); (1#2); (9#10); (0#1); (7#10); (1#3)]%Q [7; 7; 7; 7] 3
  = Some ([1; 2; 0; 7], [(7#10); (1#3)]%Q).
Proof. reflexivity. Qed.

Example getList_starved :
  getList [(1#2); (1#2); (1#2)]%Q [0; 0] 2 = None.
Proof. reflexivity. Qed.

Lemma double_to_int_range (u : Q) (n : Z) :
  unit_draw u -> 0 < n -> 0 <= double_to_int (u * inject_Z n) < n.
Proof.
  intros [H0 H1] Hn. unfold double_to_int.
  destruct u as [a b]. unfold Qle, Qlt in *. cbn in *.
  rewrite Z.mul_1_r in H0, H1.
  assert (Hb : 0 < Z.pos b) by lia.
  replace (Z.pos (b * 1)) with (Z.pos b) by (f_equal; lia).
  rewrite Z.quot_div_nonneg by nia.
  split.
  - apply Z.div_pos; nia.
  - apply Z.div_lt_upper_bound; nia.
Qed.

Lemma scan_spec (ind : list Z) (i : nat) :
  scan ind i = true <-> exists j, (j < i)%nat /\ at_ ind i = at_ ind j.
Proof.
  unfold scan.
  assert (G : forall js b,
    fold_left (fun stat j => if Z.eqb (at_ ind i) (at_ ind j) then true else stat)
              js b = true
    <-> b = true \/ exists j, In j js /\ at_ ind i = at_ ind j).
  { induction js as [|j js IH]; intros b; cbn.
    - split; [auto | intros [?|[? [[] _]]]; auto].
    - rewrite IH. destruct (Z.eqb_spec (at_ ind i) (at_ ind j)) as [E|E].
      + split; [intros _|auto]. right. exists j. auto.
      + split.
        * intros [?|[k [? ?]]]; [auto|right; exists k; auto].
        * intros [?|[k [[->|?] ?]]]; [auto|contradiction|right; exists k; auto]. }
  rewrite G. split.
  - intros [?|[j [Hj ?]]]; [discriminate|]. exists j. split; [|assumption].
    apply in_seq in Hj. lia.
  - intros [j [Hj ?]]. right. exists j. split; [|assumption].
    apply in_seq. lia.
Qed.

Lemma at_take (ind : list Z) (i j : nat) :
  (j < i)%nat -> (i <= length ind)%nat -> at_ (take i ind) j = at_ ind j.
Proof.
  intros Hj Hi. unfold at_.
  rewrite <- (take_drop i ind) at 2.
  rewrite app_nth1; [reflexivity|]. rewrite length_take. lia.
Qed.

Lemma elem_of_at (l : list Z) (v : Z) :
  v ∈ l -> exists j, (j < length l)%nat /\ at_ l j = v.
Proof.
  intros H. apply list_elem_of_In in H.
  destruct (In_nth l v 0 H) as [j [? ?]]. exists j. auto.
Qed.

Lemma while_stat_step (nrepl : Z) (rnd : list Q) :
  forall (ind : list Z) (i : nat) ind' rnd',
    Forall unit_draw rnd -> 0 < nrepl -> (i < length ind)%nat ->
    good_prefix nrepl i ind ->
    while_stat rnd ind i nrepl = Some (ind', rnd') ->
    length ind' = length ind /\ Forall unit_draw rnd' /\
    good_prefix nrepl (S i) ind'.
Proof.
  induction rnd as [|u rnd IH]; intros ind i ind' rnd' Hu Hn Hi Hg Hw;
    cbn in Hw; [discriminate|].
  inversion Hu as [|? ? Hu1 Hu2]; subst.
  set (v := double_to_int (u * inject_Z nrepl)) in *.
  assert (Hpre : take i (<[i := v]> ind) = take i ind)
    by (apply take_insert_ge; lia).
  destruct (scan (<[i := v]> ind) i) eqn:Es.
  - destruct (IH (<[i := v]> ind) i ind' rnd') as (L & U & G); auto.
    + rewrite length_insert. exact Hi.
    + unfold good_prefix. rewrite Hpre. exact Hg.
    + rewrite length_insert in L. auto.
  - inversion Hw; subst ind' rnd'; clear Hw.
    rewrite length_insert. split; [reflexivity|]. split; [assumption|].
    assert (Hv : at_ (<[i := v]> ind) i = v).
    { unfold at_. apply nth_lookup_Some. apply list_lookup_insert_eq. exact Hi. }
    assert (Hsn : take (S i) (<[i := v]> ind) = take i ind ++ [v]).
    { rewrite (take_S_r _ i v) by (apply list_lookup_insert_eq; exact Hi).
      rewrite Hpre. reflexivity. }
    destruct Hg as [Hnd Hrg]. unfold good_prefix. rewrite Hsn. split.
    + apply NoDup_app. split; [assumption|]. split; [|apply NoDup_singleton].
      intros x Hx Hx'. apply list_elem_of_singleton in Hx'. subst x.
      destruct (elem_of_at _ _ Hx) as [j [Hj Hjv]].
      rewrite length_take in Hj.
      assert (Hji : (j < i)%nat) by lia.
      assert (scan (<[i := v]> ind) i = true); [|congruence].
      apply scan_spec. exists j. split; [assumption|].
      rewrite Hv.
      assert (Ht : at_ (take i (<[i := v]> ind)) j = at_ (<[i := v]> ind) j)
        by (apply at_take; [assumption|rewrite length_insert; lia]).
      rewrite <- Ht, Hpre. symmetry. exact Hjv.
    + apply Forall_app. split; [assumption|].
      apply Forall_singleton. apply double_to_int_range; assumption.
Qed.

Lemma for_i_inv (nrepl : Z) :
  forall (todo i : nat) (rnd : list Q) (ind ind' : list Z) rnd',
    Forall unit_draw rnd -> 0 < nrepl -> (i + todo <= length ind)%nat ->
    good_prefix nrepl i ind ->
    for_i todo i rnd ind nrepl = Some (ind', rnd') ->
    length ind' = length ind /\ good_prefix nrepl (i + todo) ind'.
Proof.
  induction todo as [|todo IH]; intros i rnd ind ind' rnd' Hu Hn Hlen Hg Hf;
    cbn in Hf.
  - inversion Hf; subst. rewrite Nat.add_0_r. auto.
  - destruct (while_stat rnd ind i nrepl) as [[ind1 rnd1]|] eqn:Ew;
      [|discriminate].
    destruct (while_stat_step nrepl rnd ind i ind1 rnd1) as (L & U & G);
      auto; [lia|].
    destruct (IH (S i) rnd1 ind1 ind' rnd') as (L' & G'); auto;
      [lia|].
    replace (i + S todo)%nat with (S i + todo)%nat by lia.
    split; [congruence|assumption].
Qed.


(** C10. Whenever [getList] returns, and the generator kept its contract,
    the cells [ind[0]], ..., [ind[nrepl-1]] are pairwise distinct integers
    of [[0, nrepl-1]]: a permutation of [0, ..., nrepl-1]. *)
Theorem getList_permutation
    (rnd : list Q) (ind : list Z) (nrepl : Z) (ind' : list Z) (rnd' : list Q) :
  Forall unit_draw rnd ->
  (Z.to_nat nrepl <= length ind)%nat ->
  getList rnd ind nrepl = Some (ind', rnd') ->
  NoDup (take (Z.to_nat nrepl) ind') /\
  Forall (fun v => 0 <= v < nrepl) (take (Z.to_nat nrepl) ind') /\
  take (Z.to_nat nrepl) ind' ≡ₚ seqZ 0 nrepl.
Proof.
  intros Hu Hlen Hg. unfold getList in Hg.
  destruct (Z_lt_le_dec 0 nrepl) as [Hn|Hn].
  - destruct (for_i_inv nrepl (Z.to_nat nrepl) 0 rnd ind ind' rnd')
      as (L & Hnd & Hrg); auto.
    { split; [apply NoDup_nil_2|apply Forall_nil_2]. }
    cbn in Hnd, Hrg. split; [assumption|]. split; [assumption|].
    apply submseteq_length_Permutation.
    + apply NoDup_submseteq; [assumption|].
      intros x Hx. rewrite Forall_forall in Hrg.
      apply elem_of_seqZ. specialize (Hrg x Hx). lia.
    + rewrite length_seqZ, length_take. lia.
  - replace (Z.to_nat nrepl) with 0%nat by lia. cbn.
    split; [apply NoDup_nil_2|]. split; [apply Forall_nil_2|].
    rewrite seqZ_nil by lia. reflexivity.
Qed.

Lemma getList_permutation_witness :
  NoDup (take (Z.to_nat 3) [1; 2; 0; 7]) /\
  Forall (fun v => 0 <= v < 3) (take (Z.to_nat 3) [1; 2; 0; 7]) /\
  take (Z.to_nat 3) [1; 2; 0; 7] ≡ₚ seqZ 0 3.
Proof.
  apply (getList_permutation
           [(1#2); (1#2); (9#10); (0#1); (7#10); (1#3)]%Q [7; 7; 7; 7] 3
           [1; 2; 0; 7] [(7#10); (1#3)]%Q).
  - repeat constructor; unfold Qle, Qlt; cbn; lia.
  - cbn. lia.
  - reflexivity.
Defined.

End GetListProofs.

(* ===================================================================== *)
(** * EMMI: proofs *)
(* ===================================================================== *)

Section EMMIBasics.
Import EMMI.
Local Open Scope R_scope.

Lemma nexp_value : nexp_ = Z.to_nat 1000000.
Proof. reflexivity. Qed.

#[global] Opaque nexp_.

Lemma Rleb_true (a b : R) : Rleb a b = true <-> a <= b.
Proof. unfold Rleb. destruct (Rle_dec a b); split; auto; discriminate. Qed.

Lemma Rleb_false (a b : R) : Rleb a b = false <-> b < a.
Proof.
  unfold Rleb. destruct (Rle_dec a b); split; auto; try discriminate; lra.
Qed.

Lemma Rltb_true (a b : R) : Rltb a b = true <-> a < b.
Proof. unfold Rltb. destruct (Rlt_dec a b); split; auto; discriminate. Qed.

Lemma Rltb_false (a b : R) : Rltb a b = false <-> b <= a.
Proof.
  unfold Rltb. destruct (Rlt_dec a b); split; auto; try discriminate; lra.
Qed.

Lemma for_sum_S (n : nat) (f : nat -> R) :
  for_sum (S n) f = for_sum n f + f n.
Proof.
  unfold for_sum. rewrite seq_S, fold_left_app. reflexivity.
Qed.

Lemma for_sum_ext (n : nat) (f g : nat -> R) :
  (forall i, (i < n)%nat -> f i = g i) -> for_sum n f = for_sum n g.
Proof.
  induction n as [|n IH]; intros H; [reflexivity|].
  rewrite !for_sum_S, IH, H; auto.
Qed.

Lemma for_sum_scal (n : nat) (c : R) (f : nat -> R) :
  for_sum n (fun i => c * f i) = c * for_sum n f.
Proof.
  induction n as [|n IH]; [unfold for_sum; cbn; lra|].
  rewrite !for_sum_S, IH. lra.
Qed.

Lemma for_sum_plus (n : nat) (f g : nat -> R) :
  for_sum n (fun i => f i + g i) = for_sum n f + for_sum n g.
Proof.
  induction n as [|n IH]; [unfold for_sum; cbn; lra|].
  rewrite !for_sum_S, IH. lra.
Qed.

Lemma for_sum_nonneg (n : nat) (f : nat -> R) :
  (forall i, (i < n)%nat -> 0 <= f i) -> 0 <= for_sum n f.
Proof.
  induction n as [|n IH]; intros H; [unfold for_sum; cbn; lra|].
  rewrite for_sum_S. specialize (H n (Nat.lt_succ_diag_r n)) as Hn.
  assert (0 <= for_sum n f) by (apply IH; intros; apply H; lia). lra.
Qed.

End EMMIBasics.

(** Decides the comparisons of a goal between explicit numbers. *)
Ltac rbool :=
  repeat match goal with
  | |- context [EMMI.Rleb ?a ?b] =>
      first [ rewrite (proj2 (Rleb_true a b)) by lra
            | rewrite (proj2 (Rleb_false a b)) by lra ]
  | |- context [EMMI.Rltb ?a ?b] =>
      first [ rewrite (proj2 (Rltb_true a b)) by lra
            | rewrite (proj2 (Rltb_false a b)) by lra ]
  | |- context [Rle_dec ?a ?b] => destruct (Rle_dec a b); [|try lra]; try lra
  | |- context [Rlt_dec ?a ?b] => destruct (Rlt_dec a b); [|try lra]; try lra
  end.

(* --------------------------------------------------------------------- *)
(** ** Loading the data GMM *)
(* --------------------------------------------------------------------- *)

Section LoadGMM.
Import EMMI.
Local Open Scope R_scope.

Lemma check_GMM_d_negative_weight (cov : VectorGeneric6) (w : R) :
  w < 0 -> is_done (check_GMM_d cov w) = false.
Proof.
  intros Hw. unfold check_GMM_d.
  destruct (_ || _); [reflexivity|].
  rewrite (proj2 (Rltb_true w 0)) by exact Hw. reflexivity.
Qed.

(** C7 (the code at the failing input). A component of weight zero, with
    a positive definite covariance, passes [check_GMM_d] and is loaded:
    only a weight below zero is refused. *)
Theorem get_GMM_d_zero_weight_loaded :
  check_GMM_d unit_cov 0 = Done tt /\
  get_GMM_d (Some [mkRow 0 0 0 0 0 unit_cov 1])
  = Done (mkGMM [mkVector 0 0 0] [0] [unit_cov] [1%Z]).
Proof.
  assert (H : check_GMM_d unit_cov 0 = Done tt).
  { unfold check_GMM_d, unit_cov. cbn. rbool. reflexivity. }
  split; [exact H|]. cbn -[check_GMM_d]. rewrite H. reflexivity.
Qed.

End LoadGMM.

(* --------------------------------------------------------------------- *)
(** ** Vectors, lookups *)
(* --------------------------------------------------------------------- *)

Section Lookups.
Import EMMI.
Local Open Scope R_scope.

Lemma lookup_total_nth {A : Type} `{!Inhabited A} (l : list A) (i : nat) :
  l !!! i = nth i l inhabitant.
Proof. rewrite list_lookup_total_alt, nth_lookup. reflexivity. Qed.

Lemma lookup_total_map_seq {A : Type} `{!Inhabited A} (f : nat -> A) (n i : nat) :
  (i < n)%nat -> map f (seq 0 n) !!! i = f i.
Proof.
  intros Hi. rewrite lookup_total_nth.
  rewrite (nth_indep _ inhabitant (f 0%nat)) by (rewrite length_map, length_seq; lia).
  rewrite map_nth, seq_nth by lia. reflexivity.
Qed.

Lemma lookup_total_app_l {A : Type} `{!Inhabited A} (l k : list A) (i : nat) :
  (i < length l)%nat -> (l ++ k) !!! i = l !!! i.
Proof. intros. rewrite !lookup_total_nth. apply app_nth1. assumption. Qed.

Lemma lookup_total_app_len {A : Type} `{!Inhabited A} (l : list A) (x : A) :
  (l ++ [x]) !!! length l = x.
Proof.
  rewrite lookup_total_nth, app_nth2 by lia. rewrite Nat.sub_diag. reflexivity.
Qed.

Lemma modulo_self (m : Vector) : modulo (Vminus m m) = 0.
Proof.
  unfold modulo, Vminus. cbn.
  replace ((vec_x m - vec_x m) * (vec_x m - vec_x m)
           + (vec_y m - vec_y m) * (vec_y m - vec_y m)
           + (vec_z m - vec_z m) * (vec_z m - vec_z m)) with 0 by ring.
  apply sqrt_0.
Qed.


Lemma elem_of_MCneigh (ms : list Vector) (cut : R) (i j : nat) :
  (i < length ms)%nat ->
  j ∈ prepareCollectiveMC ms cut !!! i <->
  (j < length ms)%nat /\ modulo (Vminus (ms !!! i) (ms !!! j)) <= cut.
Proof.
  intros Hi. unfold prepareCollectiveMC.
  rewrite lookup_total_map_seq by assumption.
  rewrite list_elem_of_filter, elem_of_seq, Rleb_true. split.
  - intros [H1 H2]. split; [lia|assumption].
  - intros [H1 H2]. split; [assumption|lia].
Qed.

End Lookups.

(* --------------------------------------------------------------------- *)
(** ** The cluster move *)
(* --------------------------------------------------------------------- *)

Section ClusterMove.
Import EMMI.
Local Open Scope R_scope.

Lemma check_boundaries_inside (lo hi x : R) :
  lo <= x <= hi -> check_boundaries lo hi x = x.
Proof.
  intros H. unfold check_boundaries.
  destruct (Rlt_dec hi x); [lra|]. destruct (Rlt_dec x lo); lra.
Qed.

Lemma check_boundaries_above (lo hi x : R) :
  hi < x -> x <= 2 * hi - lo -> check_boundaries lo hi x = 2 * hi - x.
Proof.
  intros H1 H2. unfold check_boundaries.
  destruct (Rlt_dec hi x); [|lra].
  destruct (Rlt_dec (2.0 * hi - x) lo); lra.
Qed.

Lemma check_boundaries_below (lo hi x : R) :
  lo <= hi -> x < lo -> check_boundaries lo hi x = 2 * lo - x.
Proof.
  intros H1 H2. unfold check_boundaries.
  destruct (Rlt_dec hi x); [lra|].
  destruct (Rlt_dec x lo); lra.
Qed.

(** Without the premise on the width of the interval the reflected value
    is tested against the other bound and reflected once more. *)
Example check_boundaries_twice : check_boundaries 0 1 (5 / 2) = 1 / 2.
Proof.
  unfold check_boundaries.
  destruct (Rlt_dec 1 (5 / 2)); [|lra].
  destruct (Rlt_dec (2.0 * 1 - 5 / 2) 0); lra.
Qed.

Lemma shift_bounded (dsigma u : R) :
  0 <= dsigma -> 0 <= u < 1 -> Rabs (dsigma * (2.0 * u - 1.0)) <= dsigma.
Proof.
  intros Hd Hu. apply Rabs_le. split; nra.
Qed.

Lemma check_boundaries_within (sigma_min sigma_max sigma shift dsigma : R) :
  sigma_min <= sigma <= sigma_max ->
  - dsigma <= shift <= dsigma ->
  dsigma <= sigma_max - sigma_min ->
  sigma_min <= check_boundaries sigma_min sigma_max (sigma + shift) <= sigma_max.
Proof.
  intros Hs Hsh Hd.
  destruct (Rlt_dec sigma_max (sigma + shift)).
  - rewrite check_boundaries_above; lra.
  - destruct (Rlt_dec (sigma + shift) sigma_min).
    + rewrite check_boundaries_below; lra.
    + rewrite check_boundaries_inside; lra.
Qed.

Lemma Rabs_bound (x b : R) : Rabs x <= b -> - b <= x <= b.
Proof. intros H. unfold Rabs in H. destruct (Rcase_abs x); lra. Qed.



End ClusterMove.

Section ClusterCommit.
Import EMMI.
Local Open Scope R_scope.

Lemma fold_left_Rplus (l : list R) (a : R) :
  fold_left Rplus l a = a + accumulate l.
Proof.
  unfold accumulate. revert a.
  induction l as [|x l IH]; intros a; cbn; [lra|].
  rewrite (IH (a + x)), (IH (0 + x)). lra.
Qed.

Lemma accumulate_cons (x : R) (l : list R) :
  accumulate (x :: l) = x + accumulate l.
Proof. unfold accumulate at 1. cbn. rewrite fold_left_Rplus. lra. Qed.

(** "cycle on neighbors" as a whole: the two energies are the sums of
    [mc_energy] at the current and at the proposed uncertainties, and
    [new_sigma] lists the proposals in the order of the neighbors. *)
Lemma cluster_fold (p : Setup) (s : State) (shift : R) (neigh : list nat) :
  forall (old_ene new_ene : R) (new_sigma : list R),
    fold_left (cluster_step p s shift) neigh (old_ene, new_ene, new_sigma)
    = (old_ene + accumulate (map (fun i => mc_energy p s i (sigma_ s !!! i)) neigh),
       new_ene + accumulate (map (fun i => mc_energy p s i (proposal p s shift i)) neigh),
       new_sigma ++ map (proposal p s shift) neigh).
Proof.
  induction neigh as [|i neigh IH]; intros o n acc.
  - cbn. unfold accumulate. cbn. rewrite app_nil_r.
    apply pair_equal_spec; split; [apply pair_equal_spec; split; lra|reflexivity].
  - cbn [fold_left map]. unfold cluster_step at 2. rewrite IH.
    rewrite !accumulate_cons, <- app_assoc. cbn [app].
    unfold mc_energy, proposal.
    apply pair_equal_spec; split; [apply pair_equal_spec; split; lra|reflexivity].
Qed.

Lemma length_commit_upto (neigh : list nat) (ns sigma : list R) (m : nat) :
  length (fold_left (fun sig j => <[ neigh !!! j := ns !!! j ]> sig)
                    (seq 0 m) sigma) = length sigma.
Proof.
  induction m as [|m IH]; [reflexivity|].
  rewrite seq_S, fold_left_app. cbn. rewrite length_insert. exact IH.
Qed.

Lemma length_commit (neigh : list nat) (ns sigma : list R) :
  length (commit neigh ns sigma) = length sigma.
Proof. apply length_commit_upto. Qed.

Lemma commit_upto_hit (neigh : list nat) (ns sigma : list R)
    (g : nat -> R) (k m : nat) :
  (forall j, (j < m)%nat -> ns !!! j = g (neigh !!! j)) ->
  (k < length sigma)%nat ->
  (exists j, (j < m)%nat /\ neigh !!! j = k) ->
  fold_left (fun sig j => <[ neigh !!! j := ns !!! j ]> sig) (seq 0 m) sigma !!! k
  = g k.
Proof.
  intros Hns Hk. induction m as [|m IH]; intros [j [Hj Ej]]; [lia|].
  rewrite seq_S, fold_left_app. cbn [fold_left Nat.add].
  destruct (decide (neigh !!! m = k)) as [E|E].
  - rewrite E, list_lookup_total_insert_eq
      by (rewrite length_commit_upto; exact Hk).
    rewrite (Hns m) by lia. rewrite E. reflexivity.
  - rewrite list_lookup_total_insert_ne by exact E.
    apply IH; [intros; apply Hns; lia|].
    exists j. split; [|exact Ej].
    destruct (Nat.eq_dec j m); [subst; contradiction|lia].
Qed.

Lemma commit_upto_miss (neigh : list nat) (ns sigma : list R) (k m : nat) :
  (forall j, (j < m)%nat -> neigh !!! j <> k) ->
  fold_left (fun sig j => <[ neigh !!! j := ns !!! j ]> sig) (seq 0 m) sigma !!! k
  = sigma !!! k.
Proof.
  induction m as [|m IH]; intros Hne; [reflexivity|].
  rewrite seq_S, fold_left_app. cbn [fold_left Nat.add].
  rewrite list_lookup_total_insert_ne by (apply Hne; lia).
  apply IH. intros; apply Hne; lia.
Qed.

Lemma lookup_total_map {A : Type} `{!Inhabited A} (f : nat -> A)
    (l : list nat) (j : nat) :
  (j < length l)%nat -> map f l !!! j = f (l !!! j).
Proof.
  intros Hj. rewrite !lookup_total_nth.
  rewrite (nth_indep _ inhabitant (f inhabitant)) by (rewrite length_map; exact Hj).
  apply map_nth.
Qed.

(** A committed move leaves the proposal in every cell of the cluster and
    the old value in every other cell. *)
Lemma commit_proposals_in (p : Setup) (s : State) (shift : R)
    (neigh : list nat) (k : nat) :
  (k < length (sigma_ s))%nat -> k ∈ neigh ->
  commit neigh (map (proposal p s shift) neigh) (sigma_ s) !!! k
  = proposal p s shift k.
Proof.
  intros Hk I. unfold commit.
  apply (commit_upto_hit neigh _ (sigma_ s) (proposal p s shift)).
  - intros j Hj. apply lookup_total_map. exact Hj.
  - exact Hk.
  - apply list_elem_of_lookup_total_1 in I.
    destruct I as [j [Hj Ej]]. exists j. auto.
Qed.

Lemma commit_proposals_out (p : Setup) (s : State) (shift : R)
    (neigh : list nat) (k : nat) :
  k ∉ neigh ->
  commit neigh (map (proposal p s shift) neigh) (sigma_ s) !!! k
  = sigma_ s !!! k.
Proof.
  intros I. unfold commit. apply commit_upto_miss.
  intros j Hj E. apply I. rewrite <- E.
  apply list_elem_of_lookup_total_2. exact Hj.
Qed.

(** C9. With a positive cutoff the neighborhood that [prepareCollectiveMC]
    stores for the component [i] contains [i], so a committed cluster move
    drawn at [i] puts the proposal for [i] itself into [sigma_[i]]. *)
Theorem MCneigh_contains_self (GMM_d_m : list Vector) (MCcut : R) (i : nat) :
  0 < MCcut ->
  (i < length GMM_d_m)%nat ->
  i ∈ prepareCollectiveMC GMM_d_m MCcut !!! i /\
  forall (p : Setup) (s : State) (shift : R),
    MCneigh_ p = prepareCollectiveMC GMM_d_m MCcut ->
    (i < length (sigma_ s))%nat ->
    let neigh := MCneigh_ p !!! i in
    let '(_, _, new_sigma) :=
      fold_left (cluster_step p s shift) neigh (0.0, 0.0, []) in
    commit neigh new_sigma (sigma_ s) !!! i
    = check_boundaries (sigma_min_ p !!! i) (sigma_max_ p !!! i)
                       (sigma_ s !!! i + shift).
Proof.
  intros Hcut Hi.
  assert (Hin : i ∈ prepareCollectiveMC GMM_d_m MCcut !!! i).
  { apply elem_of_MCneigh; [exact Hi|]. split; [exact Hi|].
    rewrite modulo_self. lra. }
  split; [exact Hin|].
  intros p s shift HM Hs neigh. subst neigh.
  rewrite cluster_fold. cbn [app].
  rewrite commit_proposals_in; [reflexivity|exact Hs|].
  rewrite HM. exact Hin.
Qed.

Lemma MCneigh_contains_self_witness :
  1%nat ∈ prepareCollectiveMC two_apart (1 / 2) !!! 1%nat /\
  let '(_, _, new_sigma) :=
    fold_left (cluster_step mc_setup state_of_two 1)
              (MCneigh_ mc_setup !!! 1%nat) (0.0, 0.0, []) in
  commit (MCneigh_ mc_setup !!! 1%nat) new_sigma (sigma_ state_of_two) !!! 1%nat
  = check_boundaries (sigma_min_ mc_setup !!! 1%nat) (sigma_max_ mc_setup !!! 1%nat)
                     (sigma_ state_of_two !!! 1%nat + 1).
Proof.
  assert (Hcut : 0 < 1 / 2) by lra.
  assert (Hi : (1 < length two_apart)%nat) by (cbn; lia).
  destruct (MCneigh_contains_self two_apart (1 / 2) 1%nat Hcut Hi) as [A B].
  split; [exact A|].
  apply (B mc_setup state_of_two 1); [reflexivity|cbn; lia].
Defined.

End ClusterCommit.

(* --------------------------------------------------------------------- *)
(** ** Collective sums and the head of [calculate_sigma] *)
(* --------------------------------------------------------------------- *)

Section Gather.
Import EMMI.
Local Open Scope R_scope.

Lemma length_Sum (own others : list R) : length (Sum own others) = length own.
Proof. unfold Sum. apply length_imap. Qed.

Lemma lookup_Sum (own others : list R) (i : nat) :
  (i < length own)%nat -> Sum own others !!! i = own !!! i + others !!! i.
Proof.
  intros Hi. unfold Sum.
  rewrite (list_lookup_total_alt (imap _ _)), list_lookup_imap.
  destruct (lookup_lt_is_Some_2 own i Hi) as [x Hx].
  rewrite Hx. cbn. rewrite (list_lookup_total_correct _ _ _ Hx). reflexivity.
Qed.

Lemma lookup_Sum_silent (own others : list R) (i : nat) :
  silent others -> Sum own others !!! i = own !!! i.
Proof.
  intros Hs. destruct (Nat.lt_ge_cases i (length own)) as [Hi|Hi].
  - rewrite lookup_Sum by exact Hi. rewrite Hs. lra.
  - rewrite !lookup_total_nth.
    rewrite !nth_overflow; [reflexivity|exact Hi|rewrite length_Sum; exact Hi].
Qed.

Lemma lookup_total_map_R (f : R -> R) (l : list R) (i : nat) :
  (i < length l)%nat -> map f l !!! i = f (l !!! i).
Proof.
  intros Hi. rewrite !lookup_total_nth.
  rewrite (nth_indep _ inhabitant (f inhabitant)) by (rewrite length_map; exact Hi).
  apply map_nth.
Qed.

(** On the leader of a replica whose other workers add nothing, the head
    of [calculate_sigma] leaves [overlap_mean] in [ovmd_] and [weight] in
    [inv_s2]. *)
Lemma gather_sigma_leader (p : Setup) (net : Net) (s : State) :
  rank_ p = 0%nat -> silent (co_ovmd net) -> silent (co_inv_s2 net) ->
  let '(ovmd, inv_s2) := gather_sigma p net s in
  length ovmd = length (ovmd_ s) /\
  (forall i, (i < length (ovmd_ s))%nat ->
     ovmd !!! i = overlap_mean p net s i /\ inv_s2 !!! i = weight p net s i).
Proof.
  intros Hr Hso Hsi. unfold gather_sigma. rewrite Hr. cbn [Nat.eqb].
  unfold overlap_mean, weight, averaging.
  set (iv := map _ (seq 0 (length (ovmd_ s)))).
  assert (Hiv : forall i, (i < length (ovmd_ s))%nat -> iv !!! i = inv_variance p s i).
  { intros i Hi. unfold iv. rewrite lookup_total_map_seq by exact Hi. reflexivity. }
  assert (Hlen : length iv = length (ovmd_ s)).
  { unfold iv. rewrite length_map, length_seq. reflexivity. }
  destruct (negb (no_aver_ p) && (1 <? nrep_ p)%nat);
    destruct (1 <? size_ p)%nat.
  - split; [rewrite length_Sum, length_map, length_Sum; reflexivity|].
    intros i Hi. rewrite !lookup_Sum_silent by assumption.
    rewrite lookup_total_map_R by (rewrite length_Sum; exact Hi).
    rewrite !lookup_Sum by (rewrite ?Hlen; exact Hi). rewrite Hiv by exact Hi. auto.
  - split; [rewrite length_map, length_Sum; reflexivity|].
    intros i Hi.
    rewrite lookup_total_map_R by (rewrite length_Sum; exact Hi).
    rewrite !lookup_Sum by (rewrite ?Hlen; exact Hi). rewrite Hiv by exact Hi. auto.
  - split; [rewrite length_Sum; reflexivity|].
    intros i Hi. rewrite !lookup_Sum_silent by assumption.
    rewrite Hiv by exact Hi. auto.
  - split; [reflexivity|]. intros i Hi. rewrite Hiv by exact Hi. auto.
Qed.

Lemma doMonteCarlo_keeps (p : Setup) (net : Net) (s : State) :
  scale_ (doMonteCarlo p net s) = scale_ s /\
  ovmd_ (doMonteCarlo p net s) = ovmd_ s.
Proof.
  unfold doMonteCarlo. cbn [RandU01].
  destruct (do_sample p).
  - destruct (fold_left _ _ _) as [[oe ne] ns].
    destruct (doAccept p oe ne _) as [[|] r];
      destruct (no_aver_ p && (rank_ p =? 0)%nat); split; reflexivity.
  - destruct (no_aver_ p && (rank_ p =? 0)%nat); split; reflexivity.
Qed.

(** The scale factor and the score that [calculate_sigma] leaves, in terms
    of what the head of the function gathered. *)
Lemma calculate_sigma_unfold (p : Setup) (h : Host) (net : Net) (s : State) :
  let '(ovmd, inv_s2) := gather_sigma p net s in
  let scale :=
    if regression_due p h
    then if no_weights_ p then doRegression p ovmd
         else doRegression_weighted p ovmd inv_s2
    else scale_ s in
  scale_ (fst (calculate_sigma p h net s)) = scale /\
  snd (calculate_sigma p h net s)
  = for_sum (length ovmd) (fun i =>
      (scale * ovmd !!! i - ovdd_ p !!! i)
      * (scale * ovmd !!! i - ovdd_ p !!! i) * inv_s2 !!! i) * (0.5 * kbt_ p).
Proof.
  unfold calculate_sigma.
  destruct (gather_sigma p net s) as [ovmd inv_s2].
  cbn zeta. split; [|reflexivity].
  cbn [fst].
  set (s1 := with_overlaps s ovmd _).
  assert (H1 : scale_ s1 = if regression_due p h
                           then if no_weights_ p then doRegression p ovmd
                                else doRegression_weighted p ovmd inv_s2
                           else scale_ s) by reflexivity.
  destruct (_ && _ && _).
  - destruct (doMonteCarlo_keeps p net s1) as [Hk _].
    destruct (_ && _); [unfold with_MCfirst; cbn [scale_]|];
      rewrite Hk; exact H1.
  - destruct (_ && _); [unfold with_MCfirst; cbn [scale_]|]; exact H1.
Qed.

End Gather.

(* --------------------------------------------------------------------- *)
(** ** Regression *)
(* --------------------------------------------------------------------- *)

Section Regression.
Import EMMI.
Local Open Scope R_scope.

Lemma silent_nil : silent [].
Proof. intros i. rewrite lookup_total_nth. destruct i; reflexivity. Qed.

Lemma regression_branches (Bn Bd : R) :
  ((Bd <= 0 \/ Bn <= 0) -> (if Rleb Bd 0 || Rleb Bn 0 then 1 else Bn / Bd) = 1) /\
  (0 < Bd -> 0 < Bn -> (if Rleb Bd 0 || Rleb Bn 0 then 1 else Bn / Bd) = Bn / Bd).
Proof.
  split.
  - intros [H|H].
    + rewrite (proj2 (Rleb_true Bd 0)) by exact H. reflexivity.
    + rewrite (proj2 (Rleb_true Bn 0)) by exact H.
      rewrite orb_true_r. reflexivity.
  - intros Hd Hn.
    rewrite (proj2 (Rleb_false Bd 0)), (proj2 (Rleb_false Bn 0)) by assumption.
    reflexivity.
Qed.

(** What the regression of [calculate_sigma] computes on the leader. *)
Lemma calculate_sigma_scale (p : Setup) (h : Host) (net : Net) (s : State) :
  rank_ p = 0%nat -> silent (co_ovmd net) -> silent (co_inv_s2 net) ->
  regression_due p h = true ->
  let n := length (ovmd_ s) in
  let w := fun i => if no_weights_ p then 1 else weight p net s i in
  let Bn := for_sum n (fun i => overlap_mean p net s i * ovdd_ p !!! i * w i) in
  let Bd := for_sum n (fun i => overlap_mean p net s i * overlap_mean p net s i * w i) in
  scale_ (fst (calculate_sigma p h net s))
  = if Rleb Bd 0 || Rleb Bn 0 then 1 else Bn / Bd.
Proof.
  intros Hr Hso Hsi Hdue n w Bn Bd.
  pose proof (calculate_sigma_unfold p h net s) as U.
  pose proof (gather_sigma_leader p net s Hr Hso Hsi) as G.
  destruct (gather_sigma p net s) as [ovmd inv_s2].
  destruct U as [U _]. destruct G as [Gl G]. rewrite U, Hdue.
  subst Bn Bd w n. destruct (no_weights_ p).
  - unfold doRegression. cbv zeta. rewrite Gl.
    rewrite (for_sum_ext _ (fun i => ovmd !!! i * ovdd_ p !!! i)
                           (fun i => overlap_mean p net s i * ovdd_ p !!! i * 1)),
      (for_sum_ext _ (fun i => ovmd !!! i * ovmd !!! i)
                     (fun i => overlap_mean p net s i * overlap_mean p net s i * 1)).
    + reflexivity.
    + intros i Hi. destruct (G i Hi) as [-> _]. ring.
    + intros i Hi. destruct (G i Hi) as [-> _]. ring.
  - unfold doRegression_weighted. cbv zeta. rewrite Gl.
    rewrite (for_sum_ext _ (fun i => ovmd !!! i * ovdd_ p !!! i * inv_s2 !!! i)
                           (fun i => overlap_mean p net s i * ovdd_ p !!! i
                                     * weight p net s i)),
      (for_sum_ext _ (fun i => ovmd !!! i * ovmd !!! i * inv_s2 !!! i)
                     (fun i => overlap_mean p net s i * overlap_mean p net s i
                               * weight p net s i)).
    + reflexivity.
    + intros i Hi. destruct (G i Hi) as [-> ->]. reflexivity.
    + intros i Hi. destruct (G i Hi) as [-> ->]. reflexivity.
Qed.

(** C6 (amended). On the leader, when the regression is due, [scale_]
    becomes Bn/Bd with Bn the sum of modelOverlap*dataOverlap*w and Bd the
    sum of modelOverlap*modelOverlap*w, and 1 exactly when Bd or Bn is not
    positive; data overlaps three times the model overlaps give 3.  The
    weight [w] is 1 without weights; with weights it is
    1/(sigmaMean^2+sigma^2) when the replicas are not averaged, and that
    quantity summed over the replicas when they are. *)
Theorem regression_fit (p : Setup) (h : Host) (net : Net) (s : State) :
  rank_ p = 0%nat -> silent (co_ovmd net) -> silent (co_inv_s2 net) ->
  regression_due p h = true ->
  let n := length (ovmd_ s) in
  let m := overlap_mean p net s in
  let d := fun i => ovdd_ p !!! i in
  let w := fun i => if no_weights_ p then 1 else weight p net s i in
  let Bn := for_sum n (fun i => m i * d i * w i) in
  let Bd := for_sum n (fun i => m i * m i * w i) in
  let scale := scale_ (fst (calculate_sigma p h net s)) in
  (Bd <= 0 \/ Bn <= 0 -> scale = 1) /\
  (0 < Bd -> 0 < Bn -> scale = Bn / Bd) /\
  (0 < Bd -> 0 < Bn -> (forall i, (i < n)%nat -> d i = 3 * m i) -> scale = 3) /\
  (forall i,
     weight p net s i
     = if averaging p
       then 1 / (sigma_mean_ p !!! i * sigma_mean_ p !!! i
                 + sigma_ s !!! i * sigma_ s !!! i) + ms_inv_s2 net !!! i
       else 1 / (sigma_mean_ p !!! i * sigma_mean_ p !!! i
                 + sigma_ s !!! i * sigma_ s !!! i)).
Proof.
  intros Hr Hso Hsi Hdue n m d w Bn Bd scale.
  assert (Hs : scale = if Rleb Bd 0 || Rleb Bn 0 then 1 else Bn / Bd)
    by (apply calculate_sigma_scale; assumption).
  destruct (regression_branches Bn Bd) as [F1 F2].
  split; [intros H; rewrite Hs; apply F1; exact H|].
  split; [intros H1 H2; rewrite Hs; apply F2; assumption|].
  split.
  - intros Hd Hn H3. rewrite Hs, F2 by assumption.
    assert (E : Bn = 3 * Bd).
    { subst Bn Bd. rewrite <- for_sum_scal. apply for_sum_ext.
      intros i Hi. rewrite (H3 i Hi). ring. }
    rewrite E. field. lra.
  - intros i. unfold weight, inv_variance.
    destruct (averaging p); f_equal; lra.
Qed.

Lemma for_sum_2 (f : nat -> R) : for_sum 2 f = 0 + f 0%nat + f 1%nat.
Proof. reflexivity. Qed.

Lemma regression_due_of_two : regression_due leader_of_two step_0 = true.
Proof. reflexivity. Qed.

Lemma scale_of_two :
  scale_ (fst (calculate_sigma leader_of_two step_0 net_of_two state_of_two))
  = 12 / 7.
Proof.
  rewrite calculate_sigma_scale;
    [|reflexivity|apply silent_nil|apply silent_nil|apply regression_due_of_two].
  rewrite !for_sum_2.
  unfold overlap_mean, weight, inv_variance, averaging. cbn.
  assert (E1 : 0 + (1 + 1) * (1.0 / (1 + 1)) * 1 * (1.0 / (0 * 0 + 1 * 1) + 1)
               + (1 + 1) * (1.0 / (1 + 1)) * 2 * (1.0 / (0 * 0 + 1 * 1) + 4) = 12)
    by (field_simplify; lra).
  assert (E2 : 0 + (1 + 1) * (1.0 / (1 + 1)) * ((1 + 1) * (1.0 / (1 + 1)))
                   * (1.0 / (0 * 0 + 1 * 1) + 1)
               + (1 + 1) * (1.0 / (1 + 1)) * ((1 + 1) * (1.0 / (1 + 1)))
                 * (1.0 / (0 * 0 + 1 * 1) + 4) = 7)
    by (field_simplify; lra).
  rewrite E1, E2. rbool. reflexivity.
Qed.

(** C6 (counterexample). Two averaged replicas, two components, model
    overlaps [[1; 1]], data overlaps [[1; 2]], inverse variances [[1; 1]] on
    this replica and [[1; 4]] on the other: the weighted regression leaves
    12/7, and the quotient with w = 1/(sigmaMean^2+sigma^2) is 3/2. *)
Lemma regression_weight_two_replicas :
  let p := leader_of_two in
  let s := state_of_two in
  let w := fun i => 1 / (sigma_mean_ p !!! i * sigma_mean_ p !!! i
                         + sigma_ s !!! i * sigma_ s !!! i) in
  let m := fun i => overlap_mean p net_of_two s i in
  let Bn := for_sum 2 (fun i => m i * ovdd_ p !!! i * w i) in
  let Bd := for_sum 2 (fun i => m i * m i * w i) in
  0 < Bn /\ 0 < Bd /\ Bn / Bd = 3 / 2 /\
  scale_ (fst (calculate_sigma p step_0 net_of_two s)) = 12 / 7 /\
  scale_ (fst (calculate_sigma p step_0 net_of_two s)) <> Bn / Bd.
Proof.
  intros p s w m Bn Bd.
  assert (En : Bn = 3).
  { subst Bn m w p s. rewrite for_sum_2. unfold overlap_mean, averaging. cbn.
    field_simplify; lra. }
  assert (Ed : Bd = 2).
  { subst Bd m w p s. rewrite for_sum_2. unfold overlap_mean, averaging. cbn.
    field_simplify; lra. }
  rewrite En, Ed. subst p s. rewrite scale_of_two.
  repeat split; lra.
Qed.

Lemma regression_fit_witness :
  scale_ (fst (calculate_sigma leader_of_two step_0 net_of_two state_of_two))
  = for_sum 2 (fun i => overlap_mean leader_of_two net_of_two state_of_two i
                        * ovdd_ leader_of_two !!! i
                        * weight leader_of_two net_of_two state_of_two i)
    / for_sum 2 (fun i => overlap_mean leader_of_two net_of_two state_of_two i
                          * overlap_mean leader_of_two net_of_two state_of_two i
                          * weight leader_of_two net_of_two state_of_two i).
Proof.
  destruct (regression_fit leader_of_two step_0 net_of_two state_of_two
              (eq_refl : rank_ leader_of_two = 0%nat) silent_nil silent_nil
              regression_due_of_two) as (_ & H & _).
  apply H.
  - rewrite for_sum_2. unfold overlap_mean, weight, inv_variance, averaging. cbn.
    match goal with |- 0 < ?e => replace e with 7 by (field_simplify; lra) end. lra.
  - rewrite for_sum_2. unfold overlap_mean, weight, inv_variance, averaging. cbn.
    match goal with |- 0 < ?e => replace e with 12 by (field_simplify; lra) end. lra.
Defined.

End Regression.

(* --------------------------------------------------------------------- *)
(** ** The sampled score *)
(* --------------------------------------------------------------------- *)

Section SampledScore.
Import EMMI.
Local Open Scope R_scope.

Lemma calculate_sigma_score (p : Setup) (h : Host) (net : Net) (s : State) :
  rank_ p = 0%nat -> silent (co_ovmd net) -> silent (co_inv_s2 net) ->
  let scale := scale_ (fst (calculate_sigma p h net s)) in
  snd (calculate_sigma p h net s)
  = 0.5 * kbt_ p
    * for_sum (length (ovmd_ s)) (fun i =>
        (scale * overlap_mean p net s i - ovdd_ p !!! i)
        * (scale * overlap_mean p net s i - ovdd_ p !!! i) * weight p net s i).
Proof.
  intros Hr Hso Hsi scale. subst scale.
  pose proof (calculate_sigma_unfold p h net s) as U.
  pose proof (gather_sigma_leader p net s Hr Hso Hsi) as G.
  destruct (gather_sigma p net s) as [ovmd inv_s2].
  destruct U as [U1 U2]. destruct G as [Gl G].
  rewrite U2, U1, Gl, Rmult_comm. f_equal.
  apply for_sum_ext. intros i Hi. destruct (G i Hi) as [-> ->]. reflexivity.
Qed.

Lemma calculate_sigma_prior (p : Setup) (h : Host) (net : Net) (s : State)
    (prior : R) :
  snd (calculate_sigma (with_prior p prior) h net s)
  = snd (calculate_sigma p h net s).
Proof.
  pose proof (calculate_sigma_unfold p h net s) as U.
  pose proof (calculate_sigma_unfold (with_prior p prior) h net s) as U'.
  change (gather_sigma (with_prior p prior) net s)
    with (gather_sigma p net s) in U'.
  destruct (gather_sigma p net s) as [ovmd inv_s2].
  destruct U as [_ U]. destruct U' as [_ U']. rewrite U, U'. reflexivity.
Qed.

(** C3 (amended). On the leader the reported score is
    1/2 kT sum_i (scale*modelOverlap_i - dataOverlap_i)^2 * w_i, where
    without replica averaging w_i = 1/(sigmaMean_i^2+sigma_i^2), so that
    the score is the one of the claim, and with replica averaging w_i is
    that quantity summed over the replicas; the prior exponent does not
    enter the score, while both energies that the Monte Carlo move
    compares are sums of [mc_energy], which carries the term
    kT*prior*log(sigmaMean^2+sigma^2). *)
Theorem sampled_score (p : Setup) (h : Host) (net : Net) (s : State) :
  rank_ p = 0%nat -> silent (co_ovmd net) -> silent (co_inv_s2 net) ->
  let n := length (ovmd_ s) in
  let scale := scale_ (fst (calculate_sigma p h net s)) in
  let score := snd (calculate_sigma p h net s) in
  score = 0.5 * kbt_ p
          * for_sum n (fun i =>
              (scale * overlap_mean p net s i - ovdd_ p !!! i)
              * (scale * overlap_mean p net s i - ovdd_ p !!! i)
              * weight p net s i) /\
  (averaging p = false ->
   score = 0.5 * kbt_ p
           * for_sum n (fun i =>
               (scale * ovmd_ s !!! i - ovdd_ p !!! i)
               * (scale * ovmd_ s !!! i - ovdd_ p !!! i)
               / (sigma_mean_ p !!! i * sigma_mean_ p !!! i
                  + sigma_ s !!! i * sigma_ s !!! i))) /\
  (forall prior, snd (calculate_sigma (with_prior p prior) h net s) = score) /\
  (forall shift neigh,
     fst (fold_left (cluster_step p s shift) neigh (0.0, 0.0, []))
     = (0.0 + accumulate (map (fun i => mc_energy p s i (sigma_ s !!! i)) neigh),
        0.0 + accumulate (map (fun i => mc_energy p s i (proposal p s shift i)) neigh))).
Proof.
  intros Hr Hso Hsi n scale score.
  assert (H1 := calculate_sigma_score p h net s Hr Hso Hsi).
  cbv zeta in H1. fold scale score n in H1.
  split; [exact H1|]. split; [|split].
  - intros Ha. rewrite H1. f_equal. apply for_sum_ext. intros i Hi.
    unfold overlap_mean, weight, inv_variance. rewrite Ha.
    replace 1.0 with 1 by lra. unfold Rdiv. ring.
  - intros prior. apply calculate_sigma_prior.
  - intros shift neigh. rewrite cluster_fold. reflexivity.
Qed.

Lemma sampled_score_witness :
  snd (calculate_sigma leader_of_two step_0 net_of_two state_of_two)
  = 0.5 * kbt_ leader_of_two
    * for_sum 2 (fun i =>
        (12 / 7 * overlap_mean leader_of_two net_of_two state_of_two i
         - ovdd_ leader_of_two !!! i)
        * (12 / 7 * overlap_mean leader_of_two net_of_two state_of_two i
           - ovdd_ leader_of_two !!! i)
        * weight leader_of_two net_of_two state_of_two i).
Proof.
  rewrite <- scale_of_two.
  apply (sampled_score leader_of_two step_0 net_of_two state_of_two
           (eq_refl : rank_ leader_of_two = 0%nat) silent_nil silent_nil).
Defined.

(** C3 (counterexample). For the leader of two averaged replicas the
    reported score is 5/7, and the expression of the claim, with
    1/(sigmaMean^2+sigma^2) of this replica, is 29/98. *)
Lemma sampled_score_two_replicas :
  let p := leader_of_two in
  let s := state_of_two in
  let scale := scale_ (fst (calculate_sigma p step_0 net_of_two s)) in
  let m := fun i => overlap_mean p net_of_two s i in
  let claimed :=
    0.5 * kbt_ p
    * for_sum 2 (fun i =>
        (scale * m i - ovdd_ p !!! i) * (scale * m i - ovdd_ p !!! i)
        / (sigma_mean_ p !!! i * sigma_mean_ p !!! i
           + sigma_ s !!! i * sigma_ s !!! i)) in
  snd (calculate_sigma p step_0 net_of_two s) = 5 / 7 /\
  claimed = 29 / 98 /\
  snd (calculate_sigma p step_0 net_of_two s) <> claimed.
Proof.
  intros p s scale m claimed.
  assert (Hc : claimed = 29 / 98).
  { subst claimed scale m p s. rewrite scale_of_two, for_sum_2.
    unfold overlap_mean, averaging. cbn. field_simplify; lra. }
  assert (Hs : snd (calculate_sigma p step_0 net_of_two s) = 5 / 7).
  { subst p s. rewrite calculate_sigma_score;
      [|reflexivity|apply silent_nil|apply silent_nil].
    rewrite scale_of_two, for_sum_2.
    unfold overlap_mean, weight, inv_variance, averaging. cbn.
    field_simplify; lra. }
  rewrite Hs, Hc. repeat split; lra.
Qed.

End SampledScore.

(* --------------------------------------------------------------------- *)
(** ** Self overlaps of the data GMM *)
(* --------------------------------------------------------------------- *)

Section SelfOverlap.
Import EMMI.
Local Open Scope R_scope.

Lemma cfact_pos : 0 < cfact_.
Proof.
  unfold cfact_. apply Rdiv_lt_0_compat; [lra|].
  unfold Rpower. apply exp_pos.
Qed.

Lemma Rinv_nonneg (x : R) : 0 <= x -> 0 <= / x.
Proof.
  intros [H|H].
  - left. apply Rinv_0_lt_compat. exact H.
  - rewrite <- H, Rinv_0. lra.
Qed.

Lemma get_overlap_value (pbc_ : bool) (h : Host) (m_m d_m : Vector) (pre : R)
    (inv : VectorGeneric6) :
  fst (get_overlap pbc_ h m_m d_m pre inv)
  = pre * exp (- 0.5 * fst (fst (fst (quadratic_form
                                        (displacement pbc_ h m_m d_m) inv)))).
Proof. reflexivity. Qed.

Lemma get_self_overlap_sum (pbc_ : bool) (h : Host) (d : GMMdata) (id : nat) :
  get_self_overlap pbc_ h d id
  = for_sum (length (GMM_d_m_ d)) (fun i =>
      pair_prefactor d id i * exp (- 0.5 * pair_form pbc_ h d id i)).
Proof. reflexivity. Qed.

Lemma pair_prefactor_nonneg (d : GMMdata) (id i : nat) :
  Forall (fun w => 0 <= w) (GMM_d_w_ d) -> 0 <= pair_prefactor d id i.
Proof.
  intros Hw. unfold pair_prefactor, get_prefactor_inverse. cbn [fst].
  assert (Hl : forall k, 0 <= GMM_d_w_ d !!! k).
  { intros k. rewrite lookup_total_nth.
    destruct (Nat.lt_ge_cases k (length (GMM_d_w_ d))) as [Hk|Hk].
    - rewrite Forall_forall in Hw. apply Hw. apply list_elem_of_In.
      apply nth_In. exact Hk.
    - rewrite nth_overflow by exact Hk. change (0 <= 0). lra. }
  pose proof cfact_pos as Hc.
  assert (Hi : 0 <= / sqrt (det3 (V6plus (GMM_d_cov_ d !!! id) (GMM_d_cov_ d !!! i))))
    by (apply Rinv_nonneg, sqrt_pos).
  unfold Rdiv. apply Rmult_le_pos; [apply Rmult_le_pos|apply Hl].
  - apply Rmult_le_pos; [lra|exact Hi].
  - apply Hl.
Qed.

Lemma get_self_overlap_nonneg (pbc_ : bool) (h : Host) (d : GMMdata) (id : nat) :
  Forall (fun w => 0 <= w) (GMM_d_w_ d) -> 0 <= get_self_overlap pbc_ h d id.
Proof.
  intros Hw. rewrite get_self_overlap_sum. apply for_sum_nonneg.
  intros i _. apply Rmult_le_pos.
  - apply pair_prefactor_nonneg. exact Hw.
  - left. apply exp_pos.
Qed.

Lemma quadratic_form_zero (inv : VectorGeneric6) :
  fst (fst (fst (quadratic_form (mkVector 0 0 0) inv))) = 0.
Proof. unfold quadratic_form. cbn. ring. Qed.

Lemma delta_self (m : Vector) : delta m m = mkVector 0 0 0.
Proof. unfold delta, Vminus. cbn. f_equal; ring. Qed.

Lemma get_self_overlap_single (pbc_ : bool) (h : Host) (d : GMMdata) :
  (pbc_ = true -> forall m, pbcDistance h m m = mkVector 0 0 0) ->
  length (GMM_d_m_ d) = 1%nat ->
  get_self_overlap pbc_ h d 0 = pair_prefactor d 0 0.
Proof.
  intros Hpbc Hlen. rewrite get_self_overlap_sum, Hlen.
  unfold for_sum. cbn [seq fold_left].
  assert (E : pair_form pbc_ h d 0 0 = 0).
  { unfold pair_form, displacement. destruct pbc_.
    - rewrite Hpbc by reflexivity. apply quadratic_form_zero.
    - rewrite delta_self. apply quadratic_form_zero. }
  rewrite E, Rmult_0_r, exp_0. ring.
Qed.

End SelfOverlap.


(* --------------------------------------------------------------------- *)
(** ** The constructor *)
(* --------------------------------------------------------------------- *)

Section Constructor.
Import EMMI.
Local Open Scope R_scope.

Lemma get_GMM_d_rows_spec (rows : list GMMrow) :
  forall d0 d,
    get_GMM_d_rows rows d0 = Done d ->
    Forall good_row rows /\
    d = mkGMM (GMM_d_m_ d0 ++ map (fun r => mkVector (Mean_0 r) (Mean_1 r) (Mean_2 r)) rows)
              (GMM_d_w_ d0 ++ map Weight rows)
              (GMM_d_cov_ d0 ++ map Cov rows)
              (GMM_d_beta_ d0 ++ map Beta rows).
Proof.
  induction rows as [|r rows IH]; intros d0 d H.
  - cbn in H. inversion H; subst. split; [constructor|].
    destruct d. cbn. rewrite !app_nil_r. reflexivity.
  - cbn [get_GMM_d_rows] in H. unfold bind in H.
    destruct (check_GMM_d (Cov r) (Weight r)) as [[]|msg] eqn:Ec; [|discriminate].
    destruct (negb (Beta r =? 0)%Z && negb (Beta r =? 1)%Z) eqn:Eb; [discriminate|].
    apply IH in H. destruct H as [HF ->]. cbn [GMM_d_m_ GMM_d_w_ GMM_d_cov_ GMM_d_beta_].
    split.
    + constructor; [|exact HF]. split; [exact Ec|].
      destruct (Z.eqb_spec (Beta r) 0); [auto|].
      destruct (Z.eqb_spec (Beta r) 1); [auto|discriminate].
    + rewrite <- !app_assoc. reflexivity.
Qed.

Lemma good_row_weight (r : GMMrow) : good_row r -> 0 <= Weight r.
Proof.
  intros [H _]. unfold check_GMM_d in H.
  destruct (_ || _); [discriminate|].
  destruct (Rltb (Weight r) 0) eqn:E; [discriminate|].
  apply Rltb_false in E. exact E.
Qed.

(** What a successful [get_GMM_d] returns. *)
Lemma get_GMM_d_spec (file : option (list GMMrow)) (d : GMMdata) :
  get_GMM_d file = Done d ->
  exists rows, file = Some rows /\ Forall good_row rows /\
    length (GMM_d_m_ d) = length rows /\
    GMM_d_w_ d = map Weight rows /\ GMM_d_beta_ d = map Beta rows.
Proof.
  destruct file as [rows|]; [|discriminate]. cbn. intros H.
  apply get_GMM_d_rows_spec in H. destruct H as [HF ->]. cbn.
  exists rows. rewrite length_map. auto.
Qed.

Lemma length_read_status (file : option (list StatusRecord)) (sigma sigma' : list R) :
  read_status file sigma = Done sigma' -> length sigma' = length sigma.
Proof.
  destruct file as [records|]; [|discriminate]. cbn. intros H.
  inversion H; subst; clear H. revert sigma.
  induction records as [|r records IH]; intros sigma; [reflexivity|].
  cbn [fold_left]. rewrite IH, length_map, length_seq. reflexivity.
Qed.

(** What a constructor that has gone through has passed: [s'] is the
    state before the status file is looked at. *)
Lemma EMMI_new_inv (kw : Keywords) (pr : Process) (h : Host) (p : Setup) (s : State) :
  EMMI_new kw pr h = Done (p, s) ->
  exists ty w d e s',
    keyword_checks kw = Done tt /\
    get_GMM_m (moldat pr) (ATOMS kw) = Done (ty, w) /\
    get_GMM_d (GMM_FILE pr) = Done d /\
    exp_errors kw = Done e /\
    EMMI_build kw pr h ty w d e = (p, s') /\
    s = with_sigma s' (sigma_ s) (MCaccept_ s') /\
    length (sigma_ s) = length (sigma_ s') /\
    (SAMPLING kw && getRestart pr = true ->
     read_status (STATUS_FILE pr) (sigma_ s') = Done (sigma_ s)) /\
    (SAMPLING kw && getRestart pr = false -> s = s').
Proof.
  unfold EMMI_new, bind. intros H.
  destruct (keyword_checks kw) as [[]|]; [|discriminate].
  destruct (get_GMM_m (moldat pr) (ATOMS kw)) as [[ty w]|]; [|discriminate].
  destruct (get_GMM_d (GMM_FILE pr)) as [d|]; [|discriminate].
  destruct (exp_errors kw) as [e|]; [|discriminate].
  cbn [fst snd] in H.
  destruct (EMMI_build kw pr h ty w d e) as [p' s'] eqn:Eb. cbn [fst snd] in H.
  exists ty, w, d, e, s'.
  do 4 (split; [reflexivity|]).
  destruct (SAMPLING kw && getRestart pr) eqn:Er.
  - destruct (read_status (STATUS_FILE pr) (sigma_ s')) as [sigma|] eqn:Es;
      [|discriminate].
    inversion H; subst; clear H. cbn [sigma_ with_sigma].
    split; [exact Eb|]. split; [reflexivity|].
    split; [apply length_read_status in Es; exact Es|].
    split; [intros _; reflexivity|discriminate].
  - inversion H; subst; clear H. cbn [sigma_ with_sigma].
    split; [exact Eb|]. split; [destruct s'; reflexivity|].
    split; [reflexivity|].
    split; [discriminate|]. intros _. destruct s'; reflexivity.
Qed.

(** The vectors left by "set sampling parameters", in closed form. *)
Lemma sampling_parameters_spec (do_sampling_ : bool) (exp_err : option (list R))
    (ovdd : list R) (betas : list Z) (smh smc ini base omax ds : R) (n : nat) :
  (forall i, (i < n)%nat -> betas !!! i = 0%Z \/ betas !!! i = 1%Z) ->
  let s0 := fun i => match exp_err with Some e => e !!! i | None => 0.0 end in
  let sm := fun i => (if (betas !!! i =? 1)%Z then smh else smc) * ovdd !!! i in
  let sp := sampling_parameters do_sampling_ exp_err ovdd betas smh smc ini base omax ds n in
  sp_sigma_mean sp = map sm (seq 0 n) /\
  if do_sampling_
  then sp_sigma_min sp = map s0 (seq 0 n) /\
       sp_sigma_max sp = map (fun i => 2.0 * omax + s0 i + ds) (seq 0 n) /\
       sp_sigma sp = map (fun i => Rmax (s0 i) (Rmin (2.0 * omax + s0 i + ds) (ini * base)))
                         (seq 0 n)
  else sp_sigma0 sp = map (fun i => sqrt (s0 i * s0 i + sm i * sm i)) (seq 0 n).
Proof.
  intros Hb s0 sm. unfold sampling_parameters.
  induction n as [|n IH].
  - cbn. destruct do_sampling_; auto.
  - rewrite seq_S, fold_left_app. cbn [fold_left Nat.add].
    destruct IH as [IH1 IH2]; [intros; apply Hb; lia|].
    set (a := fold_left _ (seq 0 n) _) in *.
    assert (Hsm : (if (betas !!! n =? 0)%Z
                   then (if (betas !!! n =? 1)%Z
                         then sp_sigma_mean a ++ [smh * ovdd !!! n]
                         else sp_sigma_mean a) ++ [smc * ovdd !!! n]
                   else (if (betas !!! n =? 1)%Z
                         then sp_sigma_mean a ++ [smh * ovdd !!! n]
                         else sp_sigma_mean a))
                  = map sm (seq 0 n) ++ [sm n]).
    { rewrite IH1. unfold sm.
      destruct (Hb n (Nat.lt_succ_diag_r n)) as [E|E]; rewrite E; reflexivity. }
    assert (Hn : forall f : nat -> R, (map f (seq 0 n) ++ [f n]) !!! n = f n).
    { intros f.
      pose proof (lookup_total_app_len (map f (seq 0 n)) (f n)) as Q.
      rewrite length_map, length_seq in Q. exact Q. }
    unfold sampling_step. fold s0.
    destruct do_sampling_; cbn [sp_sigma_mean sp_sigma_min sp_sigma_max sp_sigma sp_sigma0].
    + destruct IH2 as (I2 & I3 & I4). rewrite Hsm, I2, I3, I4.
      change (match exp_err with Some e => e !!! n | None => 0.0 end) with (s0 n).
      pose proof (Hn s0) as H1.
      pose proof (Hn (fun i => 2.0 * omax + s0 i + ds)) as H2. cbv beta in H2.
      rewrite H1, H2, !map_app. cbn [map]. auto.
    + change (match exp_err with Some e => e !!! n | None => 0.0 end) with (s0 n).
      rewrite Hsm, IH2, (Hn sm). rewrite !map_app. cbn [map]. auto.
Qed.

Lemma EMMI_build_fields (kw : Keywords) (pr : Process) (h : Host)
    (ty : list nat) (w : list R) (d : GMMdata) (e : option (list R))
    (p : Setup) (s : State) :
  EMMI_build kw pr h ty w d e = (p, s) ->
  GMM_d p = d /\ (rank_ p = comm_rank pr /\ random_ s = seed pr) /\
  (no_aver_ p = NO_AVER kw /\
   nrep_ p = (if NO_AVER kw then 1%nat else multi_sim_size pr) /\
   nregres_ p = REGRESSION kw) /\
  ovdd_ p = map (get_self_overlap (negb (NOPBC kw)) h d)
                (seq 0 (length (GMM_d_m_ d))) /\
  dsigma_ p = DSIGMA kw * sort (ovdd_ p) !!! (length (sort (ovdd_ p)) / 2)%nat /\
  (sigma_mean_ p, sigma_min_ p, sigma_max_ p, sigma_ s, sigma0_ p)
  = (let sp := sampling_parameters (SAMPLING kw) e (ovdd_ p)
                 (GMM_d_beta_ d) (SIGMA_MEAN_H kw) (SIGMA_MEAN_C kw) (SIGMA0 kw)
                 (sort (ovdd_ p) !!! (length (sort (ovdd_ p)) / 2)%nat)
                 (max_element (ovdd_ p)) (dsigma_ p) (length (GMM_d_m_ d)) in
     (sp_sigma_mean sp, sp_sigma_min sp, sp_sigma_max sp, sp_sigma sp, sp_sigma0 sp)).
Proof.
  unfold EMMI_build. intros H. apply pair_equal_spec in H as [<- <-].
  cbn [GMM_d rank_ no_aver_ ovdd_ dsigma_ sigma_mean_ sigma_min_ sigma_max_
       sigma_ sigma0_ random_ nrep_ nregres_].
  repeat split; reflexivity.
Qed.

End Constructor.
(* --------------------------------------------------------------------- *)
(** ** The self overlaps that the constructor stores *)
(* --------------------------------------------------------------------- *)

Section SelfOverlapStored.
Import EMMI.
Local Open Scope R_scope.




End SelfOverlapStored.


(* --------------------------------------------------------------------- *)
(** ** The marginal score *)
(* --------------------------------------------------------------------- *)

Section MarginalScore.
Import EMMI.
Local Open Scope R_scope.

(** The literal that the constructor stores in [inv_sqrt2_] is 1/sqrt(2)
    to the fifteen digits it is written with. *)
Lemma inv_sqrt2_literal_close :
  Rabs (inv_sqrt2_literal - inv_sqrt2_) < / 10 ^ 15.
Proof.
  unfold inv_sqrt2_literal, inv_sqrt2_.
  assert (H2 : 0 < sqrt 2) by (apply sqrt_lt_R0; lra).
  assert (Hx : 0 < / sqrt 2) by (apply Rinv_0_lt_compat; exact H2).
  assert (Hxx : / sqrt 2 * / sqrt 2 = / 2).
  { rewrite <- Rinv_mult, sqrt_sqrt by lra. reflexivity. }
  set (x := / sqrt 2) in *.
  assert (Hlo : 0.707106781186547 < x) by nra.
  assert (Hhi : x < 0.707106781186548) by nra.
  apply Rabs_def1; lra.
Qed.

Lemma good_rows_beta (rows : list GMMrow) (i : nat) :
  Forall good_row rows -> (i < length rows)%nat ->
  map Beta rows !!! i = 0%Z \/ map Beta rows !!! i = 1%Z.
Proof.
  intros HF Hi. rewrite lookup_total_nth.
  rewrite (nth_indep _ inhabitant (Beta (nth i rows (mkRow 0 0 0 0 0 unit_cov 0))))
    by (rewrite length_map; exact Hi).
  rewrite map_nth. rewrite Forall_forall in HF.
  apply HF. apply list_elem_of_In, nth_In. exact Hi.
Qed.

Lemma calculate_marginal_unfold (p : Setup) (h : Host) (net : Net) (s : State) :
  let ovmd := gather_marginal p net s in
  let scale := if regression_due p h then doRegression p ovmd else scale_ s in
  scale_ (fst (calculate_marginal p h net s)) = scale /\
  snd (calculate_marginal p h net s)
  = for_sum (length ovmd) (fun i =>
      - ln (0.5 / ((scale * ovmd !!! i - ovdd_ p !!! i) / sigma0_ p !!! i)
            * erf ((scale * ovmd !!! i - ovdd_ p !!! i) / sigma0_ p !!! i
                   * inv_sqrt2_)))
    * (kbt_ p / (1.0 / INR (nrep_ p))).
Proof. split; reflexivity. Qed.

(** C2. For a setup built in marginal mode, [sigma0_] holds
    sqrt(experimentalError^2 + sigmaMean^2) for every component, and,
    whenever no [dev] is zero, the reported score is kT/escale times the
    sum over the components of -log((1/(2 dev)) erf(dev/sqrt(2))), with
    dev = (scale*modelOverlap - dataOverlap)/sigma0 and escale = 1/nrep_
    the factor of the ensemble average. *)
Theorem marginal_score (kw : Keywords) (pr : Process) (h0 : Host)
    (p : Setup) (s0 : State) :
  EMMI_new kw pr h0 = Done (p, s0) ->
  SAMPLING kw = false ->
  (forall i, (i < length (GMM_d_m_ (GMM_d p)))%nat ->
     sigma0_ p !!! i
     = sqrt (exp_error kw i * exp_error kw i
             + sigma_mean_ p !!! i * sigma_mean_ p !!! i)) /\
  forall (h : Host) (net : Net) (s : State),
    let ovmd := gather_marginal p net s in
    let scale := scale_ (fst (calculate_marginal p h net s)) in
    let dev := fun i => (scale * ovmd !!! i - ovdd_ p !!! i) / sigma0_ p !!! i in
    let escale := 1 / INR (nrep_ p) in
    (forall i, (i < length ovmd)%nat -> dev i <> 0) ->
    snd (calculate_marginal p h net s)
    = kbt_ p / escale
      * for_sum (length ovmd) (fun i =>
          - ln (1 / (2 * dev i) * erf (dev i / sqrt 2))).
Proof.
  intros Hnew Hs. split.
  - apply EMMI_new_inv in Hnew.
    destruct Hnew as (ty & w & d & e & s' & _ & _ & Hd & He & Hb & _).
    apply get_GMM_d_spec in Hd. destruct Hd as (rows & _ & HF & Hlen & _ & Hbeta).
    apply EMMI_build_fields in Hb.
    destruct Hb as (Hp & _ & _ & _ & _ & Hsp).
    rewrite Hs in Hsp.
    pose proof (sampling_parameters_spec false e (ovdd_ p)
                  (GMM_d_beta_ d) (SIGMA_MEAN_H kw) (SIGMA_MEAN_C kw) (SIGMA0 kw)
                  (sort (ovdd_ p) !!! (length (sort (ovdd_ p)) / 2)%nat)
                  (max_element (ovdd_ p)) (dsigma_ p) (length (GMM_d_m_ d))) as S.
    cbv zeta in S, Hsp. destruct S as [S1 S2].
    { intros i Hi. rewrite Hbeta. apply good_rows_beta; [exact HF|lia]. }
    rewrite S1, S2 in Hsp.
    apply pair_equal_spec in Hsp as [Hsp E0].
    apply pair_equal_spec in Hsp as [Hsp _].
    apply pair_equal_spec in Hsp as [Hsp _].
    apply pair_equal_spec in Hsp as [Em _].
    intros i Hi. rewrite Hp in Hi. rewrite E0, Em.
    rewrite !lookup_total_map_seq by exact Hi.
    unfold exp_error. rewrite He. reflexivity.
  - intros h net s ovmd scale dev escale Hdev.
    destruct (calculate_marginal_unfold p h net s) as [U1 U2].
    cbv zeta in U1, U2. rewrite U2, <- U1. fold ovmd scale.
    rewrite Rmult_comm. unfold escale. f_equal.
    + replace 1.0 with 1 by lra. reflexivity.
    + apply for_sum_ext. intros i Hi. fold (dev i).
      replace 0.5 with (/ 2) by lra.
      replace (/ 2 / dev i) with (1 / (2 * dev i))
        by (field; apply Hdev; exact Hi).
      reflexivity.
Qed.

End MarginalScore.

(* --------------------------------------------------------------------- *)
(** ** The bounds of the uncertainties *)
(* --------------------------------------------------------------------- *)

Section SigmaBounds.
Import EMMI.
Local Open Scope R_scope.

Lemma lookup_total_nonneg (l : list R) (k : nat) :
  Forall (fun x => 0 <= x) l -> 0 <= l !!! k.
Proof.
  intros H. rewrite lookup_total_nth.
  destruct (Nat.lt_ge_cases k (length l)) as [Hk|Hk].
  - rewrite Forall_forall in H. apply H, list_elem_of_In, nth_In, Hk.
  - rewrite nth_overflow by exact Hk. change (0 <= 0). lra.
Qed.

Lemma Forall_insert_sorted (P : R -> Prop) (x : R) (l : list R) :
  P x -> Forall P l -> Forall P (insert_sorted x l).
Proof.
  intros Hx. induction 1 as [|y l Hy Hl IH]; cbn.
  - constructor; [exact Hx|constructor].
  - destruct (Rle_dec x y); repeat constructor; auto.
Qed.

Lemma Forall_sort (P : R -> Prop) (l : list R) :
  Forall P l -> Forall P (sort l).
Proof.
  induction 1 as [|x l Hx Hl IH]; cbn; [constructor|].
  apply Forall_insert_sorted; assumption.
Qed.

Lemma fold_left_Rmax_ge (l : list R) (x : R) : x <= fold_left Rmax l x.
Proof.
  revert x. induction l as [|y l IH]; intros x; cbn; [lra|].
  pose proof (IH (Rmax x y)). pose proof (Rmax_l x y). lra.
Qed.

Lemma max_element_nonneg (l : list R) :
  Forall (fun x => 0 <= x) l -> 0 <= max_element l.
Proof.
  destruct 1 as [|x l Hx Hl]; cbn; [lra|].
  pose proof (fold_left_Rmax_ge l x). lra.
Qed.

Lemma keyword_checks_dsigma (kw : Keywords) :
  keyword_checks kw = Done tt -> SAMPLING kw = true -> 0 <= DSIGMA kw.
Proof.
  unfold keyword_checks, bind. intros H Hs. rewrite Hs in H. cbn [andb] in H.
  destruct (Rleb (SIGMA0 kw) 0); [discriminate|].
  destruct (Rltb (DSIGMA kw) 0) eqn:E; [discriminate|].
  apply Rltb_false in E. exact E.
Qed.

(** Under the premises of the cluster move a proposal respects the
    bounds. *)
Lemma proposal_within (p : Setup) (s : State) (u : R) (i : nat) :
  wide_bounds p (length (sigma_ s)) -> within_bounds p (sigma_ s) ->
  0 <= u < 1 -> (i < length (sigma_ s))%nat ->
  sigma_min_ p !!! i <= proposal p s (dsigma_ p * (2.0 * u - 1.0)) i
                     <= sigma_max_ p !!! i.
Proof.
  intros [Hd Hw] Hin Hu Hi. unfold proposal.
  apply (check_boundaries_within _ _ _ _ (dsigma_ p)).
  - apply Hin. exact Hi.
  - apply Rabs_bound, shift_bounded; assumption.
  - apply Hw. exact Hi.
Qed.

Lemma within_bounds_ext (p : Setup) (a b : list R) :
  length a = length b -> (forall i, (i < length b)%nat -> a !!! i = b !!! i) ->
  within_bounds p b -> within_bounds p a.
Proof.
  intros Hl He Hb i Hi. rewrite Hl in Hi. rewrite He by exact Hi.
  apply Hb. exact Hi.
Qed.

(** One Monte Carlo step on the sampling worker keeps [sigma_] inside its
    bounds, whether the move is committed or not. *)
Lemma doMonteCarlo_within (p : Setup) (net : Net) (s : State) :
  do_sample p = true -> silent (ms_sigma net) -> unit_draws (random_ s) ->
  wide_bounds p (length (sigma_ s)) -> within_bounds p (sigma_ s) ->
  length (sigma_ (doMonteCarlo p net s)) = length (sigma_ s) /\
  within_bounds p (sigma_ (doMonteCarlo p net s)).
Proof.
  intros Hsample Hsil Hu Hw Hin.
  unfold doMonteCarlo. cbn [RandU01 draws cursor]. rewrite Hsample.
  set (u := draws (random_ s) (S (cursor (random_ s)))).
  assert (Hu1 : 0 <= u < 1) by (apply Hu; lia).
  set (neigh := MCneigh_ p !!! _).
  rewrite cluster_fold. cbn [app].
  set (shift := dsigma_ p * (2.0 * u - 1.0)).
  assert (Hc : length (commit neigh (map (proposal p s shift) neigh) (sigma_ s))
               = length (sigma_ s) /\
               within_bounds p (commit neigh (map (proposal p s shift) neigh) (sigma_ s))).
  { split; [apply length_commit|]. intros i Hi. rewrite length_commit in Hi.
    destruct (decide (i ∈ neigh)) as [I|I].
    - rewrite commit_proposals_in by assumption.
      apply proposal_within; assumption.
    - rewrite commit_proposals_out by assumption. apply Hin. exact Hi. }
  destruct Hc as [Hc1 Hc2].
  destruct (doAccept p _ _ _) as [[|] r'];
    destruct (no_aver_ p && (rank_ p =? 0)%nat);
    cbn [sigma_ with_sigma with_random]; rewrite ?length_Sum.
  - split; [exact Hc1|]. apply (within_bounds_ext p _ _ (length_Sum _ _)); [|exact Hc2].
    intros i Hi. apply lookup_Sum_silent. exact Hsil.
  - split; assumption.
  - split; [reflexivity|].
    apply (within_bounds_ext p _ _ (length_Sum _ _)); [|exact Hin].
    intros i Hi. apply lookup_Sum_silent. exact Hsil.
  - split; [reflexivity|assumption].
Qed.

(** What the constructor establishes in sampled mode. *)
Lemma EMMI_new_bounds (kw : Keywords) (pr : Process) (h0 : Host)
    (p : Setup) (s0 : State) :
  EMMI_new kw pr h0 = Done (p, s0) -> SAMPLING kw = true ->
  let n := length (GMM_d_m_ (GMM_d p)) in
  length (sigma_ s0) = n /\
  (getRestart pr = false -> within_bounds p (sigma_ s0)) /\
  wide_bounds p n /\
  (forall i, (i < n)%nat -> sigma_min_ p !!! i = exp_error kw i).
Proof.
  intros Hnew Hs n.
  apply EMMI_new_inv in Hnew.
  destruct Hnew as (ty & w0 & d & e & s' & Hk & _ & Hd & He & Hb & _ & Hls & _ & Hsame).
  apply get_GMM_d_spec in Hd. destruct Hd as (rows & _ & HF & Hlen & Hw & Hbeta).
  apply EMMI_build_fields in Hb.
  destruct Hb as (Hp & _ & _ & Hov & Hds & Hsp).
  rewrite Hs in Hsp. subst n. rewrite Hp.
  assert (Hnn : Forall (fun x => 0 <= x) (ovdd_ p)).
  { rewrite Hov. apply Forall_forall. intros x Hx.
    apply list_elem_of_In, in_map_iff in Hx. destruct Hx as [i [<- _]].
    apply get_self_overlap_nonneg. rewrite Hw.
    apply Forall_forall. intros w Hin.
    apply list_elem_of_In, in_map_iff in Hin. destruct Hin as [r [<- Hr]].
    apply good_row_weight. rewrite Forall_forall in HF.
    apply HF, list_elem_of_In, Hr. }
  assert (Hbase : 0 <= sort (ovdd_ p) !!! (length (sort (ovdd_ p)) / 2)%nat)
    by (apply lookup_total_nonneg, Forall_sort, Hnn).
  assert (Hmax : 0 <= max_element (ovdd_ p)) by (apply max_element_nonneg, Hnn).
  assert (Hdn : 0 <= dsigma_ p).
  { rewrite Hds. apply Rmult_le_pos; [|exact Hbase].
    apply keyword_checks_dsigma; assumption. }
  pose proof (sampling_parameters_spec true e (ovdd_ p)
                (GMM_d_beta_ d) (SIGMA_MEAN_H kw) (SIGMA_MEAN_C kw) (SIGMA0 kw)
                (sort (ovdd_ p) !!! (length (sort (ovdd_ p)) / 2)%nat)
                (max_element (ovdd_ p)) (dsigma_ p) (length (GMM_d_m_ d))) as S.
  cbv zeta in S, Hsp. destruct S as (_ & S2 & S3 & S4).
  { intros i Hi. rewrite Hbeta. apply good_rows_beta; [exact HF|lia]. }
  rewrite S2, S3, S4 in Hsp.
  apply pair_equal_spec in Hsp as [Hsp _].
  apply pair_equal_spec in Hsp as [Hsp Es].
  apply pair_equal_spec in Hsp as [Hsp Emax].
  apply pair_equal_spec in Hsp as [_ Emin].
  assert (Hl : length (sigma_ s') = length (GMM_d_m_ d))
    by (rewrite Es, length_map, length_seq; reflexivity).
  split; [rewrite Hls; exact Hl|]. split; [|split].
  - intros Hr. rewrite (Hsame ltac:(rewrite Hs, Hr; reflexivity)).
    intros i Hi. rewrite Hl in Hi. rewrite Es, Emin, Emax.
    rewrite !lookup_total_map_seq by exact Hi.
    set (lo := match e with Some e => e !!! i | None => 0.0 end).
    set (hi := 2.0 * max_element (ovdd_ p) + lo + dsigma_ p).
    split; [apply Rmax_l|].
    apply Rmax_lub; [unfold hi; lra|apply Rmin_l].
  - split; [exact Hdn|]. intros i Hi. rewrite Emin, Emax.
    rewrite !lookup_total_map_seq by exact Hi. lra.
  - intros i Hi. rewrite Emin, lookup_total_map_seq by exact Hi.
    unfold exp_error. rewrite He. reflexivity.
Qed.

(** C5 (amended). In sampled mode [sigma_] lies within
    [[sigma_min_, sigma_max_]], component by component, after the
    constructor (without restart: on a restart the uncertainties are what
    the status file holds) and after every Monte Carlo step of a sampling
    worker, committed or rejected. *)
Theorem sigma_within_bounds (kw : Keywords) (pr : Process) (h0 : Host)
    (p : Setup) (s0 : State) :
  EMMI_new kw pr h0 = Done (p, s0) ->
  SAMPLING kw = true ->
  let n := length (GMM_d_m_ (GMM_d p)) in
  (length (sigma_ s0) = n /\
   (getRestart pr = false -> within_bounds p (sigma_ s0))) /\
  forall (net : Net) (s : State),
    do_sample p = true -> silent (ms_sigma net) -> unit_draws (random_ s) ->
    length (sigma_ s) = n -> within_bounds p (sigma_ s) ->
    length (sigma_ (doMonteCarlo p net s)) = n /\
    within_bounds p (sigma_ (doMonteCarlo p net s)).
Proof.
  intros Hnew Hs n.
  destruct (EMMI_new_bounds kw pr h0 p s0 Hnew Hs) as (Hl & Hin & Hw & _).
  fold n in Hl, Hw. split; [split; assumption|].
  intros net s Hsample Hsil Hu Hls Hins.
  destruct (doMonteCarlo_within p net s) as [L W]; auto.
  - rewrite Hls. exact Hw.
  - rewrite L. auto.
Qed.

End SigmaBounds.

(* --------------------------------------------------------------------- *)
(** ** The constructor on explicit input *)
(* --------------------------------------------------------------------- *)

Section Instances.
Import EMMI.
Local Open Scope R_scope.

Lemma get_GMM_d_one_component :
  get_GMM_d (Some one_component) = Done one_component_data.
Proof.
  assert (H : check_GMM_d unit_cov 1 = Done tt).
  { unfold check_GMM_d, unit_cov. cbn. rbool. reflexivity. }
  unfold one_component. cbn -[check_GMM_d]. rewrite H. reflexivity.
Qed.

Lemma keyword_checks_sampling : keyword_checks sampling_kw = Done tt.
Proof.
  unfold keyword_checks, bind, sampling_kw.
  cbn [SAMPLING SIGMA0 DSIGMA MC_STRIDE MC_CUT NL_CUTOFF NL_STRIDE WRITE_STRIDE andb].
  rbool. reflexivity.
Qed.

Lemma keyword_checks_marginal : keyword_checks marginal_kw = Done tt.
Proof.
  unfold keyword_checks, bind, marginal_kw.
  cbn [SAMPLING SIGMA0 DSIGMA MC_STRIDE MC_CUT NL_CUTOFF NL_STRIDE WRITE_STRIDE andb].
  rbool. reflexivity.
Qed.

Lemma get_GMM_m_one_carbon :
  get_GMM_m one_carbon [0%nat] = Done (one_carbon_types, one_carbon_weights).
Proof. reflexivity. Qed.

Lemma exp_errors_sampling : exp_errors sampling_kw = Done unit_errors.
Proof. reflexivity. Qed.

Lemma exp_errors_marginal : exp_errors marginal_kw = Done unit_errors.
Proof. reflexivity. Qed.

Lemma EMMI_new_done (kw : Keywords) (pr : Process) (h : Host)
    (ty : list nat) (w : list R) (d : GMMdata) (e : option (list R)) :
  keyword_checks kw = Done tt ->
  get_GMM_m (moldat pr) (ATOMS kw) = Done (ty, w) ->
  get_GMM_d (GMM_FILE pr) = Done d ->
  exp_errors kw = Done e ->
  SAMPLING kw && getRestart pr = false ->
  EMMI_new kw pr h
  = Done (fst (EMMI_build kw pr h ty w d e), snd (EMMI_build kw pr h ty w d e)).
Proof.
  intros Hk Hm Hd He Hr. unfold EMMI_new. rewrite Hk, Hm, Hd, He, Hr.
  unfold bind. cbn [fst snd].
  destruct (EMMI_build kw pr h ty w d e) as [p s]. cbn [fst snd].
  destruct s; reflexivity.
Qed.

Lemma exp_error_one : exp_error sampling_kw 0 = 1.
Proof.
  unfold exp_error. rewrite exp_errors_sampling.
  unfold unit_errors, read_exp_errors. cbn [map]. cbn [lookup_total list_lookup_total].
  unfold for_sum. cbn [seq fold_left]. cbn [lookup_total list_lookup_total].
  replace ((0 + 1 * 1) / INR 1) with 1 by (cbn; field).
  apply sqrt_1.
Qed.

Lemma doMonteCarlo_idle (p : Setup) (net : Net) (s : State) :
  do_sample p = false -> no_aver_ p = false ->
  sigma_ (doMonteCarlo p net s) = map (fun _ => 0.0) (sigma_ s).
Proof.
  intros Hs Hn. unfold doMonteCarlo. cbn [RandU01]. rewrite Hs, Hn. reflexivity.
Qed.

End Instances.

Section ConstructorInstances.
Import EMMI.
Local Open Scope R_scope.

Lemma sigma_within_bounds_witness :
  exists p s0,
    EMMI_new sampling_kw first_worker step_0 = Done (p, s0) /\
    within_bounds p (sigma_ s0) /\
    within_bounds p (sigma_ (doMonteCarlo p quiet_net s0)).
Proof.
  pose proof (EMMI_new_done sampling_kw first_worker step_0 _ _ _ _
                keyword_checks_sampling get_GMM_m_one_carbon
                get_GMM_d_one_component exp_errors_sampling eq_refl) as E.
  set (b := EMMI_build sampling_kw first_worker step_0 one_carbon_types
                     one_carbon_weights one_component_data unit_errors) in *.
  exists (fst b), (snd b). split; [exact E|].
  destruct (sigma_within_bounds sampling_kw first_worker step_0 (fst b) (snd b)
              E eq_refl) as [[L W] MC].
  specialize (W eq_refl).
  split; [exact W|].
  destruct (EMMI_build_fields sampling_kw first_worker step_0 one_carbon_types
              one_carbon_weights one_component_data unit_errors
              (fst b) (snd b) (surjective_pairing b))
    as (_ & [Hr Hrnd] & [Hna _] & _).
  apply MC.
  - unfold do_sample. rewrite Hr, Hna. reflexivity.
  - apply silent_nil.
  - rewrite Hrnd. intros k _. cbn. lra.
  - exact L.
  - exact W.
Defined.

(** C5 (counterexample). Sampled mode with an experimental error of 1 for
    the single component, on the second worker of a replica: the
    constructor leaves [sigma_min_[0] = 1], and the first Monte Carlo step
    leaves [sigma_[0] = 0]. *)
Lemma sigma_zeroed_on_worker :
  exists p s0,
    EMMI_new sampling_kw second_worker step_0 = Done (p, s0) /\
    do_sample p = false /\
    sigma_min_ p !!! 0%nat = 1 /\
    sigma_ (doMonteCarlo p quiet_net s0) !!! 0%nat = 0 /\
    ~ within_bounds p (sigma_ (doMonteCarlo p quiet_net s0)).
Proof.
  pose proof (EMMI_new_done sampling_kw second_worker step_0 _ _ _ _
                keyword_checks_sampling get_GMM_m_one_carbon
                get_GMM_d_one_component exp_errors_sampling eq_refl) as E.
  set (b := EMMI_build sampling_kw second_worker step_0 one_carbon_types
                     one_carbon_weights one_component_data unit_errors) in *.
  exists (fst b), (snd b). split; [exact E|].
  destruct (EMMI_build_fields sampling_kw second_worker step_0 one_carbon_types
              one_carbon_weights one_component_data unit_errors
              (fst b) (snd b) (surjective_pairing b))
    as (Hd & [Hr _] & [Hna _] & _).
  destruct (EMMI_new_bounds sampling_kw second_worker step_0 (fst b) (snd b)
              E eq_refl) as (L & _ & _ & Hmin).
  rewrite Hd in L, Hmin. cbn [one_component_data GMM_d_m_ length] in L, Hmin.
  assert (Hs : do_sample (fst b) = false).
  { unfold do_sample. rewrite Hr, Hna. reflexivity. }
  assert (Hm : sigma_min_ (fst b) !!! 0%nat = 1).
  { rewrite Hmin by lia. apply exp_error_one. }
  assert (Hz : sigma_ (doMonteCarlo (fst b) quiet_net (snd b)) !!! 0%nat = 0).
  { rewrite doMonteCarlo_idle by (exact Hs || exact Hna).
    rewrite lookup_total_map_R by lia. lra. }
  split; [exact Hs|]. split; [exact Hm|]. split; [exact Hz|].
  intros W. specialize (W 0%nat).
  rewrite doMonteCarlo_idle, length_map in W by (exact Hs || exact Hna).
  rewrite <- (doMonteCarlo_idle (fst b) quiet_net (snd b) Hs Hna) in W.
  rewrite Hm, Hz in W. specialize (W ltac:(lia)). lra.
Qed.

Lemma exp_error_marginal : exp_error marginal_kw 0 = 1.
Proof. exact exp_error_one. Qed.

Lemma pair_prefactor_one_component :
  0 < pair_prefactor one_component_data 0 0.
Proof.
  unfold pair_prefactor, get_prefactor_inverse, one_component_data.
  cbn [fst GMM_d_cov_ GMM_d_w_]. cbn [lookup_total list_lookup_total].
  replace (det3 (V6plus unit_cov unit_cov)) with 8
    by (unfold det3, V6plus, unit_cov; cbn; ring).
  assert (0 < cfact_ / sqrt 8)
    by (apply Rdiv_lt_0_compat; [apply cfact_pos|apply sqrt_lt_R0; lra]).
  lra.
Qed.

Lemma marginal_score_witness :
  exists p s0,
    EMMI_new marginal_kw first_worker step_0 = Done (p, s0) /\
    sigma0_ p !!! 0%nat
    = sqrt (exp_error marginal_kw 0 * exp_error marginal_kw 0
            + sigma_mean_ p !!! 0%nat * sigma_mean_ p !!! 0%nat) /\
    snd (calculate_marginal p step_0 quiet_net far_state)
    = kbt_ p / (1 / INR (nrep_ p))
      * for_sum (length (gather_marginal p quiet_net far_state)) (fun i =>
          - ln (1 / (2 * ((scale_ (fst (calculate_marginal p step_0 quiet_net far_state))
                           * gather_marginal p quiet_net far_state !!! i
                           - ovdd_ p !!! i) / sigma0_ p !!! i))
                * erf ((scale_ (fst (calculate_marginal p step_0 quiet_net far_state))
                        * gather_marginal p quiet_net far_state !!! i
                        - ovdd_ p !!! i) / sigma0_ p !!! i / sqrt 2))).
Proof.
  pose proof (EMMI_new_done marginal_kw first_worker step_0 _ _ _ _
                keyword_checks_marginal get_GMM_m_one_carbon
                get_GMM_d_one_component exp_errors_marginal eq_refl) as E.
  set (b := EMMI_build marginal_kw first_worker step_0 one_carbon_types
                     one_carbon_weights one_component_data unit_errors) in *.
  exists (fst b), (snd b). split; [exact E|].
  destruct (marginal_score marginal_kw first_worker step_0 (fst b) (snd b)
              E eq_refl) as [H1 H2].
  destruct (EMMI_build_fields marginal_kw first_worker step_0 one_carbon_types
              one_carbon_weights one_component_data unit_errors
              (fst b) (snd b) (surjective_pairing b))
    as (Hd & _ & (Hna & Hnrep & Hnreg) & Hov & _).
  assert (H0 : sigma0_ (fst b) !!! 0%nat
               = sqrt (exp_error marginal_kw 0 * exp_error marginal_kw 0
                       + sigma_mean_ (fst b) !!! 0%nat * sigma_mean_ (fst b) !!! 0%nat)).
  { apply H1. rewrite Hd. cbn. lia. }
  split; [exact H0|].
  assert (G : gather_marginal (fst b) quiet_net far_state = [0]).
  { unfold gather_marginal. rewrite Hna, Hnrep. reflexivity. }
  apply H2. rewrite G. intros i Hi.
  assert (i = 0%nat) by (cbn in Hi; lia). subst i.
  destruct (calculate_marginal_unfold (fst b) step_0 quiet_net far_state) as [U _].
  cbv zeta in U. rewrite U.
  assert (Hdue : regression_due (fst b) step_0 = false).
  { unfold regression_due. rewrite Hnreg. reflexivity. }
  rewrite Hdue.
  assert (Hp : 0 < ovdd_ (fst b) !!! 0%nat).
  { rewrite Hov. rewrite lookup_total_map_seq by (cbn; lia).
    rewrite get_self_overlap_single;
      [apply pair_prefactor_one_component|discriminate|reflexivity]. }
  assert (Hs : 0 < sigma0_ (fst b) !!! 0%nat).
  { rewrite H0, exp_error_marginal. apply sqrt_lt_R0.
    pose proof (Rle_0_sqr (sigma_mean_ (fst b) !!! 0%nat)) as Hq.
    unfold Rsqr in Hq. lra. }
  change ([0] !!! 0%nat) with 0. change (scale_ far_state) with 1.
  intros Hdev.
  assert (Hneg : (1 * 0 - ovdd_ (fst b) !!! 0%nat) / sigma0_ (fst b) !!! 0%nat < 0).
  { apply Rmult_neg_pos; [lra|apply Rinv_0_lt_compat; exact Hs]. }
  lra.
Defined.

End ConstructorInstances.

(* --------------------------------------------------------------------- *)
(** ** The neighbor list *)
(* --------------------------------------------------------------------- *)

Section NeighborList.
Import EMMI.
Local Open Scope R_scope.

Lemma accumulate_nil : accumulate [] = 0.
Proof. reflexivity. Qed.

Lemma accumulate_app (l k : list R) :
  accumulate (l ++ k) = accumulate l + accumulate k.
Proof.
  unfold accumulate at 1. rewrite fold_left_app, fold_left_Rplus. reflexivity.
Qed.

Lemma accumulate_Permutation (l k : list R) :
  l ≡ₚ k -> accumulate l = accumulate k.
Proof.
  induction 1 as [|x l k _ IH|x y l|l k j _ IH1 _ IH2].
  - reflexivity.
  - rewrite !accumulate_cons, IH. reflexivity.
  - rewrite !accumulate_cons. lra.
  - congruence.
Qed.

Lemma accumulate_pos (l : list R) :
  Forall (fun x => 0 < x) l -> l <> [] -> 0 < accumulate l.
Proof.
  induction 1 as [|x l Hx Hl IH]; intros Hne; [contradiction|].
  rewrite accumulate_cons. destruct l as [|y l].
  - rewrite accumulate_nil. lra.
  - assert (0 < accumulate (y :: l)) by (apply IH; discriminate). lra.
Qed.

(** *** std::sort *)

Lemma insert_sorted_Permutation (x : R) (l : list R) :
  insert_sorted x l ≡ₚ x :: l.
Proof.
  induction l as [|y l IH]; cbn; [reflexivity|].
  destruct (Rle_dec x y); [reflexivity|].
  rewrite IH. apply Permutation_swap.
Qed.

Lemma sort_Permutation (l : list R) : sort l ≡ₚ l.
Proof.
  induction l as [|x l IH]; cbn; [reflexivity|].
  rewrite insert_sorted_Permutation, IH. reflexivity.
Qed.

Lemma insert_sorted_sorted (x : R) (l : list R) :
  StronglySorted Rle l -> StronglySorted Rle (insert_sorted x l).
Proof.
  induction 1 as [|y l Hs IH Hy]; cbn.
  - constructor; constructor.
  - destruct (Rle_dec x y) as [Hxy|Hxy].
    + constructor; [constructor; assumption|].
      constructor; [exact Hxy|].
      eapply Forall_impl; [exact Hy|]. intros z Hz. cbn in Hz. lra.
    + constructor; [exact IH|].
      rewrite insert_sorted_Permutation. constructor; [lra|exact Hy].
Qed.

Lemma sort_sorted (l : list R) : StronglySorted Rle (sort l).
Proof.
  induction l as [|x l IH]; cbn; [constructor|].
  apply insert_sorted_sorted. exact IH.
Qed.

(** *** std::map *)

Lemma keys_map_assign (k : R) (v : nat) (m : ov_map) :
  StronglySorted Rlt (keys m) ->
  StronglySorted Rlt (keys (map_assign k v m)) /\
  forall x, x ∈ keys (map_assign k v m) <-> x = k \/ x ∈ keys m.
Proof.
  unfold keys. induction m as [|[k' v'] m IH]; intros Hs; cbn.
  - split; [repeat constructor|]. intros x. rewrite list_elem_of_singleton.
    split; [auto|]. intros [?|H]; [assumption|inversion H].
  - apply StronglySorted_inv in Hs. cbn in Hs. destruct Hs as [Hs Hk'].
    destruct (Rlt_dec k k') as [H1|H1]; [|destruct (Rlt_dec k' k) as [H2|H2]]; cbn.
    + split.
      * constructor; [constructor; assumption|].
        constructor; [exact H1|].
        eapply Forall_impl; [exact Hk'|]. intros z Hz. cbn in Hz. lra.
      * intros x. rewrite !elem_of_cons. tauto.
    + destruct (IH Hs) as [IH1 IH2]. split.
      * constructor; [exact IH1|]. apply Forall_forall. intros z Hz.
        apply IH2 in Hz. destruct Hz as [->|Hz]; [exact H2|].
        rewrite Forall_forall in Hk'. apply Hk'. exact Hz.
      * intros x. rewrite !elem_of_cons, IH2. tauto.
    + assert (E : k = k') by lra. subst k'. split.
      * constructor; assumption.
      * intros x. rewrite !elem_of_cons. tauto.
Qed.

Lemma map_erase_head (k : R) (v : nat) (m : ov_map) :
  map_erase k ((k, v) :: m) = m.
Proof. cbn. destruct (Req_dec_T k k); [reflexivity|contradiction]. Qed.

(** Two atoms of the same overlap share one entry of the map, the one of
    the atom seen last; this is why the statements below are about
    candidates of pairwise different overlaps. *)
Example map_assign_same_key :
  map_assign 1 1%nat (map_assign 1 0%nat []) = [(1, 1%nat)].
Proof.
  cbn. destruct (Rlt_dec 1 1); [lra|]. reflexivity.
Qed.

(** *** The loops of [update_neighbor_list] *)

Lemma atom_step_collected (p : Setup) (h : Host) (id im : nat)
    (a : list R * ov_map * R) :
  collected a -> collected (atom_step p h id a im).
Proof.
  destruct a as [[ov_l ov_m] ov_tot]. intros (Ht & Hs & He).
  unfold atom_step. destruct (_ <=? _)%nat; [repeat split; auto; apply He|].
  set (ov := pre_fact_ p !!! _ * _).
  destruct (keys_map_assign ov im ov_m Hs) as [Hs' He'].
  split; [|split].
  - rewrite accumulate_app, accumulate_cons, accumulate_nil, Ht. lra.
  - exact Hs'.
  - intros x. rewrite He', elem_of_app, list_elem_of_singleton, He. tauto.
Qed.

Lemma candidates_collected (p : Setup) (h : Host) (id : nat) :
  collected (candidates p h id).
Proof.
  unfold candidates.
  assert (G : forall ims a, collected a ->
                collected (fold_left (atom_step p h id) ims a)).
  { induction ims as [|im ims IH]; intros a Ha; [exact Ha|].
    cbn. apply IH, atom_step_collected, Ha. }
  apply G. unfold collected. split; [rewrite accumulate_nil; lra|].
  split; [constructor|]. intros x. reflexivity.
Qed.

Lemma Rlt_sorted_Rle (l : list R) :
  StronglySorted Rlt l -> StronglySorted Rle l.
Proof.
  induction 1 as [|x l Hs IH Hx]; constructor; [exact IH|].
  eapply Forall_impl; [exact Hx|]. intros z Hz. cbn in Hz. lra.
Qed.

Lemma Rlt_sorted_NoDup (l : list R) : StronglySorted Rlt l -> NoDup l.
Proof.
  induction 1 as [|x l Hs IH Hx]; constructor; [|exact IH].
  intros Hin. rewrite Forall_forall in Hx. specialize (Hx x Hin). lra.
Qed.

#[local] Instance Rle_antisymm : AntiSymm eq Rle.
Proof. intros x y H1 H2. lra. Qed.

(** When no two candidates have the same overlap, the map lists the
    overlaps in the order in which [std::sort] leaves them. *)
Lemma keys_candidate_map (p : Setup) (h : Host) (id : nat) :
  NoDup (candidate_overlaps p h id) ->
  keys (candidate_map p h id) = sort (candidate_overlaps p h id).
Proof.
  unfold candidate_overlaps, candidate_map.
  pose proof (candidates_collected p h id) as C.
  destruct (candidates p h id) as [[ov_l ov_m] ov_tot]. cbn [fst snd].
  destruct C as (_ & Hs & He). intros Hnd.
  apply (StronglySorted_unique Rle).
  - apply Rlt_sorted_Rle, Hs.
  - apply sort_sorted.
  - rewrite sort_Permutation. apply NoDup_Permutation.
    + apply Rlt_sorted_NoDup, Hs.
    + exact Hnd.
    + exact He.
Qed.

(** "integrate ov_l" on a map whose keys are the sorted list: a prefix of
    the map is dropped, the sum of the dropped keys stays below the
    cutoff, and adding any remaining key to it reaches the cutoff. *)
Lemma integrate_prefix (cut : R) (m : ov_map) :
  forall res,
    StronglySorted Rlt (keys m) ->
    exists dropped,
      m = dropped ++ integrate (keys m) res cut m /\
      (dropped = [] \/ res + accumulate (keys dropped) < cut) /\
      forall x, x ∈ keys (integrate (keys m) res cut m) ->
                cut <= res + accumulate (keys dropped) + x.
Proof.
  induction m as [|[k v] m IH]; intros res Hs.
  - exists []. cbn. split; [reflexivity|]. split; [auto|].
    intros x Hx. inversion Hx.
  - cbn [keys map fst integrate].
    apply StronglySorted_inv in Hs. destruct Hs as [Hs Hk].
    fold (keys m) in Hs, Hk.
    destruct (Rle_dec cut (res + k)) as [Hc|Hc].
    + exists []. split; [reflexivity|]. split; [auto|].
      intros x Hx. change (keys []) with (@nil R). rewrite accumulate_nil.
      change (x ∈ k :: keys m) in Hx.
      apply elem_of_cons in Hx. destruct Hx as [->|Hx]; [lra|].
      rewrite Forall_forall in Hk. specialize (Hk x Hx). cbn [fst] in Hk. lra.
    + rewrite map_erase_head.
      destruct (IH (res + k) Hs) as (dropped & E & Hd & Hx).
      exists ((k, v) :: dropped). split; [cbn; f_equal; exact E|].
      split.
      * right. cbn [keys map fst]. rewrite accumulate_cons.
        destruct Hd as [->|Hd]; [change (map fst []) with (@nil R); rewrite accumulate_nil; lra|].
        fold (keys dropped). lra.
      * intros x Hin. specialize (Hx x Hin).
        cbn [keys map fst]. rewrite accumulate_cons. fold (keys dropped). lra.
Qed.

Lemma keys_app (a b : ov_map) : keys (a ++ b) = keys a ++ keys b.
Proof. apply map_app. Qed.

(** C1 (amended). After a rebuild with NL_CUTOFF in (0,1], for a data
    component whose candidate atoms have positive, pairwise different
    table-approximated overlaps, the atoms left out are the smallest
    contributors, the sum of their overlaps is below NL_CUTOFF times the
    total overlap of the candidates, so that the retained atoms carry more
    than (1 - NL_CUTOFF) times the total, and leaving out any further
    retained atom would bring the sum left out to NL_CUTOFF times the
    total or beyond. *)
Theorem neighbor_list_cutoff (p : Setup) (h : Host) (id : nat) :
  0 < nl_cutoff_ p <= 1 ->
  candidate_overlaps p h id <> [] ->
  NoDup (candidate_overlaps p h id) ->
  Forall (fun x => 0 < x) (candidate_overlaps p h id) ->
  let tot := total_overlap p h id in
  exists dropped,
    candidate_map p h id = dropped ++ retained p h id /\
    keys (candidate_map p h id) = sort (candidate_overlaps p h id) /\
    accumulate (keys dropped) + accumulate (kept_overlaps p h id) = tot /\
    accumulate (keys dropped) < tot * nl_cutoff_ p /\
    tot - tot * nl_cutoff_ p < accumulate (kept_overlaps p h id) /\
    forall x, x ∈ kept_overlaps p h id ->
              tot * nl_cutoff_ p <= accumulate (keys dropped) + x.
Proof.
  intros Hc Hne Hnd Hpos tot.
  pose proof (keys_candidate_map p h id Hnd) as K.
  pose proof (candidates_collected p h id) as C.
  unfold kept_overlaps, retained. subst tot.
  unfold candidate_overlaps, candidate_map, total_overlap in *.
  destruct (candidates p h id) as [[ov_l ov_m] ov_tot]. cbn [fst snd] in *.
  destruct C as (Ht & Hs & He).
  destruct ov_l as [|o ov_l]; [contradiction|].
  set (l := o :: ov_l) in *.
  assert (Htot : ov_tot = accumulate l) by lra.
  assert (Hp : 0 < ov_tot) by (rewrite Htot; apply accumulate_pos; assumption).
  rewrite <- K.
  destruct (integrate_prefix (ov_tot * nl_cutoff_ p) ov_m 0.0 Hs)
    as (dropped & E & Hd & Hx).
  set (kept := integrate (keys ov_m) 0.0 (ov_tot * nl_cutoff_ p) ov_m) in *.
  assert (Hsum : accumulate (keys dropped) + accumulate (keys kept) = ov_tot).
  { rewrite <- accumulate_app, <- keys_app, <- E, K, Htot.
    apply accumulate_Permutation, sort_Permutation. }
  assert (Hcut : 0 < ov_tot * nl_cutoff_ p) by (apply Rmult_lt_0_compat; lra).
  assert (Hrem : accumulate (keys dropped) < ov_tot * nl_cutoff_ p).
  { destruct Hd as [->|Hd]; [|lra].
    change (keys []) with (@nil R). rewrite accumulate_nil. exact Hcut. }
  exists dropped. split; [exact E|]. split; [reflexivity|].
  split; [exact Hsum|]. split; [exact Hrem|]. split; [lra|].
  intros x Hin. specialize (Hx x Hin). lra.
Qed.

(** The rebuilt list holds, for every data component, the entries of the
    atoms that [retained] leaves for it, and nothing else. *)
Lemma update_neighbor_list_entries (p : Setup) (h : Host) (s : State) (x : nat) :
  (0 < size_ p)%nat ->
  x ∈ nl_ (update_neighbor_list p h s) <->
  exists id e, (id < length (GMM_d_m_ (GMM_d p)))%nat /\ e ∈ retained p h id /\
               x = (id * length (GMM_m_type_ p) + snd e)%nat.
Proof.
  intros Hsize. unfold update_neighbor_list. cbn [nl_ with_nl].
  rewrite list_elem_of_In, in_flat_map. split.
  - intros (rank & _ & Hx). unfold nl_local in Hx.
    apply in_flat_map in Hx. destruct Hx as (id & Hid & Hx).
    apply filter_In in Hid. destruct Hid as [Hid _]. apply in_seq in Hid.
    apply in_map_iff in Hx. destruct Hx as (e & <- & He).
    exists id, e. split; [lia|]. split; [apply list_elem_of_In, He|reflexivity].
  - intros (id & e & Hid & He & ->).
    exists (id mod size_ p)%nat. split.
    + apply in_seq. split; [lia|]. cbn. apply Nat.mod_upper_bound. lia.
    + unfold nl_local. apply in_flat_map. exists id. split.
      * apply filter_In. split; [apply in_seq; lia|apply Nat.eqb_refl].
      * apply in_map_iff. exists e. split; [reflexivity|].
        apply list_elem_of_In, He.
Qed.

(** *** Atoms on the mean of a component *)

Lemma round_0 : round 0 = 0%Z.
Proof.
  unfold round. destruct (Rle_dec 0 0); [|lra].
  symmetry. apply Int_part_spec. cbn. lra.
Qed.

Lemma nexp_pos : (0 < nexp_)%nat.
Proof. rewrite nexp_value. lia. Qed.

Lemma tabulate_0 (dexp : R) :
  (length (tabulate dexp) <=? 0)%nat = false /\ tabulate dexp !!! 0%nat = 1.
Proof.
  unfold tabulate. split.
  - rewrite length_map, length_seq. apply Nat.leb_gt, nexp_pos.
  - rewrite lookup_total_map_seq by apply nexp_pos.
    cbn [INR]. replace (- 0 * dexp) with 0 by ring. apply exp_0.
Qed.

(** An atom that sits on the mean of the component has the quadratic
    form 0, the table index 0, and the prefactor of its pair as
    overlap. *)
Lemma atom_step_on_mean (p : Setup) (h : Host) (id im : nat)
    (ov_l : list R) (ov_m : ov_map) (ov_tot : R) :
  pbc_ p = false ->
  getPosition h im = GMM_d_m_ (GMM_d p) !!! id ->
  tab_exp_ p = tabulate (dexp_ p) ->
  let ov := pre_fact_ p !!! (GMM_m_type_ p !!! im * length (GMM_d_m_ (GMM_d p)) + id)%nat in
  atom_step p h id (ov_l, ov_m, ov_tot) im
  = (ov_l ++ [ov], map_assign ov im ov_m, ov_tot + ov).
Proof.
  intros Hpbc Hpos Htab ov. unfold atom_step.
  assert (E : get_exp_overlap (pbc_ p) h (GMM_d_m_ (GMM_d p) !!! id)
                (getPosition h im)
                (inv_cov_md_ p !!! (GMM_m_type_ p !!! im
                                    * length (GMM_d_m_ (GMM_d p)) + id)%nat) = 0).
  { unfold get_exp_overlap, displacement. rewrite Hpbc, Hpos, delta_self.
    apply quadratic_form_zero. }
  rewrite E.
  replace (0.5 * 0 / dexp_ p) with 0 by (unfold Rdiv; ring).
  rewrite round_0. change (to_unsigned 0) with 0%nat.
  rewrite Htab. destruct (tabulate_0 (dexp_ p)) as [-> ->].
  fold ov. rewrite Rmult_1_r. reflexivity.
Qed.

Lemma candidates_nl_setup (c : R) :
  candidates (nl_setup c) atoms_at_mean 0 = ([1; 2], [(1, 0%nat); (2, 1%nat)], 0.0 + 1 + 2).
Proof.
  unfold candidates.
  change (seq 0 (length (GMM_m_type_ (nl_setup c)))) with [0%nat; 1%nat].
  cbn [fold_left].
  rewrite (atom_step_on_mean (nl_setup c) atoms_at_mean 0 0) by reflexivity.
  rewrite (atom_step_on_mean (nl_setup c) atoms_at_mean 0 1) by reflexivity.
  change (pre_fact_ (nl_setup c) !!! (GMM_m_type_ (nl_setup c) !!! 0%nat
            * length (GMM_d_m_ (GMM_d (nl_setup c))) + 0)%nat) with 1.
  change (pre_fact_ (nl_setup c) !!! (GMM_m_type_ (nl_setup c) !!! 1%nat
            * length (GMM_d_m_ (GMM_d (nl_setup c))) + 0)%nat) with 2.
  cbn [app map_assign].
  destruct (Rlt_dec 2 1); [lra|]. destruct (Rlt_dec 1 2); [|lra].
  reflexivity.
Qed.

Lemma sort_1_2 : sort [1; 2] = [1; 2].
Proof. cbn. destruct (Rle_dec 1 2); [reflexivity|lra]. Qed.

Lemma retained_nl_setup_hundredth :
  retained (nl_setup 0.01) atoms_at_mean 0 = [(1, 0%nat); (2, 1%nat)].
Proof.
  unfold retained. rewrite candidates_nl_setup, sort_1_2.
  cbn [integrate nl_cutoff_ nl_setup].
  destruct (Rle_dec ((0.0 + 1 + 2) * 0.01) (0.0 + 1)); [reflexivity|lra].
Qed.

Lemma retained_nl_setup_one :
  retained (nl_setup 1) atoms_at_mean 0 = [(2, 1%nat)].
Proof.
  unfold retained. rewrite candidates_nl_setup, sort_1_2.
  cbn [integrate nl_cutoff_ nl_setup].
  destruct (Rle_dec ((0.0 + 1 + 2) * 1) (0.0 + 1)); [lra|].
  rewrite map_erase_head.
  destruct (Rle_dec ((0.0 + 1 + 2) * 1) (0.0 + 1 + 2)); [reflexivity|lra].
Qed.

(** C1 (counterexample). One component, two candidate atoms of overlaps
    1 and 2.  With NL_CUTOFF = 0.01 both are retained, and the retained
    set is not minimal for the bound of the claim: without the first atom
    the sum is 2, far above 0.01 * 3.  With NL_CUTOFF = 1 the first atom is
    left out and the retained sum 2 is below 1 * 3. *)
Lemma neighbor_list_retains_more :
  ~ retained_is_minimal (nl_setup 0.01) atoms_at_mean 0 /\
  ~ retains_cutoff_fraction (nl_setup 1) atoms_at_mean 0.
Proof.
  split.
  - unfold retained_is_minimal, kept_overlaps, total_overlap.
    rewrite retained_nl_setup_hundredth, candidates_nl_setup.
    cbn [keys map fst snd nl_cutoff_ nl_setup]. intros H.
    specialize (H 1 ltac:(apply elem_of_cons; auto)).
    rewrite !accumulate_cons, accumulate_nil in H. lra.
  - unfold retains_cutoff_fraction, kept_overlaps, total_overlap.
    rewrite retained_nl_setup_one, candidates_nl_setup.
    cbn [keys map fst snd nl_cutoff_ nl_setup].
    rewrite !accumulate_cons, accumulate_nil. lra.
Qed.

Lemma neighbor_list_cutoff_witness :
  exists dropped,
    candidate_map (nl_setup 1) atoms_at_mean 0
    = dropped ++ retained (nl_setup 1) atoms_at_mean 0 /\
    accumulate (keys dropped)
    < total_overlap (nl_setup 1) atoms_at_mean 0 * nl_cutoff_ (nl_setup 1).
Proof.
  assert (Hc : 0 < nl_cutoff_ (nl_setup 1) <= 1) by (cbn; lra).
  assert (E : candidate_overlaps (nl_setup 1) atoms_at_mean 0 = [1; 2])
    by (unfold candidate_overlaps; rewrite candidates_nl_setup; reflexivity).
  assert (Hne : candidate_overlaps (nl_setup 1) atoms_at_mean 0 <> [])
    by (rewrite E; discriminate).
  assert (Hnd : NoDup (candidate_overlaps (nl_setup 1) atoms_at_mean 0)).
  { rewrite E. constructor; [|constructor; [|constructor]].
    - intros H. apply list_elem_of_singleton in H. lra.
    - intros H. inversion H. }
  assert (Hp : Forall (fun x => 0 < x) (candidate_overlaps (nl_setup 1) atoms_at_mean 0)).
  { rewrite E. repeat constructor; lra. }
  destruct (neighbor_list_cutoff (nl_setup 1) atoms_at_mean 0 Hc Hne Hnd Hp)
    as (dropped & H1 & _ & _ & H4 & _).
  exists dropped. split; [exact H1|exact H4].
Defined.

End NeighborList.

(* ===================================================================== *)
(** * ExchangePatterns: what [getList] computes *)
(* ===================================================================== *)

Section GetListMore.
Import ExchangePatterns.
Local Open Scope Z_scope.

Lemma scan_elem_of (ind : list Z) (i : nat) (c : Z) :
  (i < length ind)%nat ->
  scan (<[i := c]> ind) i = bool_decide (c ∈ take i ind).
Proof.
  intros Hi.
  assert (Hv : at_ (<[i := c]> ind) i = c).
  { unfold at_. apply nth_lookup_Some, list_lookup_insert_eq, Hi. }
  assert (Hpre : take i (<[i := c]> ind) = take i ind)
    by (apply take_insert_ge; lia).
  destruct (scan (<[i := c]> ind) i) eqn:Es; symmetry.
  - apply bool_decide_eq_true. apply scan_spec in Es.
    destruct Es as (j & Hj & E). rewrite Hv in E. rewrite E.
    rewrite <- (at_take _ i j) by (rewrite ?length_insert; lia).
    rewrite Hpre. unfold at_. apply list_elem_of_In, nth_In.
    rewrite length_take. lia.
  - apply bool_decide_eq_false. intros Hin.
    assert (scan (<[i := c]> ind) i = true); [|congruence].
    apply scan_spec. destruct (elem_of_at _ _ Hin) as (j & Hj & E).
    rewrite length_take in Hj. exists j. split; [lia|].
    rewrite Hv. transitivity (at_ (take i (<[i := c]> ind)) j).
    + rewrite Hpre. symmetry. exact E.
    + apply at_take; [lia|rewrite length_insert; lia].
Qed.

Lemma for_i_pick (nrepl : Z) (rnd : list Q) :
  forall (todo i : nat) (ind : list Z),
    (i + todo <= length ind)%nat ->
    for_i todo i rnd ind nrepl
    = match pick nrepl rnd todo (take i ind) with
      | Some (cs, rest) => Some (take i ind ++ cs ++ drop (i + todo) ind, rest)
      | None => None
      end.
Proof.
  induction rnd as [|u rnd IH]; intros todo i ind Hlen.
  - destruct todo as [|todo]; cbn.
    + rewrite Nat.add_0_r, take_drop. reflexivity.
    + reflexivity.
  - destruct todo as [|todo].
    + cbn. rewrite Nat.add_0_r, take_drop. reflexivity.
    + cbn [for_i while_stat pick]. fold (cell nrepl u).
      set (c := cell nrepl u).
      rewrite scan_elem_of by lia.
      assert (Hpre : take i (<[i := c]> ind) = take i ind)
        by (apply take_insert_ge; lia).
      assert (Hdrop : forall k, (i < k)%nat -> drop k (<[i := c]> ind) = drop k ind)
        by (intros k Hk; apply drop_insert_lt; lia).
      destruct (bool_decide (c ∈ take i ind)) eqn:Ec.
      * specialize (IH (S todo) i (<[i := c]> ind)).
        rewrite length_insert in IH. specialize (IH Hlen).
        cbn [for_i] in IH. rewrite IH, Hpre, Hdrop by lia. reflexivity.
      * specialize (IH todo (S i) (<[i := c]> ind)).
        rewrite length_insert in IH. specialize (IH ltac:(lia)).
        rewrite IH.
        rewrite (take_S_r _ i c) by (apply list_lookup_insert_eq; lia).
        rewrite Hpre, Hdrop by lia.
        replace (S i + todo)%nat with (i + S todo)%nat by lia.
        destruct (pick nrepl rnd todo (take i ind ++ [c])) as [[cs rest]|];
          [|reflexivity].
        rewrite <- app_assoc. reflexivity.
Qed.

Lemma pick_spec (nrepl : Z) (rnd : list Q) :
  forall todo seen cs rest,
    pick nrepl rnd todo seen = Some (cs, rest) ->
    length cs = todo /\
    exists used, rnd = used ++ rest /\ (todo <= length used)%nat.
Proof.
  induction rnd as [|u rnd IH]; intros todo seen cs rest H.
  - destruct todo; cbn in H; [|discriminate]. inversion H; subst.
    split; [reflexivity|]. exists []. split; [reflexivity|cbn; lia].
  - destruct todo as [|todo]; cbn in H.
    + inversion H; subst. split; [reflexivity|].
      exists []. split; [reflexivity|cbn; lia].
    + destruct (bool_decide _).
      * apply IH in H. destruct H as (L & used & -> & Hu).
        split; [exact L|]. exists (u :: used). split; [reflexivity|cbn; lia].
      * destruct (pick nrepl rnd todo _) as [[cs' rest']|] eqn:E; [|discriminate].
        inversion H; subst. apply IH in E. destruct E as (L & used & -> & Hu).
        split; [cbn; lia|]. exists (u :: used). split; [reflexivity|cbn; lia].
Qed.

(** X1. [getList] is the selection of the first [nrepl] pairwise different
    cell values floor(u*nrepl) in the order in which the generator delivers
    them: a value already taken is drawn again, the cells from [nrepl] on
    keep what they held, and [getList] does not return when the draws do
    not hold [nrepl] different values. *)
Theorem getList_first_distinct (rnd : list Q) (ind : list Z) (nrepl : Z) :
  (Z.to_nat nrepl <= length ind)%nat ->
  getList rnd ind nrepl
  = match pick nrepl rnd (Z.to_nat nrepl) [] with
    | Some (cs, rest) => Some (cs ++ drop (Z.to_nat nrepl) ind, rest)
    | None => None
    end.
Proof.
  intros Hlen. unfold getList. rewrite for_i_pick by (cbn; lia).
  cbn [take Nat.add app]. reflexivity.
Qed.

Lemma getList_first_distinct_witness :
  getList [(1#2); (1#2); (9#10); (0#1)]%Q [7; 7; 7; 7] 3
  = match pick 3 [(1#2); (1#2); (9#10); (0#1)]%Q (Z.to_nat 3) [] with
    | Some (cs, rest) => Some (cs ++ drop (Z.to_nat 3) [7; 7; 7; 7], rest)
    | None => None
    end.
Proof.
  apply (getList_first_distinct [(1#2); (1#2); (9#10); (0#1)]%Q [7; 7; 7; 7] 3).
  cbn. lia.
Defined.

(** X2. When [getList] returns, the buffer has kept its length, nothing
    was written from cell [nrepl] on, and the generator has advanced by
    the draws consumed, at least [nrepl] of them. *)
Theorem getList_frame (rnd : list Q) (ind : list Z) (nrepl : Z)
    (ind' : list Z) (rnd' : list Q) :
  (Z.to_nat nrepl <= length ind)%nat ->
  getList rnd ind nrepl = Some (ind', rnd') ->
  length ind' = length ind /\
  drop (Z.to_nat nrepl) ind' = drop (Z.to_nat nrepl) ind /\
  exists used, rnd = used ++ rnd' /\ (Z.to_nat nrepl <= length used)%nat.
Proof.
  intros Hlen H. unfold getList in H.
  rewrite for_i_pick in H by (cbn; lia).
  change (take 0 ind) with (@nil Z) in H. cbn [Nat.add app] in H.
  destruct (pick nrepl rnd (Z.to_nat nrepl) []) as [[cs rest]|] eqn:E;
    [|discriminate].
  inversion H; subst. apply pick_spec in E. destruct E as (L & used & -> & Hu).
  split; [|split].
  - rewrite length_app, length_drop. lia.
  - rewrite drop_app_length'; [reflexivity|symmetry; exact L].
  - exists used. split; [reflexivity|exact Hu].
Qed.

Lemma getList_frame_witness :
  length [1; 2; 0; 7] = length [7; 7; 7; 7] /\
  drop (Z.to_nat 3) [1; 2; 0; 7] = drop (Z.to_nat 3) [7; 7; 7; 7] /\
  exists used, [(1#2); (1#2); (9#10); (0#1); (1#3)]%Q = used ++ [(1#3)%Q] /\
               (Z.to_nat 3 <= length used)%nat.
Proof.
  apply (getList_frame [(1#2); (1#2); (9#10); (0#1); (1#3)]%Q [7; 7; 7; 7] 3).
  - cbn. lia.
  - vm_compute. reflexivity.
Defined.

End GetListMore.

(* ===================================================================== *)
(** * EMMI: what the claims leave out *)
(* ===================================================================== *)

(* --------------------------------------------------------------------- *)
(** ** Covariance matrices *)
(* --------------------------------------------------------------------- *)

Section Covariance.
Import EMMI.
Local Open Scope R_scope.

Lemma form_value (a b c d e f x y z : R) :
  form (mkV6 a b c d e f) (mkVector x y z)
  = a * x * x + 2 * b * x * y + 2 * c * x * z + d * y * y + 2 * e * y * z
    + f * z * z.
Proof. unfold form, quadratic_form. cbn. ring. Qed.

Lemma form_V6plus (c1 c2 : VectorGeneric6) (v : Vector) :
  form (V6plus c1 c2) v = form c1 v + form c2 v.
Proof.
  destruct c1, c2, v. unfold V6plus. cbn [component V6_indexed m00 m01 m02 m11 m12 m22].
  rewrite !form_value. ring.
Qed.

Lemma sylvester_tests (pm1 pm2 pm3 w : R) (m1 m2 : string) :
  (if Rleb pm1 0 || Rleb pm2 0 || Rleb pm3 0 then Fatal m1
   else if Rltb w 0 then Fatal m2 else Done tt) = Done tt <->
  0 < pm1 /\ 0 < pm2 /\ 0 < pm3 /\ 0 <= w.
Proof.
  unfold Rleb, Rltb.
  destruct (Rle_dec pm1 0), (Rle_dec pm2 0), (Rle_dec pm3 0), (Rlt_dec w 0);
    cbn; split; try discriminate; try (intros; lra); reflexivity.
Qed.

Lemma check_GMM_d_done (cov : VectorGeneric6) (w : R) :
  check_GMM_d cov w = Done tt <->
  0 < cov.[0] /\ 0 < cov.[0] * cov.[3] - cov.[1] * cov.[1] /\ 0 < det3 cov /\
  0 <= w.
Proof. unfold check_GMM_d, det3. cbv zeta. apply sylvester_tests. Qed.

Lemma square_nonneg (t : R) : 0 <= t * t.
Proof. apply Rle_0_sqr. Qed.

(** Sylvester's criterion for a symmetric 3x3 matrix, in the direction
    the source relies on. *)
Lemma minors_positive_definite (c : VectorGeneric6) :
  0 < c.[0] -> 0 < c.[0] * c.[3] - c.[1] * c.[1] -> 0 < det3 c ->
  positive_definite c.
Proof.
  destruct c as [a b c d e f]. unfold det3. cbn. intros Ha HD Hdet.
  intros [x y z] Hv. rewrite form_value.
  set (q := a * x * x + 2 * b * x * y + 2 * c * x * z + d * y * y
            + 2 * e * y * z + f * z * z).
  set (D := a * d - b * b) in *.
  set (det := a * (d * f - e * e) - b * (b * f - e * c) + c * (b * e - d * c)) in *.
  assert (I : a * D * q
              = D * ((a * x + b * y + c * z) * (a * x + b * y + c * z))
                + (D * y + (a * e - b * c) * z) * (D * y + (a * e - b * c) * z)
                + a * det * (z * z))
    by (unfold q, D, det; ring).
  pose proof (square_nonneg (a * x + b * y + c * z)) as S1.
  pose proof (square_nonneg (D * y + (a * e - b * c) * z)) as S2.
  pose proof (square_nonneg z) as S3.
  assert (P1 : 0 < a * D) by (apply Rmult_lt_0_compat; assumption).
  assert (P2 : 0 < a * det) by (apply Rmult_lt_0_compat; assumption).
  destruct (Rlt_dec 0 q) as [Hq|Hq]; [exact Hq|exfalso].
  assert (Hq0 : a * D * q <= 0).
  { assert (q <= 0) by lra.
    replace (a * D * q) with (- (a * D * - q)) by ring.
    assert (0 <= a * D * - q) by (apply Rmult_le_pos; lra). lra. }
  assert (T1 : 0 <= D * ((a * x + b * y + c * z) * (a * x + b * y + c * z)))
    by (apply Rmult_le_pos; lra).
  assert (T3 : 0 <= a * det * (z * z)) by (apply Rmult_le_pos; lra).
  assert (Z3 : a * det * (z * z) = 0) by lra.
  assert (Z2 : (D * y + (a * e - b * c) * z) * (D * y + (a * e - b * c) * z) = 0)
    by lra.
  assert (Z1 : D * ((a * x + b * y + c * z) * (a * x + b * y + c * z)) = 0) by lra.
  assert (Hz : z = 0).
  { apply Rmult_integral in Z3. destruct Z3 as [Z3|Z3]; [lra|].
    apply Rmult_integral in Z3. destruct Z3; assumption. }
  subst z.
  assert (Hy : y = 0).
  { apply Rmult_integral in Z2.
    assert (Z2' : D * y = 0) by (destruct Z2; lra).
    apply Rmult_integral in Z2'. destruct Z2'; [lra|assumption]. }
  subst y.
  assert (Hx : x = 0).
  { apply Rmult_integral in Z1. destruct Z1 as [Z1|Z1]; [lra|].
    apply Rmult_integral in Z1.
    assert (Z1' : a * x = 0) by (destruct Z1; lra).
    apply Rmult_integral in Z1'. destruct Z1'; [lra|assumption]. }
  subst x. apply Hv. reflexivity.
Qed.

Lemma positive_definite_minors (c : VectorGeneric6) :
  positive_definite c ->
  0 < c.[0] /\ 0 < c.[0] * c.[3] - c.[1] * c.[1] /\ 0 < det3 c.
Proof.
  destruct c as [a b c d e f]. unfold det3. cbn. intros H.
  assert (Ha : 0 < a).
  { specialize (H (mkVector 1 0 0)). rewrite form_value in H.
    assert (mkVector 1 0 0 <> mkVector 0 0 0) by (intros E; inversion E; lra).
    specialize (H ltac:(assumption)). lra. }
  assert (HD : 0 < a * d - b * b).
  { specialize (H (mkVector (- b) a 0)). rewrite form_value in H.
    assert (mkVector (- b) a 0 <> mkVector 0 0 0) by (intros E; inversion E; lra).
    specialize (H ltac:(assumption)).
    assert (E : a * (a * d - b * b)
                = a * - b * - b + 2 * b * - b * a + 2 * c * - b * 0 + d * a * a
                  + 2 * e * a * 0 + f * 0 * 0) by ring.
    rewrite <- E in H. nra. }
  split; [exact Ha|]. split; [exact HD|].
  specialize (H (mkVector (b * e - c * d) (b * c - a * e) (a * d - b * b))).
  rewrite form_value in H.
  assert (mkVector (b * e - c * d) (b * c - a * e) (a * d - b * b)
          <> mkVector 0 0 0) by (intros E; inversion E; lra).
  specialize (H ltac:(assumption)).
  set (det := a * (d * f - e * e) - b * (b * f - e * c) + c * (b * e - d * c)).
  assert (E : (a * d - b * b) * det
              = a * (b * e - c * d) * (b * e - c * d)
                + 2 * b * (b * e - c * d) * (b * c - a * e)
                + 2 * c * (b * e - c * d) * (a * d - b * b)
                + d * (b * c - a * e) * (b * c - a * e)
                + 2 * e * (b * c - a * e) * (a * d - b * b)
                + f * (a * d - b * b) * (a * d - b * b)) by (unfold det; ring).
  rewrite <- E in H.
  destruct (Rlt_dec 0 det) as [Hd|Hd]; [exact Hd|exfalso]. nra.
Qed.

Lemma check_GMM_d_minors_definite (cov : VectorGeneric6) (w : R) :
  check_GMM_d cov w = Done tt -> positive_definite cov.
Proof.
  intros H. apply check_GMM_d_done in H. destruct H as (H1 & H2 & H3 & _).
  apply minors_positive_definite; assumption.
Qed.

(** X3. [check_GMM_d] lets a component pass exactly when its covariance
    matrix is positive definite (the quadratic form that [get_overlap]
    computes is positive on every displacement other than zero) and its
    weight is not negative. *)
Theorem check_GMM_d_positive_definite (cov : VectorGeneric6) (w : R) :
  check_GMM_d cov w = Done tt <-> positive_definite cov /\ 0 <= w.
Proof.
  rewrite check_GMM_d_done. split.
  - intros (H1 & H2 & H3 & Hw). split; [|exact Hw].
    apply minors_positive_definite; assumption.
  - intros [H Hw]. apply positive_definite_minors in H.
    destruct H as (H1 & H2 & H3). auto.
Qed.

Lemma mat_vec_value (a b c d e f x y z : R) :
  mat_vec (mkV6 a b c d e f) (mkVector x y z)
  = mkVector (x * a + y * b + z * c) (x * b + y * d + z * e)
             (x * c + y * e + z * f).
Proof. reflexivity. Qed.

Lemma inverse3_inverts (sum : VectorGeneric6) (v : Vector) :
  det3 sum <> 0 ->
  mat_vec sum (mat_vec (inverse3 sum (det3 sum)) v) = v /\
  mat_vec (inverse3 sum (det3 sum)) (mat_vec sum v) = v.
Proof.
  destruct sum as [a b c d e f], v as [x y z].
  unfold inverse3, det3. cbn [component V6_indexed m00 m01 m02 m11 m12 m22].
  intros Hd. rewrite !mat_vec_value.
  split; f_equal; field; exact Hd.
Qed.

(** X4. The matrix that [get_prefactor_inverse] leaves in its last
    argument is the inverse of the sum of the two covariances that it
    leaves in the one before, whenever that sum has a determinant other
    than zero: applying the two matrices one after the other, in either
    order, gives every vector back. *)
Theorem get_prefactor_inverse_inverts
    (GMM_cov_0 GMM_cov_1 : VectorGeneric6) (GMM_w_0 GMM_w_1 : R) (v : Vector) :
  det3 (V6plus GMM_cov_0 GMM_cov_1) <> 0 ->
  let '(_, sum, inv_sum) :=
    get_prefactor_inverse GMM_cov_0 GMM_cov_1 GMM_w_0 GMM_w_1 in
  sum = V6plus GMM_cov_0 GMM_cov_1 /\
  mat_vec sum (mat_vec inv_sum v) = v /\
  mat_vec inv_sum (mat_vec sum v) = v.
Proof.
  intros Hd. unfold get_prefactor_inverse. cbv zeta.
  split; [reflexivity|]. apply inverse3_inverts. exact Hd.
Qed.

Lemma det3_two_unit : det3 (V6plus unit_cov unit_cov) = 8.
Proof. unfold det3, V6plus, unit_cov. cbn. ring. Qed.

Lemma get_prefactor_inverse_inverts_witness :
  let '(_, sum, inv_sum) := get_prefactor_inverse unit_cov unit_cov 1 1 in
  sum = V6plus unit_cov unit_cov /\
  mat_vec sum (mat_vec inv_sum (mkVector 1 2 3)) = mkVector 1 2 3 /\
  mat_vec inv_sum (mat_vec sum (mkVector 1 2 3)) = mkVector 1 2 3.
Proof.
  apply (get_prefactor_inverse_inverts unit_cov unit_cov 1 1 (mkVector 1 2 3)).
  rewrite det3_two_unit. lra.
Defined.

Lemma positive_definite_V6plus (c1 c2 : VectorGeneric6) :
  positive_definite c1 -> positive_definite c2 ->
  positive_definite (V6plus c1 c2).
Proof.
  intros H1 H2 v Hv. rewrite form_V6plus.
  specialize (H1 v Hv). specialize (H2 v Hv). lra.
Qed.

Lemma for_sum_pos (n : nat) (f : nat -> R) (k : nat) :
  (forall i, (i < n)%nat -> 0 <= f i) -> (k < n)%nat -> 0 < f k ->
  0 < for_sum n f.
Proof.
  induction n as [|n IH]; intros Hf Hk Hp; [lia|].
  rewrite for_sum_S.
  destruct (Nat.eq_dec k n) as [->|Hne].
  - assert (0 <= for_sum n f) by (apply for_sum_nonneg; intros; apply Hf; lia).
    lra.
  - assert (0 < for_sum n f) by (apply IH; [intros; apply Hf; lia|lia|exact Hp]).
    assert (0 <= f n) by (apply Hf; lia). lra.
Qed.

Lemma loaded_components (file : option (list GMMrow)) (d : GMMdata) :
  get_GMM_d file = Done d ->
  exists rows, file = Some rows /\ Forall good_row rows /\
    d = mkGMM (map (fun r => mkVector (Mean_0 r) (Mean_1 r) (Mean_2 r)) rows)
              (map Weight rows) (map Cov rows) (map Beta rows).
Proof.
  destruct file as [rows|]; [|discriminate]. cbn. intros H.
  apply get_GMM_d_rows_spec in H. destruct H as [Hg ->].
  exists rows. auto.
Qed.

Lemma lookup_total_map_lt {A B : Type} `{!Inhabited A} `{!Inhabited B}
    (f : A -> B) (l : list A) (i : nat) :
  (i < length l)%nat -> map f l !!! i = f (l !!! i).
Proof.
  intros Hi. rewrite !lookup_total_nth.
  rewrite (nth_indep _ _ (f inhabitant)) by (rewrite length_map; exact Hi).
  apply map_nth.
Qed.

Lemma Forall_lookup_total_lt {A : Type} `{!Inhabited A} (P : A -> Prop)
    (l : list A) (i : nat) :
  Forall P l -> (i < length l)%nat -> P (l !!! i).
Proof.
  intros H Hi. rewrite Forall_forall in H. apply H.
  rewrite lookup_total_nth. apply list_elem_of_In, nth_In. exact Hi.
Qed.

(** X5. Every self overlap [ovdd_] of a data GMM that [get_GMM_d] has
    loaded is positive for a component of positive weight, with or
    without periodic boundary conditions and whatever the box is. *)
Theorem get_self_overlap_positive (file : option (list GMMrow)) (d : GMMdata)
    (pbc_ : bool) (h : Host) (id : nat) :
  get_GMM_d file = Done d ->
  (id < length (GMM_d_m_ d))%nat ->
  0 < GMM_d_w_ d !!! id ->
  0 < get_self_overlap pbc_ h d id.
Proof.
  intros Hload Hid Hw.
  apply loaded_components in Hload. destruct Hload as (rows & _ & Hg & ->).
  cbn [GMM_d_m_ GMM_d_w_] in *. rewrite length_map in Hid.
  rewrite get_self_overlap_sum. cbn [GMM_d_m_]. rewrite length_map.
  assert (Hws : Forall (fun w => 0 <= w) (map Weight rows)).
  { apply Forall_map. eapply Forall_impl; [exact Hg|].
    intros r Hr. apply good_row_weight, Hr. }
  apply (for_sum_pos _ _ id); [| exact Hid |].
  - intros i _. apply Rmult_le_pos; [|left; apply exp_pos].
    apply pair_prefactor_nonneg. exact Hws.
  - apply Rmult_lt_0_compat; [|apply exp_pos].
    unfold pair_prefactor, get_prefactor_inverse. cbn [fst GMM_d_cov_ GMM_d_w_].
    assert (Hpd : positive_definite (map Cov rows !!! id)).
    { rewrite lookup_total_map_lt by exact Hid.
      pose proof (Forall_lookup_total_lt _ _ _ Hg Hid) as [Hc _].
      apply check_GMM_d_minors_definite in Hc. exact Hc. }
    pose proof (positive_definite_minors _ (positive_definite_V6plus _ _ Hpd Hpd))
      as (_ & _ & Hdet).
    pose proof cfact_pos as Hc.
    assert (0 < sqrt (det3 (V6plus (map Cov rows !!! id) (map Cov rows !!! id))))
      by (apply sqrt_lt_R0; exact Hdet).
    apply Rmult_lt_0_compat; [apply Rmult_lt_0_compat|exact Hw]; [|exact Hw].
    apply Rdiv_lt_0_compat; assumption.
Qed.

Lemma get_self_overlap_positive_witness :
  0 < get_self_overlap true box_4 one_component_data 0.
Proof.
  apply (get_self_overlap_positive (Some one_component) one_component_data
           true box_4 0).
  - unfold one_component, get_GMM_d, get_GMM_d_rows.
    assert (E : check_GMM_d unit_cov 1 = Done tt).
    { apply check_GMM_d_done. unfold det3, unit_cov. cbn. lra. }
    cbn [Cov Weight]. rewrite E. reflexivity.
  - cbn. lia.
  - cbn. lra.
Defined.

End Covariance.

(* --------------------------------------------------------------------- *)
(** ** The model GMM and the auxiliary tables *)
(* --------------------------------------------------------------------- *)

Section ModelGMM.
Import EMMI.
Local Open Scope R_scope.

Lemma type_map_find_lt (type : Ascii.ascii) (t : nat) :
  type_map_find type = Some t -> (t < 4)%nat.
Proof.
  unfold type_map_find, type_map. cbn [find fst snd].
  repeat (destruct (Ascii.eqb _ type);
          [intros E; inversion E; subst; lia|]).
  discriminate.
Qed.

Lemma atom_type_lt (name : string) (t : nat) :
  atom_type name = Done t -> (t < 4)%nat.
Proof.
  unfold atom_type. destruct (string_at name 0) as [first|]; [|discriminate].
  cbn [bind].
  destruct (if negb (isdigit first) then Done first else string_at name 1)
    as [type|]; [|discriminate].
  cbn [bind]. destruct (type_map_find type) as [t'|] eqn:E; [|discriminate].
  intros H. inversion H; subst. apply type_map_find_lt in E. exact E.
Qed.

Lemma get_GMM_m_atoms_spec (m : nat -> string) (atoms : list nat) :
  forall ty0 w0 ty w,
    get_GMM_m_atoms m atoms ty0 w0 = Done (ty, w) ->
    exists ts, Forall2 (fun a t => atom_type (m a) = Done t) atoms ts /\
               ty = ty0 ++ ts /\
               w = w0 ++ map (fun t => GMM_m_w_table !!! t) ts.
Proof.
  induction atoms as [|a atoms IH]; intros ty0 w0 ty w H; cbn in H.
  - inversion H; subst. exists []. rewrite !app_nil_r. auto.
  - destruct (atom_type (m a)) as [t|] eqn:E; [|discriminate]. cbn [bind] in H.
    apply IH in H. destruct H as (ts & F & -> & ->).
    exists (t :: ts). rewrite <- !app_assoc. cbn. auto.
Qed.

Lemma get_GMM_m_atoms_done (m : nat -> string) (atoms : list nat) :
  forall ty0 w0,
    is_done (get_GMM_m_atoms m atoms ty0 w0) = true <->
    Forall (fun a => is_done (atom_type (m a)) = true) atoms.
Proof.
  induction atoms as [|a atoms IH]; intros ty0 w0; cbn.
  - split; auto.
  - destruct (atom_type (m a)) as [t|] eqn:E; cbn [bind].
    + rewrite IH. split.
      * intros H. constructor; [rewrite E; reflexivity|exact H].
      * intros H. inversion H; assumption.
    + split; [discriminate|]. intros H. inversion H; subst.
      rewrite E in *. discriminate.
Qed.

Lemma isdigit_digit (c : Ascii.ascii) : isdigit c = true <-> digit c.
Proof.
  unfold digit. cbn [list_ascii_of_string In].
  destruct c as [[] [] [] [] [] [] [] []]; vm_compute;
    (split; [intros H; first [discriminate H | tauto]
            |intros H; first [reflexivity | exfalso; intuition discriminate]]).
Qed.

Lemma type_map_find_index (c : Ascii.ascii) (t : nat) :
  type_map_find c = Some t <-> letter_index c t.
Proof.
  unfold type_map_find, type_map. cbn [find fst snd]. split.
  - repeat (match goal with
            | |- context [Ascii.eqb ?a c] =>
                destruct (Ascii.eqb_spec a c) as [<-|]
            end;
            [cbn [snd]; intros E; inversion E; subst; constructor|]).
    discriminate.
  - intros []; reflexivity.
Qed.

(** The golden rule of [get_GMM_m], in words. *)
Lemma atom_type_letter (name : string) (t : nat) :
  atom_type name = Done t <->
  exists c, type_letter name c /\ letter_index c t.
Proof.
  unfold atom_type, string_at. split.
  - destruct name as [|c0 rest]; [discriminate|]. cbn [String.get bind].
    destruct (isdigit c0) eqn:Ed; cbn [negb].
    + apply isdigit_digit in Ed.
      destruct rest as [|c1 rest]; [discriminate|]. cbn [String.get bind].
      destruct (type_map_find c1) as [t'|] eqn:Ef; [|discriminate].
      intros H. inversion H; subst. exists c1.
      split; [constructor; exact Ed|apply type_map_find_index, Ef].
    + assert (Hn : ~ digit c0).
      { intros Hd. apply isdigit_digit in Hd. congruence. }
      cbn [bind]. destruct (type_map_find c0) as [t'|] eqn:Ef; [|discriminate].
      intros H. inversion H; subst. exists c0.
      split; [constructor; exact Hn|apply type_map_find_index, Ef].
  - intros (c & Hl & Hi). apply type_map_find_index in Hi.
    destruct Hl as [c rest Hn|d c rest Hd]; cbn [String.get bind].
    + destruct (isdigit c) eqn:Ed; [apply isdigit_digit in Ed; contradiction|].
      cbn [negb bind]. rewrite Hi. reflexivity.
    + apply isdigit_digit in Hd. rewrite Hd. cbn [negb String.get bind].
      rewrite Hi. reflexivity.
Qed.

Lemma get_GMM_m_atoms_letters (m : nat -> string) (atoms : list nat) :
  forall ty0 w0 ts,
    Forall2 (fun a t => atom_type (m a) = Done t) atoms ts ->
    get_GMM_m_atoms m atoms ty0 w0
    = Done (ty0 ++ ts, w0 ++ map (fun t => GMM_m_w_table !!! t) ts).
Proof.
  induction atoms as [|a atoms IH]; intros ty0 w0 ts F.
  - inversion F; subst. cbn. rewrite !app_nil_r. reflexivity.
  - inversion F as [|a' t atoms' ts' Ha F']; subst.
    cbn [get_GMM_m_atoms]. rewrite Ha. cbn [bind].
    rewrite (IH _ _ ts' F'). cbn [map]. rewrite <- !app_assoc. reflexivity.
Qed.

(** X6. [get_GMM_m] returns exactly when the input holds one MOLINFO and
    the type letter of every atom of ATOMS -- the first character of its
    name, or the second when the first is a digit -- is one of C, O, N,
    S; it then leaves in [GMM_m_type_] the indices 0, 1, 2, 3 of these
    letters, in the order of ATOMS, and returns the weights of the table
    for them.  No MOLINFO or a second one, an atom of another element, a
    hydrogen for instance, or a name that ends before its type letter
    stops the program. *)
Theorem get_GMM_m_done (moldat : list (nat -> string)) (atoms : list nat)
    (ty : list nat) (w : list R) :
  get_GMM_m moldat atoms = Done (ty, w) <->
  exists m, moldat = [m] /\
            Forall2 (fun a t => exists c, type_letter (m a) c /\ letter_index c t)
                    atoms ty /\
            w = map (fun t => GMM_m_w_table !!! t) ty.
Proof.
  unfold get_GMM_m. split.
  - destruct moldat as [|m [|m' moldat]]; try discriminate.
    intros H. apply get_GMM_m_atoms_spec in H.
    destruct H as (ts & F & -> & ->). cbn [app].
    exists m. split; [reflexivity|]. split; [|reflexivity].
    eapply Forall2_impl; [exact F|]. intros a t Ha.
    apply atom_type_letter, Ha.
  - intros (m & -> & F & ->).
    apply (get_GMM_m_atoms_letters m atoms [] [] ty).
    eapply Forall2_impl; [exact F|]. intros a t Ha.
    apply atom_type_letter, Ha.
Qed.

Lemma length_flat_map_const {A B : Type} (f : A -> list B) (l : list A) (n : nat) :
  (forall x, length (f x) = n) -> length (flat_map f l) = (length l * n)%nat.
Proof.
  intros Hf. induction l as [|x l IH]; [reflexivity|].
  cbn. rewrite length_app, Hf, IH. reflexivity.
Qed.

Lemma lookup_flat_map_seq {B : Type} `{!Inhabited B} (f : nat -> list B)
    (n : nat) :
  (forall x, length (f x) = n) ->
  forall m t id, (t < m)%nat -> (id < n)%nat ->
    flat_map f (seq 0 m) !!! (t * n + id)%nat = f t !!! id.
Proof.
  intros Hf. induction m as [|m IH]; intros t id Ht Hid; [lia|].
  rewrite seq_S, flat_map_app. cbn [flat_map Nat.add]. rewrite app_nil_r.
  assert (L : length (flat_map f (seq 0 m)) = (m * n)%nat).
  { rewrite (length_flat_map_const f _ n Hf), length_seq. reflexivity. }
  destruct (Nat.eq_dec t m) as [->|Hne].
  - rewrite !lookup_total_nth, app_nth2 by (rewrite L; lia).
    rewrite L. f_equal. lia.
  - rewrite lookup_total_app_l by (rewrite L; nia).
    apply IH; lia.
Qed.

Lemma length_GMM_m_s_ : length GMM_m_s_ = 4%nat.
Proof. reflexivity. Qed.

Lemma length_calculate_useful_stuff (blur : R) (GMM_m_w_ : list R) (d : GMMdata) :
  let us := calculate_useful_stuff blur GMM_m_w_ d in
  length (us_pre_fact us) = (4 * length (GMM_d_m_ d))%nat /\
  length (us_inv_cov_md us) = (4 * length (GMM_d_m_ d))%nat.
Proof.
  unfold calculate_useful_stuff. cbv zeta. cbn [us_pre_fact us_inv_cov_md].
  rewrite !length_map.
  rewrite (length_flat_map_const _ _ (length (GMM_d_m_ d))), length_seq.
  - rewrite length_GMM_m_s_. split; reflexivity.
  - intros x. rewrite length_map, length_seq. reflexivity.
Qed.

(** The cell [t * n + id] of the two tables. *)
Lemma useful_stuff_cell (blur : R) (GMM_m_w_ : list R)
    (d : GMMdata) (t id : nat) :
  (t < 4)%nat -> (id < length (GMM_d_m_ d))%nat ->
  let n := length (GMM_d_m_ d) in
  let us := calculate_useful_stuff blur GMM_m_w_ d in
  let sum := V6plus (model_cov blur t) (GMM_d_cov_ d !!! id) in
  us_pre_fact us !!! (t * n + id)%nat
  = cfact_ / sqrt (det3 sum) * GMM_d_w_ d !!! id * GMM_m_w_ !!! t /\
  us_inv_cov_md us !!! (t * n + id)%nat = inverse3 sum (det3 sum).
Proof.
  intros Ht Hid n us sum. subst us. unfold calculate_useful_stuff.
  cbv zeta. cbn [us_pre_fact us_inv_cov_md].
  fold (model_cov blur). fold n.
  set (per_type := fun i : nat => map _ (seq 0 n)).
  assert (Hf : forall x, length (per_type x) = n)
    by (intros x; unfold per_type; rewrite length_map, length_seq; reflexivity).
  assert (L : length (flat_map per_type (seq 0 (length GMM_m_s_))) = (4 * n)%nat).
  { rewrite (length_flat_map_const per_type _ n Hf), length_seq.
    rewrite length_GMM_m_s_. reflexivity. }
  assert (E : flat_map per_type (seq 0 (length GMM_m_s_)) !!! (t * n + id)%nat
              = (cfact_ / sqrt (det3 sum) * GMM_d_w_ d !!! id * GMM_m_w_ !!! t,
                 inverse3 sum (det3 sum))).
  { rewrite (lookup_flat_map_seq per_type n Hf) by (rewrite ?length_GMM_m_s_; lia).
    unfold per_type. rewrite lookup_total_map_seq by exact Hid. reflexivity. }
  rewrite !lookup_total_map_lt by (rewrite L; nia).
  rewrite E. split; reflexivity.
Qed.

Lemma nexp_ge_2 : (2 <= nexp_)%nat.
Proof. rewrite nexp_value. lia. Qed.

(** X7. The tables that [calculate_useful_stuff] fills.  The prefactors
    and the inverses are laid out by atom type and data component: they
    have four times as many cells as the data GMM has components, and the
    cell [t * n + id], the index [kaux] of the overlap routines, holds the
    prefactor and the inverse of the summed covariances of the model
    component of type [t] and the data component [id].  The exponential is
    tabulated at [nexp_] points from 0 to [dpcutoff_]: the entry [k] is
    exp(-k*dexp_), and the last one is exp(-dpcutoff_). *)
Theorem calculate_useful_stuff_layout (blur : R) (GMM_m_w_ : list R)
    (d : GMMdata) (t id : nat) :
  (t < 4)%nat -> (id < length (GMM_d_m_ d))%nat ->
  let n := length (GMM_d_m_ d) in
  let us := calculate_useful_stuff blur GMM_m_w_ d in
  let sum := V6plus (model_cov blur t) (GMM_d_cov_ d !!! id) in
  (length (us_pre_fact us) = (4 * n)%nat /\
   length (us_inv_cov_md us) = (4 * n)%nat /\
   us_pre_fact us !!! (t * n + id)%nat
   = cfact_ / sqrt (det3 sum) * GMM_d_w_ d !!! id * GMM_m_w_ !!! t /\
   us_inv_cov_md us !!! (t * n + id)%nat = inverse3 sum (det3 sum)) /\
  (length (us_tab_exp us) = nexp_ /\
   (forall k, (k < nexp_)%nat ->
      us_tab_exp us !!! k = exp (- INR k * us_dexp us)) /\
   us_tab_exp us !!! (nexp_ - 1)%nat = exp (- dpcutoff_)).
Proof.
  intros Ht Hid n us sum.
  destruct (length_calculate_useful_stuff blur GMM_m_w_ d) as [L1 L2].
  destruct (useful_stuff_cell blur GMM_m_w_ d t id Ht Hid) as [C1 C2].
  split; [repeat split; assumption|].
  subst us. unfold calculate_useful_stuff. cbv zeta.
  cbn [us_tab_exp us_dexp]. unfold tabulate.
  split; [rewrite length_map, length_seq; reflexivity|]. split.
  - intros k Hk. rewrite lookup_total_map_seq by exact Hk. reflexivity.
  - pose proof nexp_ge_2 as H2.
    rewrite lookup_total_map_seq by lia. f_equal.
    assert (0 < INR (nexp_ - 1)) by (apply lt_0_INR; lia).
    field. lra.
Qed.

Lemma calculate_useful_stuff_layout_witness :
  let us := calculate_useful_stuff 0 GMM_m_w_table one_component_data in
  let sum := V6plus (model_cov 0 1) unit_cov in
  length (us_pre_fact us) = 4%nat /\
  us_pre_fact us !!! 1%nat = cfact_ / sqrt (det3 sum) * 1 * 1.97692 /\
  us_inv_cov_md us !!! 1%nat = inverse3 sum (det3 sum) /\
  us_tab_exp us !!! (nexp_ - 1)%nat = exp (- dpcutoff_).
Proof.
  destruct (calculate_useful_stuff_layout 0 GMM_m_w_table one_component_data 1 0
              ltac:(lia) ltac:(cbn; lia)) as ((A & _ & B & C) & _ & _ & D).
  split; [exact A|]. split; [exact B|]. split; [exact C|exact D].
Defined.

(** X8. What [get_GMM_m] returns fits the tables: there is one type and
    one weight for each atom of ATOMS, every type is one of the four
    indices 0..3, the weight of an atom is the tabulated weight of its
    type, and for every atom and every data component the index [kaux]
    that the overlap routines form lies inside the tables of
    [calculate_useful_stuff]. *)
Theorem get_GMM_m_in_tables (moldat : list (nat -> string)) (atoms : list nat)
    (types : list nat) (GMM_m_w : list R) :
  get_GMM_m moldat atoms = Done (types, GMM_m_w) ->
  length types = length atoms /\
  Forall (fun t => (t < 4)%nat) types /\
  GMM_m_w = map (fun t => GMM_m_w_table !!! t) types /\
  forall (blur : R) (GMM_m_w_ : list R) (d : GMMdata) (im id : nat),
    (im < length atoms)%nat -> (id < length (GMM_d_m_ d))%nat ->
    let kaux := (types !!! im * length (GMM_d_m_ d) + id)%nat in
    let us := calculate_useful_stuff blur GMM_m_w_ d in
    (kaux < length (us_pre_fact us))%nat /\
    (kaux < length (us_inv_cov_md us))%nat.
Proof.
  intros H. unfold get_GMM_m in H.
  destruct moldat as [|m [|m' moldat]]; try discriminate.
  apply get_GMM_m_atoms_spec in H. destruct H as (ts & F & -> & ->).
  cbn [app].
  assert (L : length ts = length atoms) by (symmetry; eapply Forall2_length, F).
  assert (T : Forall (fun t => (t < 4)%nat) ts).
  { clear L. induction F as [|a t atoms ts Ha F IH]; constructor.
    - apply atom_type_lt in Ha. exact Ha.
    - exact IH. }
  split; [exact L|]. split; [exact T|]. split; [reflexivity|].
  intros blur GMM_m_w_ d im id Him Hid.
  assert (Ht : (ts !!! im < 4)%nat)
    by (apply Forall_lookup_total_lt; [exact T|lia]).
  destruct (length_calculate_useful_stuff blur GMM_m_w_ d) as (L1 & L2).
  cbv zeta in L1, L2. rewrite L1, L2. nia.
Qed.

Lemma get_GMM_m_in_tables_witness :
  length [0%nat; 2%nat] = length [5%nat; 6%nat] /\
  Forall (fun t => (t < 4)%nat) [0%nat; 2%nat] /\
  [2.49982; 2.20402] = map (fun t => GMM_m_w_table !!! t) [0%nat; 2%nat] /\
  forall (blur : R) (GMM_m_w_ : list R) (d : GMMdata) (im id : nat),
    (im < length [5%nat; 6%nat])%nat -> (id < length (GMM_d_m_ d))%nat ->
    let kaux := ([0%nat; 2%nat] !!! im * length (GMM_d_m_ d) + id)%nat in
    let us := calculate_useful_stuff blur GMM_m_w_ d in
    (kaux < length (us_pre_fact us))%nat /\
    (kaux < length (us_inv_cov_md us))%nat.
Proof.
  apply (get_GMM_m_in_tables
           [fun a => if (a =? 5)%nat then "CA"%string else "1NZ"%string]
           [5%nat; 6%nat] [0%nat; 2%nat] [2.49982; 2.20402]).
  reflexivity.
Defined.

End ModelGMM.

(* --------------------------------------------------------------------- *)
(** ** Collective moves, acceptance and regression *)
(* --------------------------------------------------------------------- *)

Section Moves.
Import EMMI.
Local Open Scope R_scope.

Lemma modulo_Vminus_sym (a b : Vector) :
  modulo (Vminus a b) = modulo (Vminus b a).
Proof.
  unfold modulo, Vminus. cbn [component Vector_indexed vec_x vec_y vec_z].
  f_equal. ring.
Qed.

Lemma filter_seq_sorted (P : nat -> Prop) `{!forall x, Decision (P x)} (n : nat) :
  forall a, StronglySorted lt (filter P (seq a n)).
Proof.
  induction n as [|n IH]; intros a; [constructor|].
  cbn [seq]. rewrite filter_cons. destruct (decide (P a)); [|apply IH].
  constructor; [apply IH|].
  apply Forall_forall. intros x Hx.
  apply list_elem_of_filter in Hx. destruct Hx as [_ Hx].
  apply elem_of_seq in Hx. lia.
Qed.

(** X9. The neighborhoods of the collective moves are symmetric: one
    component is listed for another exactly when the other is listed for
    it; each neighborhood lists components of the data GMM in ascending
    order, so none twice. *)
Theorem MCneigh_symmetric (GMM_d_m : list Vector) (MCcut : R) (i j : nat) :
  (i < length GMM_d_m)%nat -> (j < length GMM_d_m)%nat ->
  (j ∈ prepareCollectiveMC GMM_d_m MCcut !!! i <->
   i ∈ prepareCollectiveMC GMM_d_m MCcut !!! j) /\
  StronglySorted lt (prepareCollectiveMC GMM_d_m MCcut !!! i) /\
  Forall (fun k => (k < length GMM_d_m)%nat)
         (prepareCollectiveMC GMM_d_m MCcut !!! i).
Proof.
  intros Hi Hj. split; [|split].
  - rewrite !elem_of_MCneigh by assumption.
    rewrite (modulo_Vminus_sym (GMM_d_m !!! i)). tauto.
  - unfold prepareCollectiveMC. rewrite lookup_total_map_seq by exact Hi.
    apply filter_seq_sorted.
  - apply Forall_forall. intros k Hk.
    apply elem_of_MCneigh in Hk; [|exact Hi]. apply Hk.
Qed.

Lemma MCneigh_symmetric_witness :
  (1%nat ∈ prepareCollectiveMC two_apart 2 !!! 0%nat <->
   0%nat ∈ prepareCollectiveMC two_apart 2 !!! 1%nat) /\
  StronglySorted lt (prepareCollectiveMC two_apart 2 !!! 0%nat) /\
  Forall (fun k => (k < length two_apart)%nat)
         (prepareCollectiveMC two_apart 2 !!! 0%nat).
Proof.
  apply (MCneigh_symmetric two_apart 2 0 1); cbn; lia.
Defined.

(** X10. The Metropolis test of [doAccept] at a positive temperature: a
    move that lowers the energy is accepted without a random number being
    extracted; any other move extracts exactly one number and is accepted
    exactly when that number is below exp(-(newE-oldE)/kbt_), which a
    move that keeps the energy always is when the number is below 1. *)
Theorem doAccept_metropolis (p : Setup) (oldE newE : R) (r : Random) :
  0 < kbt_ p ->
  let u := draws r (cursor r) in
  let next := mkRandom (draws r) (S (cursor r)) in
  (newE < oldE -> doAccept p oldE newE r = (true, r)) /\
  (oldE <= newE ->
   snd (doAccept p oldE newE r) = next /\
   (fst (doAccept p oldE newE r) = true <->
    u < exp (- ((newE - oldE) / kbt_ p)))) /\
  (newE = oldE -> u < 1 -> doAccept p oldE newE r = (true, next)).
Proof.
  intros Hk u next.
  assert (Hi : 0 < / kbt_ p) by (apply Rinv_0_lt_compat; exact Hk).
  unfold doAccept. cbn [RandU01]. fold u. fold next.
  replace 0.0 with 0 by lra.
  split; [|split].
  - intros Hlt. destruct (Rlt_dec ((newE - oldE) / kbt_ p) 0) as [_|N];
      [reflexivity|exfalso]. apply N. unfold Rdiv.
    replace 0 with (0 * / kbt_ p) by ring.
    apply Rmult_lt_compat_r; lra.
  - intros Hle.
    assert (0 <= (newE - oldE) / kbt_ p)
      by (unfold Rdiv; apply Rmult_le_pos; lra).
    destruct (Rlt_dec ((newE - oldE) / kbt_ p) 0) as [N|_]; [lra|].
    destruct (Rlt_dec u (exp (- ((newE - oldE) / kbt_ p)))) as [A|A];
      cbn [fst snd]; (split; [reflexivity|]); split; auto; discriminate.
  - intros -> Hu. replace ((oldE - oldE) / kbt_ p) with 0 by (unfold Rdiv; ring).
    destruct (Rlt_dec 0 0) as [N|_]; [lra|].
    rewrite Ropp_0, exp_0.
    destruct (Rlt_dec u 1) as [_|N]; [reflexivity|contradiction].
Qed.

Lemma doAccept_metropolis_witness :
  let r := mkRandom (fun _ => / 2) 0 in
  let next := mkRandom (fun _ => / 2) 1 in
  (1 < 2 -> doAccept leader_of_two 2 1 r = (true, r)) /\
  (2 <= 2 ->
   snd (doAccept leader_of_two 2 2 r) = next /\
   (fst (doAccept leader_of_two 2 2 r) = true <->
    / 2 < exp (- ((2 - 2) / kbt_ leader_of_two)))) /\
  (2 = 2 -> / 2 < 1 -> doAccept leader_of_two 2 2 r = (true, next)).
Proof.
  intros r next.
  destruct (doAccept_metropolis leader_of_two 2 1 r ltac:(cbn; lra)) as (A & _ & _).
  destruct (doAccept_metropolis leader_of_two 2 2 r ltac:(cbn; lra)) as (_ & B & C).
  split; [exact A|]. split; [exact B|exact C].
Defined.

Lemma floor_index (u : R) (n : nat) :
  0 <= u < 1 -> (0 < n)%nat ->
  (to_unsigned (floor (u * INR n)) < n)%nat.
Proof.
  intros Hu Hn.
  assert (Hn' : 0 < INR n) by (apply lt_0_INR; exact Hn).
  assert (H0 : 0 <= u * INR n) by (apply Rmult_le_pos; lra).
  assert (H1 : u * INR n < INR n).
  { rewrite <- (Rmult_1_l (INR n)) at 2. apply Rmult_lt_compat_r; lra. }
  pose proof (base_Int_part (u * INR n)) as [B1 B2].
  assert (Hz : (0 <= Int_part (u * INR n))%Z).
  { apply le_IZR. apply Rnot_lt_le. intros N.
    assert (IZR (Int_part (u * INR n)) <= -1).
    { apply IZR_le. apply lt_IZR in N. lia. }
    lra. }
  assert (Hlt : (Int_part (u * INR n) < Z.of_nat n)%Z).
  { apply lt_IZR. rewrite <- INR_IZR_INZ. lra. }
  unfold to_unsigned, floor.
  pose proof (Z.mod_pos_bound (Int_part (u * INR n)) (2 ^ 32) ltac:(lia)) as [M0 _].
  pose proof (Z.mod_le (Int_part (u * INR n)) (2 ^ 32) Hz ltac:(lia)) as M1.
  lia.
Qed.

(** X11. One collective move on the sampling worker of averaged replicas,
    with a generator that keeps its contract: the component drawn is a
    valid index of the data GMM, the generator advances by two numbers or
    by three, and either the move is rejected, and neither the
    uncertainties nor the count of accepted moves change, or it is
    accepted, the count goes up by one, the uncertainties of the
    neighborhood of the component drawn take their proposed values and
    all the others keep theirs. *)
Theorem doMonteCarlo_move (p : Setup) (net : Net) (s : State) :
  do_sample p = true -> no_aver_ p = false ->
  unit_draws (random_ s) ->
  (0 < length (GMM_d_m_ (GMM_d p)))%nat ->
  let r := random_ s in
  let n := length (GMM_d_m_ (GMM_d p)) in
  let nGMM := to_unsigned (floor (draws r (cursor r) * INR n)) in
  let shift := dsigma_ p * (2.0 * draws r (S (cursor r)) - 1.0) in
  let neigh := MCneigh_ p !!! nGMM in
  let s' := doMonteCarlo p net s in
  (nGMM < n)%nat /\
  draws (random_ s') = draws r /\
  (cursor (random_ s') = cursor r + 2 \/ cursor (random_ s') = cursor r + 3)%nat /\
  ((sigma_ s' = sigma_ s /\ MCaccept_ s' = MCaccept_ s) \/
   (MCaccept_ s' = S (MCaccept_ s) /\
    length (sigma_ s') = length (sigma_ s) /\
    forall k, (k < length (sigma_ s))%nat ->
      (k ∈ neigh -> sigma_ s' !!! k = proposal p s shift k) /\
      (k ∉ neigh -> sigma_ s' !!! k = sigma_ s !!! k))).
Proof.
  intros Hsample Hna Hu Hn r n nGMM shift neigh s'.
  assert (Hu0 : 0 <= draws r (cursor r) < 1) by (apply Hu; reflexivity).
  pose proof (floor_index _ n Hu0 Hn) as Hlt. fold nGMM in Hlt.
  split; [exact Hlt|].
  subst s'. unfold doMonteCarlo. cbn [RandU01 draws cursor].
  rewrite Hsample, Hna. cbn [andb]. fold r n nGMM.
  assert (E : (nGMM =? n)%nat = false) by (apply Nat.eqb_neq; lia).
  rewrite E. fold shift neigh.
  rewrite cluster_fold. cbn [app].
  unfold doAccept. cbn [RandU01 draws cursor].
  destruct (Rlt_dec _ 0.0) as [D|D];
    [|destruct (Rlt_dec _ (exp _)) as [A|A]];
    cbn [random_ with_random with_sigma sigma_ MCaccept_ draws cursor].
  - split; [reflexivity|]. split; [left; lia|]. right.
    split; [reflexivity|]. split; [apply length_commit|].
    intros k Hk. split; intros Hin.
    + apply commit_proposals_in; assumption.
    + apply commit_proposals_out; assumption.
  - split; [reflexivity|]. split; [right; lia|]. right.
    split; [reflexivity|]. split; [apply length_commit|].
    intros k Hk. split; intros Hin.
    + apply commit_proposals_in; assumption.
    + apply commit_proposals_out; assumption.
  - split; [reflexivity|]. split; [right; lia|]. left.
    split; reflexivity.
Qed.

Lemma doMonteCarlo_move_witness :
  let s' := doMonteCarlo mc_setup quiet_net state_of_two in
  draws (random_ s') = draws (random_ state_of_two) /\
  (cursor (random_ s') = cursor (random_ state_of_two) + 2 \/
   cursor (random_ s') = cursor (random_ state_of_two) + 3)%nat.
Proof.
  assert (U : unit_draws (random_ state_of_two)) by (intros k _; cbn; lra).
  destruct (doMonteCarlo_move mc_setup quiet_net state_of_two
              eq_refl eq_refl U ltac:(cbn; lia)) as (_ & A & B & _).
  split; [exact A|exact B].
Defined.

(** X12. Between the strides of the Monte Carlo, on exchange steps and
    without a positive DSIGMA, [calculate_sigma] leaves the uncertainties,
    the count of accepted moves, the generator and the neighbor list as
    they are, whatever the other processes contribute. *)
Theorem calculate_sigma_no_move (p : Setup) (h : Host) (net : Net) (s : State) :
  dsigma_ p <= 0 \/ Z.rem (getStep h) (MCstride_ p) <> 0%Z
  \/ getExchangeStep h = true ->
  let s' := fst (calculate_sigma p h net s) in
  sigma_ s' = sigma_ s /\ MCaccept_ s' = MCaccept_ s /\
  random_ s' = random_ s /\ nl_ s' = nl_ s /\ first_time_ s' = first_time_ s.
Proof.
  intros H s'. subst s'. unfold calculate_sigma.
  destruct (gather_sigma p net s) as [ovmd inv_s2].
  assert (E : Rltb 0 (dsigma_ p) && (Z.rem (getStep h) (MCstride_ p) =? 0)%Z
              && negb (getExchangeStep h) = false).
  { destruct H as [H|[H|H]].
    - apply Rltb_false in H. rewrite H. reflexivity.
    - apply Z.eqb_neq in H. rewrite H. apply andb_false_iff. left.
      apply andb_false_r.
    - rewrite H. apply andb_false_r. }
  cbv zeta. rewrite E.
  match goal with
  | |- context [if ?b then with_MCfirst _ _ else _] => destruct b
  end; cbn; repeat split.
Qed.

Lemma calculate_sigma_no_move_witness :
  let s' := fst (calculate_sigma leader_of_two step_0 net_of_two state_of_two) in
  sigma_ s' = sigma_ state_of_two /\ MCaccept_ s' = MCaccept_ state_of_two /\
  random_ s' = random_ state_of_two /\ nl_ s' = nl_ state_of_two /\
  first_time_ s' = first_time_ state_of_two.
Proof.
  apply (calculate_sigma_no_move leader_of_two step_0 net_of_two state_of_two).
  left. cbn. lra.
Defined.

Lemma for_sum_minus (n : nat) (f g : nat -> R) :
  for_sum n (fun i => f i - g i) = for_sum n f - for_sum n g.
Proof.
  induction n as [|n IH]; [unfold for_sum; cbn; lra|].
  rewrite !for_sum_S, IH. lra.
Qed.

(** The misfit is a parabola in the scale. *)
Lemma misfit_parabola (n : nat) (w m d : nat -> R) (scale : R) :
  misfit n w m d scale
  = scale * scale * for_sum n (fun i => m i * m i * w i)
    - 2 * scale * for_sum n (fun i => m i * d i * w i)
    + for_sum n (fun i => d i * d i * w i).
Proof.
  unfold misfit.
  rewrite <- !for_sum_scal, <- for_sum_minus, <- for_sum_plus.
  apply for_sum_ext. intros i _. ring.
Qed.

Lemma parabola_minimum (Bn Bd D s : R) :
  0 < Bd ->
  Bn / Bd * (Bn / Bd) * Bd - 2 * (Bn / Bd) * Bn + D
  <= s * s * Bd - 2 * s * Bn + D.
Proof.
  intros Hd.
  assert (E : s * s * Bd - 2 * s * Bn + D
              - (Bn / Bd * (Bn / Bd) * Bd - 2 * (Bn / Bd) * Bn + D)
              = Bd * ((s - Bn / Bd) * (s - Bn / Bd))) by (field; lra).
  pose proof (Rle_0_sqr (s - Bn / Bd)) as Q. unfold Rsqr in Q.
  assert (0 <= Bd * ((s - Bn / Bd) * (s - Bn / Bd)))
    by (apply Rmult_le_pos; lra).
  lra.
Qed.

(** X13. The scale that the regression returns is always positive, and
    whenever it is not the fallback 1 of a sum that is not positive it is
    the least-squares scale: no other scale gives a smaller sum of the
    squared deviations between the scaled model overlaps and the data
    overlaps, weighted by [inv_s2] in the weighted version and unweighted
    in the other. *)
Theorem doRegression_least_squares (p : Setup) (ovmd inv_s2 : list R) :
  let n := length ovmd in
  let m := fun i => ovmd !!! i in
  let d := fun i => ovdd_ p !!! i in
  let w := fun i => inv_s2 !!! i in
  (0 < doRegression_weighted p ovmd inv_s2 /\ 0 < doRegression p ovmd) /\
  (0 < for_sum n (fun i => m i * m i * w i) ->
   0 < for_sum n (fun i => m i * d i * w i) ->
   forall scale,
     misfit n w m d (doRegression_weighted p ovmd inv_s2)
     <= misfit n w m d scale) /\
  (0 < for_sum n (fun i => m i * m i) ->
   0 < for_sum n (fun i => m i * d i) ->
   forall scale,
     misfit n (fun _ => 1) m d (doRegression p ovmd)
     <= misfit n (fun _ => 1) m d scale).
Proof.
  intros n m d w.
  assert (P : forall Bn Bd, 0 < (if Rleb Bd 0 || Rleb Bn 0 then 1 else Bn / Bd)).
  { intros Bn Bd. destruct (Rleb Bd 0) eqn:E1; [cbn; lra|].
    destruct (Rleb Bn 0) eqn:E2; [cbn; lra|]. cbn.
    apply Rleb_false in E1, E2. apply Rdiv_lt_0_compat; assumption. }
  split; [split; apply P|]. split.
  - intros Hd Hn scale. unfold doRegression_weighted. fold n.
    change (for_sum n (fun i => ovmd !!! i * ovdd_ p !!! i * inv_s2 !!! i))
      with (for_sum n (fun i => m i * d i * w i)).
    change (for_sum n (fun i => ovmd !!! i * ovmd !!! i * inv_s2 !!! i))
      with (for_sum n (fun i => m i * m i * w i)).
    destruct (regression_branches (for_sum n (fun i => m i * d i * w i))
                                  (for_sum n (fun i => m i * m i * w i)))
      as [_ B].
    rewrite (B Hd Hn), !misfit_parabola. apply parabola_minimum. exact Hd.
  - intros Hd Hn scale. unfold doRegression. fold n.
    change (for_sum n (fun i => ovmd !!! i * ovdd_ p !!! i))
      with (for_sum n (fun i => m i * d i)).
    change (for_sum n (fun i => ovmd !!! i * ovmd !!! i))
      with (for_sum n (fun i => m i * m i)).
    destruct (regression_branches (for_sum n (fun i => m i * d i))
                                  (for_sum n (fun i => m i * m i)))
      as [_ B].
    rewrite (B Hd Hn), !misfit_parabola.
    rewrite (for_sum_ext n (fun i => m i * m i * 1) (fun i => m i * m i))
      by (intros; ring).
    rewrite (for_sum_ext n (fun i => m i * d i * 1) (fun i => m i * d i))
      by (intros; ring).
    apply parabola_minimum. exact Hd.
Qed.

Lemma doRegression_least_squares_witness :
  misfit 2 (fun i => [1; 1] !!! i) (fun i => [1; 1] !!! i)
         (fun i => ovdd_ leader_of_two !!! i)
         (doRegression_weighted leader_of_two [1; 1] [1; 1])
  <= misfit 2 (fun i => [1; 1] !!! i) (fun i => [1; 1] !!! i)
            (fun i => ovdd_ leader_of_two !!! i) 1.
Proof.
  destruct (doRegression_least_squares leader_of_two [1; 1] [1; 1])
    as (_ & A & _).
  apply A.
  - cbn [length]. rewrite for_sum_2. cbn. lra.
  - cbn [length]. rewrite for_sum_2. cbn. lra.
Defined.

(** X14. On the leader of a replica whose workers add nothing, the score
    of the sampled mode is never negative when the temperature and the
    inverse variances that the other replicas contribute are not. *)
Theorem calculate_sigma_score_nonneg (p : Setup) (h : Host) (net : Net)
    (s : State) :
  rank_ p = 0%nat -> silent (co_ovmd net) -> silent (co_inv_s2 net) ->
  0 <= kbt_ p -> (forall i, 0 <= ms_inv_s2 net !!! i) ->
  0 <= snd (calculate_sigma p h net s).
Proof.
  intros Hr Ho Hi Hk Hms.
  rewrite calculate_sigma_score by assumption. cbv zeta.
  apply Rmult_le_pos; [lra|].
  apply for_sum_nonneg. intros i _.
  apply Rmult_le_pos; [apply square_nonneg|].
  assert (Hv : 0 <= inv_variance p s i).
  { unfold inv_variance. unfold Rdiv. apply Rmult_le_pos; [lra|].
    apply Rinv_nonneg.
    pose proof (square_nonneg (sigma_mean_ p !!! i)).
    pose proof (square_nonneg (sigma_ s !!! i)). lra. }
  unfold weight. destruct (averaging p); [|exact Hv].
  specialize (Hms i). lra.
Qed.

Lemma calculate_sigma_score_nonneg_witness :
  0 <= snd (calculate_sigma leader_of_two step_0 net_of_two state_of_two).
Proof.
  apply (calculate_sigma_score_nonneg leader_of_two step_0 net_of_two state_of_two).
  - reflexivity.
  - apply silent_nil.
  - apply silent_nil.
  - cbn. lra.
  - intros i. cbn [net_of_two ms_inv_s2]. apply lookup_total_nonneg.
    repeat constructor; lra.
Defined.

End Moves.

(* --------------------------------------------------------------------- *)
(** ** The neighbor list and the model overlaps *)
(* --------------------------------------------------------------------- *)

Section ModelOverlaps.
Import EMMI.
Local Open Scope R_scope.

(** *** The atoms of a map *)

Lemma In_map_assign (k : R) (v : nat) (m : ov_map) (e : R * nat) :
  In e (map_assign k v m) -> e = (k, v) \/ In e m.
Proof.
  induction m as [|[k' v'] m IH]; cbn.
  - intros [<-|[]]. left. reflexivity.
  - destruct (Rlt_dec k k'); [|destruct (Rlt_dec k' k)]; cbn.
    + intros [<-|H]; auto.
    + intros [<-|H]; auto. destruct (IH H); auto.
    + intros [<-|H]; auto.
Qed.

Lemma NoDup_map_assign (k : R) (v : nat) (m : ov_map) :
  List.NoDup (map snd m) -> ~ In v (map snd m) ->
  List.NoDup (map snd (map_assign k v m)).
Proof.
  induction m as [|[k' v'] m IH]; cbn; intros Hn Hv.
  - apply List.NoDup_cons; [intros H; exact H|apply List.NoDup_nil].
  - apply NoDup_cons_iff in Hn. destruct Hn as [Hv' Hn].
    destruct (Rlt_dec k k'); [|destruct (Rlt_dec k' k)]; cbn.
    + constructor; [|constructor; assumption]. cbn. exact Hv.
    + constructor; [|apply IH; [exact Hn|tauto]].
      intros Hin. apply in_map_iff in Hin. destruct Hin as (e & He & Hin).
      apply In_map_assign in Hin. destruct Hin as [->|Hin].
      * cbn in He. apply Hv. left. symmetry. exact He.
      * apply Hv'. rewrite <- He. apply in_map. exact Hin.
    + constructor; [tauto|exact Hn].
Qed.

Lemma In_map_erase (k : R) (m : ov_map) (e : R * nat) :
  In e (map_erase k m) -> In e m.
Proof.
  induction m as [|[k' v'] m IH]; cbn; [tauto|].
  destruct (Req_dec_T k k'); cbn; [tauto|]. intros [<-|H]; auto.
Qed.

Lemma NoDup_map_erase (k : R) (m : ov_map) :
  List.NoDup (map snd m) -> List.NoDup (map snd (map_erase k m)).
Proof.
  induction m as [|[k' v'] m IH]; cbn; intros Hn; [constructor|].
  apply NoDup_cons_iff in Hn. destruct Hn as [Hv Hn].
  destruct (Req_dec_T k k'); cbn; [exact Hn|].
  constructor; [|apply IH, Hn].
  intros Hin. apply in_map_iff in Hin. destruct Hin as (e & He & Hin).
  apply In_map_erase in Hin. apply Hv. rewrite <- He. apply in_map. exact Hin.
Qed.

Lemma integrate_atoms (ov_l : list R) (ov_cut : R) :
  forall (res : R) (m : ov_map),
    (forall e, In e (integrate ov_l res ov_cut m) -> In e m) /\
    (List.NoDup (map snd m) -> List.NoDup (map snd (integrate ov_l res ov_cut m))).
Proof.
  induction ov_l as [|x ov_l IH]; intros res m; cbn; [tauto|].
  destruct (Rle_dec ov_cut (res + x)); [tauto|].
  destruct (IH (res + x) (map_erase x m)) as [I1 I2]. split.
  - intros e He. apply (In_map_erase x), I1, He.
  - intros Hn. apply I2, NoDup_map_erase, Hn.
Qed.

Lemma atom_step_atoms (p : Setup) (h : Host) (id im : nat)
    (a : list R * ov_map * R) :
  atoms_below im a -> atoms_below (S im) (atom_step p h id a im).
Proof.
  destruct a as [[ov_l ov_m] ov_tot]. unfold atoms_below. cbn [fst snd].
  intros [Hb Hn]. unfold atom_step.
  destruct (_ <=? _)%nat; cbn [fst snd].
  - split; [|exact Hn]. intros e He. specialize (Hb e He). lia.
  - split.
    + intros e He. apply In_map_assign in He. destruct He as [->|He].
      * cbn. lia.
      * specialize (Hb e He). lia.
    + apply NoDup_map_assign; [exact Hn|].
      intros Hin. apply in_map_iff in Hin. destruct Hin as (e & He & Hin).
      specialize (Hb e Hin). lia.
Qed.

Lemma candidates_atoms (p : Setup) (h : Host) (id : nat) :
  atoms_below (length (GMM_m_type_ p)) (candidates p h id).
Proof.
  unfold candidates.
  induction (length (GMM_m_type_ p)) as [|k IH].
  - split; [intros e He; destruct He|apply List.NoDup_nil].
  - rewrite seq_S, fold_left_app. cbn [fold_left Nat.add].
    apply atom_step_atoms, IH.
Qed.

Lemma retained_atoms (p : Setup) (h : Host) (id : nat) :
  (forall e, In e (retained p h id) -> (snd e < length (GMM_m_type_ p))%nat) /\
  List.NoDup (map snd (retained p h id)).
Proof.
  pose proof (candidates_atoms p h id) as [Hb Hn]. unfold retained.
  destruct (candidates p h id) as [[ov_l ov_m] ov_tot]. cbn [fst snd] in *.
  destruct ov_l as [|o ov_l]; [split; [intros e He; destruct He|apply List.NoDup_nil]|].
  destruct (integrate_atoms (sort (o :: ov_l)) (ov_tot * nl_cutoff_ p) 0.0 ov_m)
    as [I1 I2].
  split; [|apply I2, Hn]. intros e He. apply Hb, I1, He.
Qed.

(** *** Entries as pairs *)

Lemma entry_decode (id im M : nat) :
  (im < M)%nat ->
  ((id * M + im) / M = id)%nat /\ ((id * M + im) mod M = im)%nat.
Proof.
  intros H. split.
  - symmetry. apply (Nat.div_unique _ _ _ im); lia.
  - symmetry. apply (Nat.mod_unique _ _ id); lia.
Qed.

Lemma NoDup_flat_map_tagged {A : Type} (f : A -> list nat) (tag : nat -> A)
    (l : list A) :
  List.NoDup l -> (forall x, In x l -> List.NoDup (f x)) ->
  (forall x e, In x l -> In e (f x) -> tag e = x) ->
  List.NoDup (flat_map f l).
Proof.
  induction l as [|x l IH]; intros Hn Hf Ht; cbn; [constructor|].
  apply NoDup_cons_iff in Hn. destruct Hn as [Hx Hn].
  apply List.NoDup_app.
  - apply Hf. left. reflexivity.
  - apply IH; [exact Hn| |].
    + intros y Hy. apply Hf. right. exact Hy.
    + intros y e Hy. apply Ht. right. exact Hy.
  - intros e He Hin.
    apply in_flat_map in Hin. destruct Hin as (y & Hy & Hin).
    apply Hx. rewrite <- (Ht x e) by (auto; left; reflexivity).
    rewrite (Ht y e) by (auto; right; exact Hy). exact Hy.
Qed.

Lemma NoDup_map_shift (c : nat) (l : list (R * nat)) :
  List.NoDup (map snd l) -> List.NoDup (map (fun e => (c + snd e)%nat) l).
Proof.
  induction l as [|e l IH]; cbn; intros Hn; [constructor|].
  apply NoDup_cons_iff in Hn. destruct Hn as [He Hn].
  constructor; [|apply IH, Hn].
  intros Hin. apply in_map_iff in Hin. destruct Hin as (e' & E & Hin).
  apply He. replace (snd e) with (snd e') by lia. apply in_map. exact Hin.
Qed.

Lemma In_nl_local (p : Setup) (h : Host) (rank x : nat) :
  In x (nl_local p h rank) ->
  exists id e, (id < length (GMM_d_m_ (GMM_d p)))%nat /\
               (id mod size_ p = rank)%nat /\ In e (retained p h id) /\
               (snd e < length (GMM_m_type_ p))%nat /\
               x = (id * length (GMM_m_type_ p) + snd e)%nat.
Proof.
  unfold nl_local. intros Hx.
  apply in_flat_map in Hx. destruct Hx as (id & Hid & Hx).
  apply filter_In in Hid. destruct Hid as [Hid Hr].
  apply in_seq in Hid. apply Nat.eqb_eq in Hr.
  apply in_map_iff in Hx. destruct Hx as (e & <- & He).
  exists id, e. split; [lia|]. split; [exact Hr|]. split; [exact He|].
  split; [|reflexivity]. apply (retained_atoms p h id), He.
Qed.

(** X15. The neighbor list that [update_neighbor_list] builds is a list
    of pairs without repetition: every entry decodes, by division by the
    number of atoms and its remainder, into a component of the data GMM
    and an atom that the cutoff has retained for that component, and no
    entry occurs twice, so that no atom is counted twice in a model
    overlap. *)
Theorem update_neighbor_list_pairs (p : Setup) (h : Host) (s : State) :
  let nl := nl_ (update_neighbor_list p h s) in
  let GMM_m_size := length (GMM_m_type_ p) in
  NoDup nl /\
  forall x, x ∈ nl ->
    (x / GMM_m_size < length (GMM_d_m_ (GMM_d p)))%nat /\
    (x mod GMM_m_size < GMM_m_size)%nat /\
    exists ov, (ov, (x mod GMM_m_size)%nat) ∈ retained p h (x / GMM_m_size).
Proof.
  intros nl M. subst nl. unfold update_neighbor_list. cbn [nl_ with_nl].
  split.
  - apply NoDup_ListNoDup.
    apply (NoDup_flat_map_tagged _ (fun x => ((x / M) mod size_ p)%nat)).
    + apply seq_NoDup.
    + intros rank _. unfold nl_local. fold M.
      apply (NoDup_flat_map_tagged _ (fun x => (x / M)%nat)).
      * apply List.NoDup_filter, seq_NoDup.
      * intros id _. apply NoDup_map_shift, retained_atoms.
      * intros id e _ He. apply in_map_iff in He.
        destruct He as (e' & <- & He).
        apply entry_decode. apply (retained_atoms p h id), He.
    + intros rank x _ Hx. apply In_nl_local in Hx.
      destruct Hx as (id & e & _ & Hr & _ & Hlt & ->).
      fold M in Hlt |- *.
      destruct (entry_decode id (snd e) M Hlt) as [-> _]. exact Hr.
  - intros x Hx. apply list_elem_of_In, in_flat_map in Hx.
    destruct Hx as (rank & _ & Hx). apply In_nl_local in Hx.
    destruct Hx as (id & e & Hid & _ & He & Hlt & ->). fold M in Hlt |- *.
    destruct (entry_decode id (snd e) M Hlt) as [-> ->].
    split; [exact Hid|]. split; [exact Hlt|].
    exists (fst e). apply list_elem_of_In. destruct e. exact He.
Qed.

(** *** The cycle of [calculate_overlap] *)

Lemma overlap_step_eq (p : Setup) (h : Host) (nl : list nat)
    (ovmd : list R) (der : list Vector) (i : nat) :
  let M := length (GMM_m_type_ p) in
  let id := (nl !!! i / M)%nat in
  let im := (nl !!! i mod M)%nat in
  overlap_step p h nl (ovmd, der) i
  = (<[id := ovmd !!! id + exact_overlap p h id im]> ovmd,
     <[i := exact_overlap_der p h id im]> der).
Proof.
  cbv zeta. unfold overlap_step, exact_overlap, exact_overlap_der.
  destruct (get_overlap _ _ _ _ _ _). reflexivity.
Qed.

Lemma overlap_fold (p : Setup) (h : Host) (nl : list nat) (id : nat) :
  let M := length (GMM_m_type_ p) in
  forall (idx : list nat) (ovmd : list R) (der : list Vector),
    (id < length ovmd)%nat ->
    let r := fold_left (overlap_step p h nl) idx (ovmd, der) in
    length (fst r) = length ovmd /\
    length (snd r) = length der /\
    fst r !!! id
    = ovmd !!! id
      + accumulate (map (fun i => exact_overlap p h id (nl !!! i mod M))
                        (List.filter (fun i => (nl !!! i / M =? id)%nat) idx)) /\
    forall i, In i idx -> (i < length der)%nat ->
      snd r !!! i = exact_overlap_der p h (nl !!! i / M) (nl !!! i mod M).
Proof.
  intros M. induction idx as [|i idx IH]; intros ovmd der Hid r.
  - subst r. cbn [fold_left fst snd List.filter map]. rewrite accumulate_nil.
    split; [reflexivity|]. split; [reflexivity|]. split; [lra|].
    intros i Hi. destruct Hi.
  - subst r. cbn [fold_left]. rewrite overlap_step_eq. fold M.
    set (idi := (nl !!! i / M)%nat). set (imi := (nl !!! i mod M)%nat).
    specialize (IH (<[idi := ovmd !!! idi + exact_overlap p h idi imi]> ovmd)
                   (<[i := exact_overlap_der p h idi imi]> der)).
    rewrite !length_insert in IH. specialize (IH Hid).
    destruct IH as (L1 & L2 & V & D).
    split; [exact L1|]. split; [exact L2|]. split.
    + rewrite V. cbn [List.filter]. fold idi.
      destruct (Nat.eqb_spec idi id) as [E|E].
      * rewrite E. rewrite list_lookup_total_insert_eq by exact Hid.
        cbn [map]. rewrite accumulate_cons. fold imi. rewrite <- E. lra.
      * rewrite list_lookup_total_insert_ne by exact E. reflexivity.
    + intros j Hj Hlt.
      destruct (in_dec Nat.eq_dec j idx) as [I|I]; [apply D; assumption|].
      destruct Hj as [->|Hj]; [|contradiction].
      assert (G : forall (js : list nat) (a : list R * list Vector),
                 ~ In j js -> (j < length (snd a))%nat ->
                 snd (fold_left (overlap_step p h nl) js a) !!! j = snd a !!! j).
      { clear. induction js as [|k js IH]; intros [o d] Hn Hl; [reflexivity|].
        cbn [fold_left]. rewrite overlap_step_eq. cbn [snd] in Hl. rewrite IH.
        - cbn [snd]. apply list_lookup_total_insert_ne.
          intros ->. apply Hn. left. reflexivity.
        - intros H. apply Hn. right. exact H.
        - cbn [snd]. rewrite length_insert. exact Hl. }
      rewrite G by (cbn [snd]; rewrite ?length_insert; assumption).
      cbn [snd]. apply list_lookup_total_insert_eq. exact Hlt.
Qed.

Lemma overlap_fold_der (p : Setup) (h : Host) (nl : list nat) :
  let M := length (GMM_m_type_ p) in
  forall (idx : list nat) (a : list R * list Vector) (i : nat),
    In i idx -> (i < length (snd a))%nat ->
    snd (fold_left (overlap_step p h nl) idx a) !!! i
    = exact_overlap_der p h (nl !!! i / M) (nl !!! i mod M).
Proof.
  intros M.
  assert (G : forall (j : nat) (js : list nat) (a : list R * list Vector),
             ~ In j js -> (j < length (snd a))%nat ->
             snd (fold_left (overlap_step p h nl) js a) !!! j = snd a !!! j).
  { intros j. induction js as [|k js IH]; intros [o d] Hn Hl; [reflexivity|].
    cbn [fold_left]. rewrite overlap_step_eq. cbn [snd] in Hl. rewrite IH.
    - cbn [snd]. apply list_lookup_total_insert_ne.
      intros ->. apply Hn. left. reflexivity.
    - intros H. apply Hn. right. exact H.
    - cbn [snd]. rewrite length_insert. exact Hl. }
  induction idx as [|j idx IH]; intros [o d] i Hin Hl; [destruct Hin|].
  cbn [fold_left]. rewrite overlap_step_eq. cbn [snd] in Hl.
  destruct (in_dec Nat.eq_dec i idx) as [I|I].
  - apply IH; [exact I|]. cbn [snd]. rewrite length_insert. exact Hl.
  - destruct Hin as [->|Hin]; [|contradiction].
    rewrite G by (cbn [snd]; rewrite ?length_insert; assumption).
    cbn [snd]. apply list_lookup_total_insert_eq. exact Hl.
Qed.

Lemma filter_true {A : Type} (f : A -> bool) (l : list A) :
  (forall x, In x l -> f x = true) -> List.filter f l = l.
Proof.
  induction l as [|x l IH]; intros H; [reflexivity|].
  cbn. rewrite (H x) by (left; reflexivity). f_equal.
  apply IH. intros y Hy. apply H. right. exact Hy.
Qed.

Lemma filter_false {A : Type} (f : A -> bool) (l : list A) :
  (forall x, In x l -> f x = false) -> List.filter f l = [].
Proof.
  induction l as [|x l IH]; intros H; [reflexivity|].
  cbn. rewrite (H x) by (left; reflexivity).
  apply IH. intros y Hy. apply H. right. exact Hy.
Qed.

Lemma strided_single (len : nat) : strided 0 1 len = seq 0 len.
Proof.
  unfold strided. apply filter_true. intros x _.
  rewrite Nat.mod_1_r. reflexivity.
Qed.

Lemma map_filter_lookup {B : Type} (nl : list nat) (g : nat -> B)
    (f : nat -> bool) :
  map (fun i => g (nl !!! i))
      (List.filter (fun i => f (nl !!! i)) (seq 0 (length nl)))
  = map g (List.filter f nl).
Proof.
  assert (G : forall idx : list nat,
             map (fun i => g (nl !!! i)) (List.filter (fun i => f (nl !!! i)) idx)
             = map g (List.filter f (map (fun i => nl !!! i) idx))).
  { induction idx as [|i idx IH]; [reflexivity|].
    cbn. destruct (f (nl !!! i)); cbn; rewrite IH; reflexivity. }
  rewrite G. do 2 f_equal.
  apply nth_ext with (d := 0%nat) (d' := 0%nat).
  - rewrite length_map, length_seq. reflexivity.
  - intros k Hk. rewrite length_map, length_seq in Hk.
    rewrite (nth_indep _ _ (nl !!! 0%nat))
      by (rewrite length_map, length_seq; exact Hk).
    rewrite (map_nth (fun i => nl !!! i)), seq_nth by exact Hk.
    cbn. rewrite lookup_total_nth. apply nth_indep. exact Hk.
Qed.

Lemma first_time_after (p : Setup) (h : Host) (s : State) :
  first_time_ (if nl_due p h s
               then with_first_time (update_neighbor_list p h s) false
               else s) = false.
Proof.
  unfold nl_due. destruct (first_time_ s) eqn:E; cbn; [reflexivity|].
  destruct (getExchangeStep h || _); cbn; [reflexivity|exact E].
Qed.

(** What one worker alone leaves in [ovmd_]. *)
Lemma calculate_overlap_single (p : Setup) (h : Host)
    (co_ovmd : list R) (co_der : list Vector) (s : State) (id : nat) :
  size_ p = 1%nat -> rank_ p = 0%nat -> (id < length (ovmd_ s))%nat ->
  let s1 := if nl_due p h s
            then with_first_time (update_neighbor_list p h s) false else s in
  let s' := fst (calculate_overlap p h co_ovmd co_der s) in
  let M := length (GMM_m_type_ p) in
  nl_ s' = nl_ s1 /\
  ovmd_ s' !!! id
  = accumulate (map (fun x => exact_overlap p h id (x mod M))
                    (List.filter (fun x => (x / M =? id)%nat) (nl_ s1))).
Proof.
  intros Hsize Hrank Hid s1 s' M. subst s'. unfold calculate_overlap.
  fold s1. cbv zeta. rewrite Hsize, Hrank. cbn [Nat.ltb Nat.leb].
  rewrite strided_single.
  assert (L : length (ovmd_ s1) = length (ovmd_ s)).
  { subst s1. destruct (nl_due p h s); reflexivity. }
  pose proof (overlap_fold p h (nl_ s1) id (seq 0 (length (nl_ s1)))
                (map (fun _ => 0.0) (ovmd_ s1))
                (replicate (length (nl_ s1)) (mkVector 0 0 0))) as F.
  rewrite length_map, L in F. specialize (F Hid). cbv zeta in F.
  destruct F as (_ & _ & V & _).
  destruct (fold_left _ _ _) as [ovmd der]. cbn [fst snd] in *.
  split; [reflexivity|]. cbn [ovmd_ with_overlaps]. rewrite V.
  rewrite (lookup_total_map_lt (fun _ : R => 0.0)) by (rewrite L; exact Hid).
  fold M.
  rewrite (map_filter_lookup (nl_ s1) (fun x => exact_overlap p h id (x mod M))
                             (fun x => (x / M =? id)%nat)).
  lra.
Qed.

(** X16. On a single worker [calculate_overlap] leaves in [ovmd_], for
    every component of the data GMM, the sum of the overlaps of that
    component with the atoms that the neighbor list in force gives it, an
    atom that is not listed contributing nothing; the list is never left
    marked for a rebuild, and the uncertainties, the scale and the
    generator are not touched. *)
Theorem calculate_overlap_sum (p : Setup) (h : Host)
    (co_ovmd : list R) (co_der : list Vector) (s : State) (id : nat) :
  size_ p = 1%nat -> rank_ p = 0%nat -> (id < length (ovmd_ s))%nat ->
  let s' := fst (calculate_overlap p h co_ovmd co_der s) in
  let M := length (GMM_m_type_ p) in
  ovmd_ s' !!! id
  = accumulate (map (fun x => exact_overlap p h id (x mod M))
                    (List.filter (fun x => (x / M =? id)%nat) (nl_ s'))) /\
  (nl_due p h s = false -> nl_ s' = nl_ s) /\
  first_time_ s' = false /\
  sigma_ s' = sigma_ s /\ scale_ s' = scale_ s /\ random_ s' = random_ s.
Proof.
  intros Hsize Hrank Hid s' M.
  destruct (calculate_overlap_single p h co_ovmd co_der s id Hsize Hrank Hid)
    as [N V].
  fold s' M in N, V. split; [rewrite N; exact V|].
  split; [intros E; rewrite N, E; reflexivity|].
  subst s'. unfold calculate_overlap. cbv zeta.
  pose proof (first_time_after p h s) as T.
  destruct (fold_left _ _ _) as [ovmd der].
  rewrite Hsize. cbn [Nat.ltb Nat.leb fst].
  cbn [first_time_ sigma_ scale_ random_ with_overlaps].
  split; [exact T|].
  destruct (nl_due p h s); repeat split.
Qed.

Lemma calculate_overlap_sum_witness :
  let s' := fst (calculate_overlap (nl_setup 1) atoms_at_mean [] [] far_state) in
  first_time_ s' = false /\ sigma_ s' = sigma_ far_state /\
  scale_ s' = scale_ far_state /\ random_ s' = random_ far_state.
Proof.
  destruct (calculate_overlap_sum (nl_setup 1) atoms_at_mean [] [] far_state 0
              eq_refl eq_refl ltac:(cbn; lia)) as (_ & _ & A & B & C & D).
  split; [exact A|]. split; [exact B|]. split; [exact C|exact D].
Defined.

Lemma filter_blocks (M id : nat) (block : nat -> list nat) (l : list nat) :
  (forall id' x, In x (block id') -> (x / M)%nat = id') ->
  List.NoDup l ->
  List.filter (fun x => (x / M =? id)%nat) (flat_map block l)
  = if in_dec Nat.eq_dec id l then block id else [].
Proof.
  intros Hb. induction l as [|y l IH]; intros Hn; [reflexivity|].
  apply NoDup_cons_iff in Hn. destruct Hn as [Hy Hn].
  cbn [flat_map]. rewrite List.filter_app, (IH Hn).
  destruct (Nat.eq_dec y id) as [->|Hne].
  - rewrite filter_true
      by (intros x Hx; apply Nat.eqb_eq, (Hb id), Hx).
    destruct (in_dec Nat.eq_dec id l) as [I|_]; [contradiction|].
    destruct (in_dec Nat.eq_dec id (id :: l)) as [_|N];
      [apply app_nil_r|exfalso; apply N; left; reflexivity].
  - rewrite filter_false
      by (intros x Hx; apply Nat.eqb_neq; rewrite (Hb y x Hx); exact Hne).
    cbn [app].
    destruct (in_dec Nat.eq_dec id l) as [I|I];
      destruct (in_dec Nat.eq_dec id (y :: l)) as [J|J]; try reflexivity.
    + exfalso. apply J. right. exact I.
    + exfalso. destruct J as [J|J]; [apply Hne, J|apply I, J].
Qed.

(** X17. When [calculate_overlap] rebuilds the neighbor list (at the first
    evaluation, on exchange steps and every NL_STRIDE steps), what a
    single worker leaves in [ovmd_] for a component is the sum of the
    overlaps of that component with the atoms that the cutoff of
    [update_neighbor_list] has retained for it, each computed by
    [get_overlap] at the positions of the step. *)
Theorem calculate_overlap_rebuilt (p : Setup) (h : Host)
    (co_ovmd : list R) (co_der : list Vector) (s : State) (id : nat) :
  size_ p = 1%nat -> rank_ p = 0%nat -> nl_due p h s = true ->
  length (ovmd_ s) = length (GMM_d_m_ (GMM_d p)) ->
  (id < length (GMM_d_m_ (GMM_d p)))%nat ->
  let s' := fst (calculate_overlap p h co_ovmd co_der s) in
  ovmd_ s' !!! id
  = accumulate (map (fun e => exact_overlap p h id (snd e)) (retained p h id)).
Proof.
  intros Hsize Hrank Hdue Hlen Hid s'.
  assert (Hid' : (id < length (ovmd_ s))%nat) by (rewrite Hlen; exact Hid).
  destruct (calculate_overlap_single p h co_ovmd co_der s id Hsize Hrank Hid')
    as [_ V].
  fold s' in V. rewrite V. rewrite Hdue.
  cbn [nl_ with_first_time]. unfold update_neighbor_list. cbn [nl_ with_nl].
  rewrite Hsize. cbn [seq flat_map]. rewrite app_nil_r.
  unfold nl_local. rewrite Hsize.
  rewrite (filter_true (fun id0 => (id0 mod 1 =? 0)%nat))
    by (intros x _; rewrite Nat.mod_1_r; reflexivity).
  set (M := length (GMM_m_type_ p)).
  rewrite (filter_blocks M id
             (fun id0 => map (fun e => (id0 * M + snd e)%nat) (retained p h id0))).
  - destruct (in_dec Nat.eq_dec id (seq 0 (length (GMM_d_m_ (GMM_d p)))))
      as [_|N]; [|exfalso; apply N, in_seq; lia].
    rewrite map_map. f_equal. apply map_ext_in. intros e He.
    f_equal. apply entry_decode, (retained_atoms p h id), He.
  - intros id' x Hx. apply in_map_iff in Hx. destruct Hx as (e & <- & He).
    apply entry_decode, (retained_atoms p h id'), He.
  - apply seq_NoDup.
Qed.

Lemma calculate_overlap_rebuilt_witness :
  ovmd_ (fst (calculate_overlap (nl_setup 1) atoms_at_mean [] [] far_state)) !!! 0%nat
  = accumulate (map (fun e => exact_overlap (nl_setup 1) atoms_at_mean 0 (snd e))
                    (retained (nl_setup 1) atoms_at_mean 0)).
Proof.
  apply (calculate_overlap_rebuilt (nl_setup 1) atoms_at_mean [] [] far_state 0).
  - reflexivity.
  - reflexivity.
  - reflexivity.
  - reflexivity.
  - cbn. lia.
Defined.

(** X18. On a single worker [calculate_overlap] returns [ovmd_der_] with
    one cell for each entry of the neighbor list in force, and the cell of
    an entry holds the derivative that [get_overlap] computes for the
    component and the atom that the entry decodes to. *)
Theorem calculate_overlap_derivatives (p : Setup) (h : Host)
    (co_ovmd : list R) (co_der : list Vector) (s : State) (i : nat) :
  size_ p = 1%nat -> rank_ p = 0%nat -> (0 < length (ovmd_ s))%nat ->
  let s' := fst (calculate_overlap p h co_ovmd co_der s) in
  let ovmd_der := snd (calculate_overlap p h co_ovmd co_der s) in
  let M := length (GMM_m_type_ p) in
  length ovmd_der = length (nl_ s') /\
  ((i < length (nl_ s'))%nat ->
   ovmd_der !!! i
   = exact_overlap_der p h (nl_ s' !!! i / M) (nl_ s' !!! i mod M)).
Proof.
  intros Hsize Hrank Hpos s' ovmd_der M. subst s' ovmd_der.
  unfold calculate_overlap. cbv zeta.
  set (s1 := if nl_due p h s
             then with_first_time (update_neighbor_list p h s) false else s).
  rewrite Hsize, Hrank. cbn [Nat.ltb Nat.leb]. rewrite strided_single.
  assert (L : length (ovmd_ s1) = length (ovmd_ s)).
  { subst s1. destruct (nl_due p h s); reflexivity. }
  pose proof (overlap_fold p h (nl_ s1) 0 (seq 0 (length (nl_ s1)))
                (map (fun _ => 0.0) (ovmd_ s1))
                (replicate (length (nl_ s1)) (mkVector 0 0 0))) as F.
  rewrite length_map, L in F. specialize (F Hpos). cbv zeta in F.
  destruct F as (_ & L2 & _ & D). rewrite length_replicate in L2, D.
  destruct (fold_left _ _ _) as [ovmd der]. cbn [fst snd nl_ with_overlaps] in *.
  split; [exact L2|]. intros Hi. apply D; [|exact Hi].
  apply in_seq. lia.
Qed.

Lemma calculate_overlap_derivatives_witness :
  length (snd (calculate_overlap (nl_setup 1) atoms_at_mean [] [] far_state))
  = length (nl_ (fst (calculate_overlap (nl_setup 1) atoms_at_mean [] [] far_state))).
Proof.
  destruct (calculate_overlap_derivatives (nl_setup 1) atoms_at_mean [] []
              far_state 0 eq_refl eq_refl ltac:(cbn; lia)) as [A _].
  exact A.
Defined.

Lemma overlap_fold_length (p : Setup) (h : Host) (nl : list nat) :
  forall (idx : list nat) (a : list R * list Vector),
    length (fst (fold_left (overlap_step p h nl) idx a)) = length (fst a) /\
    length (snd (fold_left (overlap_step p h nl) idx a)) = length (snd a).
Proof.
  induction idx as [|i idx IH]; intros [ovmd der]; [split; reflexivity|].
  cbn [fold_left]. rewrite overlap_step_eq.
  destruct (IH (<[(nl !!! i / length (GMM_m_type_ p))%nat :=
                  ovmd !!! (nl !!! i / length (GMM_m_type_ p))%nat
                  + exact_overlap p h (nl !!! i / length (GMM_m_type_ p))
                                  (nl !!! i mod length (GMM_m_type_ p))]> ovmd,
                <[i := exact_overlap_der p h (nl !!! i / length (GMM_m_type_ p))
                                         (nl !!! i mod length (GMM_m_type_ p))]> der))
    as [L1 L2].
  cbn [fst snd] in *. rewrite !length_insert in *. split; assumption.
Qed.

Lemma length_SumV (own others : list Vector) :
  length (SumV own others) = length own.
Proof. unfold SumV. apply length_imap. Qed.

(** X19. The schedule of the neighbor list, for any number of workers:
    after [prepare], [calculate_overlap] rebuilds the list exactly at the
    first evaluation, on exchange steps and on the steps that are
    multiples of NL_STRIDE, and keeps it otherwise; it leaves the list
    unmarked, [ovmd_] with the cells it had and [ovmd_der_] with one cell
    for each entry of the list. *)
Theorem neighbor_list_schedule (p : Setup) (h : Host)
    (co_ovmd : list R) (co_der : list Vector) (s : State) :
  let r := calculate_overlap p h co_ovmd co_der (prepare h s) in
  nl_ (fst r)
  = (if first_time_ s || getExchangeStep h
        || (Z.rem (getStep h) (Z.of_nat (nl_stride_ p)) =? 0)%Z
     then flat_map (nl_local p h) (seq 0 (size_ p))
     else nl_ s) /\
  first_time_ (fst r) = false /\
  length (ovmd_ (fst r)) = length (ovmd_ s) /\
  length (snd r) = length (nl_ (fst r)).
Proof.
  intros r. subst r. unfold calculate_overlap. cbv zeta.
  pose proof (first_time_after p h (prepare h s)) as T.
  set (s1 := if nl_due p h (prepare h s)
             then with_first_time (update_neighbor_list p h (prepare h s)) false
             else prepare h s) in *.
  assert (N : nl_ s1
              = (if first_time_ s || getExchangeStep h
                    || (Z.rem (getStep h) (Z.of_nat (nl_stride_ p)) =? 0)%Z
                 then flat_map (nl_local p h) (seq 0 (size_ p))
                 else nl_ s)).
  { subst s1. unfold nl_due, prepare.
    destruct (getExchangeStep h); cbn [first_time_ with_first_time orb].
    - rewrite orb_true_r. reflexivity.
    - rewrite !orb_false_r.
      destruct (first_time_ s || _); reflexivity. }
  assert (L : length (ovmd_ s1) = length (ovmd_ s)).
  { subst s1. unfold prepare.
    destruct (nl_due p h _), (getExchangeStep h); reflexivity. }
  destruct (overlap_fold_length p h (nl_ s1)
              (strided (rank_ p) (size_ p) (length (nl_ s1)))
              (map (fun _ => 0.0) (ovmd_ s1),
               replicate (length (nl_ s1)) (mkVector 0 0 0))) as [L1 L2].
  cbn [fst snd] in L1, L2. rewrite length_map in L1. rewrite length_replicate in L2.
  destruct (fold_left _ _ _) as [ovmd der]. cbn [fst snd] in *.
  destruct (1 <? size_ p)%nat;
    cbn [fst snd nl_ first_time_ ovmd_ with_overlaps];
    rewrite ?length_Sum, ?length_SumV, L1, L2, L; auto.
Qed.

End ModelOverlaps.

(* --------------------------------------------------------------------- *)
(** ** The tabulated exponential *)
(* --------------------------------------------------------------------- *)

Section Tabulated.
Import EMMI.
Local Open Scope R_scope.

Lemma round_near (y : R) :
  0 <= y -> (0 <= round y)%Z /\ y - / 2 < IZR (round y) <= y + / 2.
Proof.
  intros Hy. unfold round. destruct (Rle_dec 0 y) as [_|N]; [|contradiction].
  pose proof (base_Int_part (y + / 2)) as [B1 B2].
  split; [|lra].
  apply le_IZR. apply Rnot_lt_le. intros N.
  assert (IZR (Int_part (y + / 2)) <= -1).
  { apply IZR_le. apply lt_IZR in N. lia. }
  lra.
Qed.

Lemma exp_mono (x y : R) : x <= y -> exp x <= exp y.
Proof.
  intros [H| ->]; [left; apply exp_increasing; exact H|lra].
Qed.

Lemma dexp_pos : 0 < dpcutoff_ / INR (nexp_ - 1).
Proof.
  apply Rdiv_lt_0_compat; [unfold dpcutoff_; lra|].
  apply lt_0_INR. pose proof nexp_ge_2. lia.
Qed.

Lemma exact_overlap_value (p : Setup) (h : Host) (id im : nat) :
  let kaux := (GMM_m_type_ p !!! im * length (GMM_d_m_ (GMM_d p)) + id)%nat in
  exact_overlap p h id im
  = pre_fact_ p !!! kaux
    * exp (- 0.5 * get_exp_overlap (pbc_ p) h (GMM_d_m_ (GMM_d p) !!! id)
                                   (getPosition h im) (inv_cov_md_ p !!! kaux)).
Proof. reflexivity. Qed.

(** X20. The overlap by which [update_neighbor_list] ranks an atom is the
    overlap of [calculate_overlap] up to the resolution of the table: for
    a table of positive step, an exponent that is not negative and a
    prefactor that is not negative, an atom that is skipped has an exact
    overlap of at most the prefactor times exp(-(nexp_-1/2)*dexp_), which
    is below exp(-dpcutoff_) times the prefactor for the step that the
    constructor sets; and an atom that passes the table test enters the
    lists with a value within the factor exp(dexp_/2) of its exact
    overlap, provided that the index round(0.5*expov/dexp_) is below 2^32,
    the values that the conversion to [unsigned] is defined for. *)
Theorem atom_step_tabulated (p : Setup) (h : Host) (id im : nat)
    (ov_l : list R) (ov_m : ov_map) (ov_tot : R) :
  let kaux := (GMM_m_type_ p !!! im * length (GMM_d_m_ (GMM_d p)) + id)%nat in
  let expov := get_exp_overlap (pbc_ p) h (GMM_d_m_ (GMM_d p) !!! id)
                               (getPosition h im) (inv_cov_md_ p !!! kaux) in
  0 < dexp_ p -> tab_exp_ p = tabulate (dexp_ p) ->
  0 <= expov -> 0 <= pre_fact_ p !!! kaux ->
  (atom_step p h id (ov_l, ov_m, ov_tot) im = (ov_l, ov_m, ov_tot) /\
   exact_overlap p h id im
   <= pre_fact_ p !!! kaux * exp (- ((INR nexp_ - / 2) * dexp_ p)) /\
   (dexp_ p = dpcutoff_ / INR (nexp_ - 1) ->
    exact_overlap p h id im <= pre_fact_ p !!! kaux * exp (- dpcutoff_))) \/
  (exists ov,
     atom_step p h id (ov_l, ov_m, ov_tot) im
     = (ov_l ++ [ov], map_assign ov im ov_m, ov_tot + ov) /\
     ((round (0.5 * expov / dexp_ p) < 2 ^ 32)%Z ->
      exact_overlap p h id im * exp (- (dexp_ p / 2)) <= ov
      <= exact_overlap p h id im * exp (dexp_ p / 2))).
Proof.
  intros kaux expov Hd Htab He Hp.
  rewrite exact_overlap_value. fold kaux expov.
  unfold atom_step. fold kaux expov. rewrite Htab.
  assert (Hl : length (tabulate (dexp_ p)) = nexp_)
    by (unfold tabulate; rewrite length_map, length_seq; reflexivity).
  rewrite Hl.
  set (y := 0.5 * expov / dexp_ p).
  assert (Hy : 0 <= y).
  { unfold y. apply Rmult_le_pos; [lra|]. left. apply Rinv_0_lt_compat, Hd. }
  assert (Ey : - 0.5 * expov = - (y * dexp_ p)).
  { assert (y * dexp_ p = 0.5 * expov).
    { unfold y, Rdiv. rewrite Rmult_assoc, Rinv_l by lra. lra. }
    lra. }
  destruct (round_near y Hy) as [Hk [Hlo Hhi]].
  pose proof (Z.mod_pos_bound (round y) (2 ^ 32) ltac:(lia)) as [M0 _].
  pose proof (Z.mod_le (round y) (2 ^ 32) Hk ltac:(lia)) as M1.
  assert (Ek : INR (to_unsigned (round y)) = IZR (round y mod 2 ^ 32)).
  { unfold to_unsigned. rewrite INR_IZR_INZ, Z2Nat.id by exact M0. reflexivity. }
  rewrite Ey.
  destruct (Nat.leb_spec nexp_ (to_unsigned (round y))) as [Hskip|Hin].
  - left. split; [reflexivity|].
    assert (Hn : INR nexp_ <= IZR (round y)).
    { apply Rle_trans with (IZR (round y mod 2 ^ 32)).
      - rewrite <- Ek. apply le_INR, Hskip.
      - apply IZR_le, M1. }
    assert (B : (INR nexp_ - / 2) * dexp_ p <= y * dexp_ p)
      by (apply Rmult_le_compat_r; lra).
    split.
    + apply Rmult_le_compat_l; [exact Hp|]. apply exp_mono. lra.
    + intros Ed. apply Rmult_le_compat_l; [exact Hp|]. apply exp_mono.
      assert (Hn1 : 0 < INR (nexp_ - 1))
        by (apply lt_0_INR; pose proof nexp_ge_2; lia).
      assert (En : INR nexp_ = INR (nexp_ - 1) + 1).
      { rewrite <- S_INR.
        replace (S (nexp_ - 1)) with nexp_ by (pose proof nexp_ge_2; lia).
        reflexivity. }
      assert (dpcutoff_ <= (INR nexp_ - / 2) * dexp_ p).
      { rewrite Ed, En.
        replace ((INR (nexp_ - 1) + 1 - / 2) * (dpcutoff_ / INR (nexp_ - 1)))
          with (dpcutoff_ + / 2 * (dpcutoff_ / INR (nexp_ - 1))) by (field; lra).
        assert (0 < dpcutoff_ / INR (nexp_ - 1)) by apply dexp_pos. lra. }
      lra.
  - right. exists (pre_fact_ p !!! kaux * tabulate (dexp_ p) !!! to_unsigned (round y)).
    split; [reflexivity|]. intros Hrange.
    unfold tabulate. rewrite lookup_total_map_seq by exact Hin. rewrite Ek.
    rewrite Z.mod_small by lia.
    rewrite !Rmult_assoc, <- !exp_plus.
    assert (B1 : IZR (round y) * dexp_ p <= (y + / 2) * dexp_ p)
      by (apply Rmult_le_compat_r; lra).
    assert (B2 : (y - / 2) * dexp_ p <= IZR (round y) * dexp_ p)
      by (apply Rmult_le_compat_r; lra).
    split; (apply Rmult_le_compat_l; [exact Hp|]); apply exp_mono; lra.
Qed.

Lemma atom_step_tabulated_witness :
  exists ov,
    atom_step (nl_setup 1) atoms_at_mean 0 ([], [], 0) 0
    = ([] ++ [ov], map_assign ov 0 [], 0 + ov) /\
    exact_overlap (nl_setup 1) atoms_at_mean 0 0 * exp (- (dexp_ (nl_setup 1) / 2))
    <= ov
    <= exact_overlap (nl_setup 1) atoms_at_mean 0 0 * exp (dexp_ (nl_setup 1) / 2).
Proof.
  assert (E : get_exp_overlap false atoms_at_mean (mkVector 0 0 0) (mkVector 0 0 0)
                half_cov = 0).
  { unfold get_exp_overlap, displacement, delta, Vminus, quadratic_form. cbn. ring. }
  destruct (atom_step_tabulated (nl_setup 1) atoms_at_mean 0 0 [] [] 0)
    as [(Hs & _)|(ov & Hov & T)].
  - apply dexp_pos.
  - reflexivity.
  - cbn [nl_setup GMM_m_type_ GMM_d pbc_ inv_cov_md_ one_component_data GMM_d_m_].
    change (0 <= get_exp_overlap false atoms_at_mean (mkVector 0 0 0)
                   (mkVector 0 0 0) half_cov).
    rewrite E. lra.
  - change (0 <= 1). lra.
  - exfalso.
    rewrite (atom_step_on_mean (nl_setup 1) atoms_at_mean 0 0 [] [] 0
               eq_refl eq_refl eq_refl) in Hs.
    apply pair_equal_spec in Hs. destruct Hs as [Hs _].
    apply pair_equal_spec in Hs. destruct Hs as [Hs _]. discriminate Hs.
  - exists ov. split; [exact Hov|]. apply T.
    cbn [nl_setup GMM_m_type_ GMM_d pbc_ inv_cov_md_ one_component_data GMM_d_m_].
    change (get_exp_overlap false atoms_at_mean _ _ _)
      with (get_exp_overlap false atoms_at_mean (mkVector 0 0 0)
              (mkVector 0 0 0) half_cov).
    rewrite E. unfold Rdiv. rewrite Rmult_0_r, Rmult_0_l, round_0. lia.
Defined.

End Tabulated.

(* --------------------------------------------------------------------- *)
(** ** What the constructor leaves *)
(* --------------------------------------------------------------------- *)

Section Constructed.
Import EMMI.
Local Open Scope R_scope.

Lemma form_zero (c : VectorGeneric6) : form c (mkVector 0 0 0) = 0.
Proof. apply quadratic_form_zero. Qed.

Lemma Vector_eq_dec (v : Vector) : {v = mkVector 0 0 0} + {v <> mkVector 0 0 0}.
Proof.
  destruct v as [x y z].
  destruct (Req_dec_T x 0) as [->|Hx];
    [|right; intros E; inversion E; contradiction].
  destruct (Req_dec_T y 0) as [->|Hy];
    [|right; intros E; inversion E; contradiction].
  destruct (Req_dec_T z 0) as [->|Hz];
    [|right; intros E; inversion E; contradiction].
  left. reflexivity.
Qed.

Lemma form_nonneg (c : VectorGeneric6) (v : Vector) :
  positive_definite c -> 0 <= form c v.
Proof.
  intros H. destruct (Vector_eq_dec v) as [->|Hv].
  - rewrite form_zero. lra.
  - left. apply H, Hv.
Qed.

Lemma form_inverse3 (c : VectorGeneric6) (v : Vector) :
  det3 c <> 0 ->
  form (inverse3 c (det3 c)) v = form c (mat_vec (inverse3 c (det3 c)) v).
Proof.
  destruct c as [a b c d e f], v as [x y z].
  unfold inverse3, det3. cbn [component V6_indexed m00 m01 m02 m11 m12 m22].
  intros Hd. rewrite mat_vec_value, !form_value. field. exact Hd.
Qed.

Lemma mat_vec_zero (c : VectorGeneric6) :
  mat_vec c (mkVector 0 0 0) = mkVector 0 0 0.
Proof. destruct c. rewrite mat_vec_value. f_equal; ring. Qed.

Lemma inverse3_positive_definite (c : VectorGeneric6) :
  positive_definite c -> positive_definite (inverse3 c (det3 c)).
Proof.
  intros H v Hv.
  destruct (positive_definite_minors c H) as (_ & _ & Hd).
  assert (Hd' : det3 c <> 0) by lra.
  rewrite form_inverse3 by exact Hd'. apply H. intros E.
  apply Hv. destruct (inverse3_inverts c v Hd') as [<- _]. rewrite E.
  apply mat_vec_zero.
Qed.

Lemma GMM_m_s_pos (t : nat) : (t < 4)%nat -> 0 < GMM_m_s_ !!! t.
Proof.
  intros Ht. destruct t as [|[|[|[|t]]]]; [| | | |lia]; cbn; lra.
Qed.

Lemma GMM_m_w_table_pos (t : nat) : (t < 4)%nat -> 0 < GMM_m_w_table !!! t.
Proof.
  intros Ht. destruct t as [|[|[|[|t]]]]; [| | | |lia]; cbn; lra.
Qed.

Lemma GMM_m_w_table_nonneg (t : nat) : 0 <= GMM_m_w_table !!! t.
Proof.
  destruct (Nat.lt_ge_cases t 4) as [Ht|Ht].
  - left. apply GMM_m_w_table_pos, Ht.
  - rewrite lookup_total_nth, nth_overflow by exact Ht. change (0 <= 0). lra.
Qed.

Lemma model_cov_positive_definite (blur : R) (t : nat) :
  (t < 4)%nat -> positive_definite (model_cov blur t).
Proof.
  intros Ht. unfold model_cov. cbv zeta.
  set (s := sqrt (0.5 * GMM_m_s_ !!! t) / PI * 0.1).
  assert (Hs : 0 < s).
  { unfold s. pose proof (GMM_m_s_pos t Ht). pose proof PI_RGT_0.
    apply Rmult_lt_0_compat; [|lra].
    apply Rdiv_lt_0_compat; [|lra]. apply sqrt_lt_R0. lra. }
  set (s2 := s * s + blur * blur / 4.0).
  assert (H2 : 0 < s2).
  { unfold s2. pose proof (square_nonneg blur).
    assert (0 < s * s) by (apply Rmult_lt_0_compat; exact Hs). lra. }
  replace 0.0 with 0 by lra.
  apply minors_positive_definite; unfold det3;
    cbn [component V6_indexed m00 m01 m02 m11 m12 m22].
  - exact H2.
  - assert (0 < s2 * s2) by (apply Rmult_lt_0_compat; exact H2). lra.
  - assert (0 < s2 * s2) by (apply Rmult_lt_0_compat; exact H2).
    assert (0 < s2 * (s2 * s2)) by (apply Rmult_lt_0_compat; assumption). lra.
Qed.

Lemma accumulate_nonneg (l : list R) :
  Forall (fun x => 0 <= x) l -> 0 <= accumulate l.
Proof.
  induction 1 as [|x l Hx Hl IH]; [rewrite accumulate_nil; lra|].
  rewrite accumulate_cons. lra.
Qed.

Lemma get_GMM_m_weights_nonneg (moldat : list (nat -> string)) (atoms : list nat)
    (ty : list nat) (w : list R) :
  get_GMM_m moldat atoms = Done (ty, w) -> Forall (fun x => 0 <= x) w.
Proof.
  unfold get_GMM_m. destruct moldat as [|m [|m' moldat]]; try discriminate.
  intros H. apply get_GMM_m_atoms_spec in H. destruct H as (ts & _ & _ & ->).
  cbn [app]. apply Forall_map, Forall_forall. intros x _.
  apply GMM_m_w_table_nonneg.
Qed.

(** What the constructor stores in the tables of a loaded data GMM. *)
Lemma EMMI_build_tables (kw : Keywords) (pr : Process) (h0 : Host)
    (ty : list nat) (w : list R) (e : option (list R))
    (rows : list GMMrow) (p : Setup) (s0 : State) (t id : nat) :
  Forall good_row rows ->
  Forall (fun x => 0 <= x) w ->
  EMMI_build kw pr h0 ty w
    (mkGMM (map (fun r => mkVector (Mean_0 r) (Mean_1 r) (Mean_2 r)) rows)
           (map Weight rows) (map Cov rows) (map Beta rows)) e = (p, s0) ->
  (t < 4)%nat -> (id < length rows)%nat ->
  let kaux := (t * length (GMM_d_m_ (GMM_d p)) + id)%nat in
  length (GMM_d_m_ (GMM_d p)) = length rows /\
  0 <= pre_fact_ p !!! kaux /\
  positive_definite (inv_cov_md_ p !!! kaux).
Proof.
  intros Hg Hw0 Hb Ht Hid. unfold EMMI_build in Hb.
  apply pair_equal_spec in Hb as [<- _].
  cbn [GMM_d pre_fact_ inv_cov_md_ GMM_d_m_ GMM_d_w_].
  set (d := mkGMM _ _ _ _).
  set (w_ := map _ GMM_m_w_table).
  assert (Ln : length (GMM_d_m_ d) = length rows)
    by (unfold d; cbn; apply length_map).
  cbv zeta. rewrite length_map.
  assert (Hid' : (id < length (GMM_d_m_ d))%nat) by (rewrite Ln; exact Hid).
  destruct (useful_stuff_cell (BLUR kw) w_ d t id Ht Hid') as [C1 C2].
  cbv zeta in C1, C2. rewrite Ln in C1, C2. rewrite C1, C2.
  split; [reflexivity|].
  assert (Hpd : positive_definite (GMM_d_cov_ d !!! id)).
  { unfold d. cbn [GMM_d_cov_]. rewrite lookup_total_map_lt by exact Hid.
    pose proof (Forall_lookup_total_lt _ _ _ Hg Hid) as [Hc _].
    apply check_GMM_d_minors_definite in Hc. exact Hc. }
  assert (Hsum : positive_definite (V6plus (model_cov (BLUR kw) t)
                                           (GMM_d_cov_ d !!! id))).
  { apply positive_definite_V6plus; [|exact Hpd].
    apply model_cov_positive_definite, Ht. }
  split; [|apply inverse3_positive_definite, Hsum].
  assert (Hws : Forall (fun w => 0 <= w) (map Weight rows)).
  { apply Forall_map. eapply Forall_impl; [exact Hg|].
    intros r Hr. apply good_row_weight, Hr. }
  assert (Hwd : 0 <= GMM_d_w_ d !!! id).
  { unfold d. cbn [GMM_d_w_]. apply lookup_total_nonneg, Hws. }
  assert (Hwm : 0 <= w_ !!! t).
  { unfold w_. rewrite lookup_total_map_lt by (cbn; lia).
    apply Rmult_le_pos; [apply GMM_m_w_table_nonneg|].
    unfold Rdiv. apply Rmult_le_pos.
    - apply accumulate_nonneg, Hws.
    - apply Rinv_nonneg, accumulate_nonneg. exact Hw0. }
  pose proof cfact_pos as Hc.
  assert (0 <= / sqrt (det3 (V6plus (model_cov (BLUR kw) t) (GMM_d_cov_ d !!! id))))
    by (apply Rinv_nonneg, sqrt_pos).
  unfold Rdiv. apply Rmult_le_pos; [apply Rmult_le_pos|exact Hwm];
    [|exact Hwd].
  apply Rmult_le_pos; [lra|assumption].
Qed.

Lemma EMMI_build_table_step (kw : Keywords) (pr : Process) (h0 : Host)
    (ty : list nat) (w : list R) (d : GMMdata) (e : option (list R))
    (p : Setup) (s0 : State) :
  EMMI_build kw pr h0 ty w d e = (p, s0) ->
  dexp_ p = dpcutoff_ / INR (nexp_ - 1) /\ tab_exp_ p = tabulate (dexp_ p) /\
  GMM_d p = d /\ GMM_m_type_ p = ty.
Proof.
  intros Hb. unfold EMMI_build in Hb. apply pair_equal_spec in Hb as [<- _].
  cbn [dexp_ tab_exp_ GMM_d GMM_m_type_].
  unfold calculate_useful_stuff. cbv zeta. cbn [us_dexp us_tab_exp].
  repeat split.
Qed.

(** X21. In an EMMI that the constructor has built, every overlap of a
    data component with an atom of one of the four types lies between
    zero and the prefactor of the pair, the value it takes at zero
    displacement, wherever the atom is and whatever the box: the
    tabulated inverse of the pair is positive definite, the prefactor is
    not negative, and the exponent is not negative.  The table has the
    positive step dpcutoff_/(nexp_-1). *)
Theorem EMMI_new_overlap_bounds (kw : Keywords) (pr : Process) (h0 : Host)
    (p : Setup) (s0 : State) (h : Host) (id im : nat) :
  EMMI_new kw pr h0 = Done (p, s0) ->
  (id < length (GMM_d_m_ (GMM_d p)))%nat ->
  (GMM_m_type_ p !!! im < 4)%nat ->
  let kaux := (GMM_m_type_ p !!! im * length (GMM_d_m_ (GMM_d p)) + id)%nat in
  let expov := get_exp_overlap (pbc_ p) h (GMM_d_m_ (GMM_d p) !!! id)
                               (getPosition h im) (inv_cov_md_ p !!! kaux) in
  positive_definite (inv_cov_md_ p !!! kaux) /\
  0 <= pre_fact_ p !!! kaux /\
  0 <= expov /\
  0 <= exact_overlap p h id im <= pre_fact_ p !!! kaux /\
  0 < dexp_ p /\ dexp_ p = dpcutoff_ / INR (nexp_ - 1) /\
  tab_exp_ p = tabulate (dexp_ p).
Proof.
  intros Hnew Hid Ht kaux expov.
  apply EMMI_new_inv in Hnew.
  destruct Hnew as (ty & w & d & e & s' & _ & Hm & Hd & _ & Hb & _).
  apply get_GMM_m_weights_nonneg in Hm.
  apply loaded_components in Hd. destruct Hd as (rows & _ & Hg & ->).
  destruct (EMMI_build_table_step _ _ _ _ _ _ _ _ _ Hb) as (E1 & E2 & E3 & _).
  assert (Hid' : (id < length rows)%nat).
  { rewrite E3 in Hid. cbn [GMM_d_m_] in Hid. rewrite length_map in Hid.
    exact Hid. }
  destruct (EMMI_build_tables kw pr h0 ty w e rows p s' (GMM_m_type_ p !!! im) id
              Hg Hm Hb Ht Hid') as (_ & Hp & Hpd).
  fold kaux in Hp, Hpd.
  assert (He : 0 <= expov) by (apply (form_nonneg _ _ Hpd)).
  split; [exact Hpd|]. split; [exact Hp|]. split; [exact He|].
  split; [|split; [rewrite E1; apply dexp_pos|split; assumption]].
  rewrite exact_overlap_value. fold kaux expov.
  assert (0 < exp (-0.5 * expov)) by apply exp_pos.
  assert (exp (-0.5 * expov) <= 1).
  { rewrite <- exp_0. apply exp_mono. lra. }
  split.
  - apply Rmult_le_pos; lra.
  - rewrite <- (Rmult_1_r (pre_fact_ p !!! kaux)) at 2.
    apply Rmult_le_compat_l; assumption.
Qed.

Lemma one_component_loaded : get_GMM_d (Some one_component) = Done one_component_data.
Proof.
  unfold one_component, get_GMM_d, get_GMM_d_rows.
  assert (E : check_GMM_d unit_cov 1 = Done tt).
  { apply check_GMM_d_done. unfold det3, unit_cov. cbn. lra. }
  cbn [Cov Weight]. rewrite E. reflexivity.
Qed.

Lemma marginal_kw_checks : keyword_checks marginal_kw = Done tt.
Proof.
  unfold keyword_checks, marginal_kw, bind. cbn [SAMPLING andb NL_CUTOFF NL_STRIDE].
  assert (E : Rleb 0.01 0.0 = false) by (apply Rleb_false; lra).
  rewrite E. reflexivity.
Qed.

Lemma first_worker_new :
  EMMI_new marginal_kw first_worker step_0
  = Done (EMMI_build marginal_kw first_worker step_0 one_carbon_types
                     one_carbon_weights one_component_data unit_errors).
Proof.
  rewrite (EMMI_new_done marginal_kw first_worker step_0 one_carbon_types
             one_carbon_weights one_component_data unit_errors
             marginal_kw_checks get_GMM_m_one_carbon one_component_loaded
             exp_errors_marginal eq_refl).
  rewrite <- surjective_pairing. reflexivity.
Qed.

Lemma EMMI_new_overlap_bounds_witness :
  let p := fst (EMMI_build marginal_kw first_worker step_0 one_carbon_types
                     one_carbon_weights one_component_data unit_errors) in
  0 <= exact_overlap p atoms_at_mean 0 0 <= pre_fact_ p !!! 0%nat.
Proof.
  intros p.
  destruct (EMMI_new_overlap_bounds marginal_kw first_worker step_0 p
              (snd (EMMI_build marginal_kw first_worker step_0 one_carbon_types
                     one_carbon_weights one_component_data unit_errors))
              atoms_at_mean 0 0) as (_ & _ & _ & B & _).
  - rewrite first_worker_new. subst p.
    destruct (EMMI_build _ _ _ _ _ _ _). reflexivity.
  - cbn. lia.
  - cbn. lia.
  - exact B.
Defined.




Lemma check_seq (b : bool) (m : string) (k : outcome unit) :
  ((if b then Fatal m else Done tt) ;; k) = Done tt <->
  b = false /\ k = Done tt.
Proof.
  destruct b; cbn.
  - split; [discriminate|]. intros [H _]. discriminate.
  - split; [auto|]. intros [_ H]. exact H.
Qed.

Lemma check_last (b : bool) (m : string) :
  (if b then Fatal m else Done tt) = Done tt <-> b = false.
Proof. destruct b; split; auto; discriminate. Qed.

Lemma keyword_checks_done (kw : Keywords) :
  keyword_checks kw = Done tt <->
  (SAMPLING kw = true ->
   0 < SIGMA0 kw /\ 0 <= DSIGMA kw /\
   (0 < DSIGMA kw -> (0 < MC_STRIDE kw)%Z /\ 0 < MC_CUT kw) /\
   (0 < WRITE_STRIDE kw)%nat) /\
  0 < NL_CUTOFF kw /\ (0 < NL_STRIDE kw)%nat.
Proof.
  unfold keyword_checks. cbv zeta.
  rewrite !check_seq, check_last.
  replace 0.0 with 0 by lra.
  rewrite Rleb_false, Nat.leb_gt.
  destruct (SAMPLING kw); cbn [andb].
  - rewrite Rleb_false, Rltb_false, Nat.eqb_neq.
    destruct (Rltb 0 (DSIGMA kw)) eqn:E; cbn [andb].
    + apply Rltb_true in E. rewrite Z.leb_gt, Rleb_false.
      split.
      * intros (H1 & H2 & H3 & H4 & H5 & H6 & H7).
        repeat split; try assumption; try lia; lra.
      * intros (H & H5 & H6). destruct (H eq_refl) as (H1 & H2 & H3 & H7).
        destruct (H3 E) as [H8 H9]. repeat split; try assumption; lia.
    + apply Rltb_false in E. split.
      * intros (H1 & H2 & _ & _ & H5 & H6 & H7).
        repeat split; try assumption; try lia; lra.
      * intros (H & H5 & H6). destruct (H eq_refl) as (H1 & H2 & H3 & H7).
        repeat split; try assumption; lia.
  - split.
    + intros (_ & _ & _ & _ & H5 & H6 & _). split; [discriminate|]. auto.
    + intros (_ & H5 & H6). repeat split; assumption.
Qed.

Lemma get_GMM_d_rows_good (rows : list GMMrow) :
  Forall good_row rows ->
  forall d0, exists d, get_GMM_d_rows rows d0 = Done d.
Proof.
  induction 1 as [|r rows [Hc Hb] Hg IH]; intros d0; cbn.
  - exists d0. reflexivity.
  - rewrite Hc. cbn [bind].
    assert (E : negb (Beta r =? 0)%Z && negb (Beta r =? 1)%Z = false)
      by (destruct Hb as [-> | ->]; reflexivity).
    rewrite E. apply IH.
Qed.

(** X23. The constructor reaches none of its errors exactly when the
    keywords pass its tests and its inputs are there: NL_CUTOFF and
    NL_STRIDE are positive; with SAMPLING, SIGMA0 and WRITE_STRIDE are
    positive, DSIGMA is not negative, and MC_STRIDE and MC_CUT are
    positive when DSIGMA is; the input holds one MOLINFO and the type
    letter of every atom of ATOMS is one of C, O, N, S; the GMM file
    exists and each of its rows has a positive definite covariance, a
    weight that is not negative and a Beta of 0 or 1; the file that
    ERR_FILE names, when it names one, exists; on a restart in sampled
    mode the status file exists.  A DSIGMA of zero passes, which leaves
    the uncertainties at their initial values. *)
Theorem EMMI_new_succeeds (kw : Keywords) (pr : Process) (h0 : Host) :
  (exists p s0, EMMI_new kw pr h0 = Done (p, s0)) <->
  ((SAMPLING kw = true ->
    0 < SIGMA0 kw /\ 0 <= DSIGMA kw /\
    (0 < DSIGMA kw -> (0 < MC_STRIDE kw)%Z /\ 0 < MC_CUT kw) /\
    (0 < WRITE_STRIDE kw)%nat) /\
   0 < NL_CUTOFF kw /\ (0 < NL_STRIDE kw)%nat) /\
  (exists m, moldat pr = [m] /\
     Forall (fun a => exists c t, type_letter (m a) c /\ letter_index c t)
            (ATOMS kw)) /\
  (exists rows, GMM_FILE pr = Some rows /\
     Forall (fun r => positive_definite (Cov r) /\ 0 <= Weight r /\
                      (Beta r = 0%Z \/ Beta r = 1%Z)) rows) /\
  ERR_FILE kw <> ERR_FILE_not_found /\
  (SAMPLING kw = true -> getRestart pr = true -> STATUS_FILE pr <> None).
Proof.
  assert (G : forall r,
             good_row r <->
             positive_definite (Cov r) /\ 0 <= Weight r /\
             (Beta r = 0%Z \/ Beta r = 1%Z)).
  { intros r. unfold good_row. rewrite check_GMM_d_done.
    split.
    - intros ((H1 & H2 & H3 & Hw) & Hb). split; [|auto].
      apply minors_positive_definite; assumption.
    - intros (Hp & Hw & Hb). apply positive_definite_minors in Hp.
      destruct Hp as (H1 & H2 & H3). auto. }
  rewrite <- keyword_checks_done. split.
  - intros (p & s0 & Hnew). apply EMMI_new_inv in Hnew.
    destruct Hnew as (ty & w & d & e & s' & Hk & Hm & Hd & He & _ & _ & _ & Hr & _).
    split; [exact Hk|]. split; [|split; [|split]].
    + unfold get_GMM_m in Hm.
      destruct (moldat pr) as [|m [|m' md]]; try discriminate.
      exists m. split; [reflexivity|].
      apply get_GMM_m_atoms_spec in Hm. destruct Hm as (ts & F & _).
      clear -F. induction F as [|a t atoms ts Ha F IH]; constructor; [|exact IH].
      apply atom_type_letter in Ha. destruct Ha as (c & Ha). exists c, t. exact Ha.
    + apply loaded_components in Hd. destruct Hd as (rows & Hf & Hg & _).
      exists rows. split; [exact Hf|].
      eapply Forall_impl; [exact Hg|]. intros r Hr'. apply G, Hr'.
    + unfold exp_errors in He. intros E. rewrite E in He. discriminate.
    + intros Hs Hres E.
      rewrite Hs, Hres, E in Hr. specialize (Hr eq_refl). discriminate.
  - intros (Hk & (m & Hm & Ha) & (rows & Hf & Hg) & He & Hr).
    unfold EMMI_new. rewrite Hk, Hm, Hf. cbn [bind get_GMM_m get_GMM_d].
    assert (Hdone : is_done (get_GMM_m_atoms m (ATOMS kw) [] []) = true).
    { apply get_GMM_m_atoms_done. eapply Forall_impl; [exact Ha|].
      intros a (c & t & Hc).
      assert (Ht : atom_type (m a) = Done t)
        by (apply atom_type_letter; exists c; exact Hc).
      rewrite Ht. reflexivity. }
    destruct (get_GMM_m_atoms m (ATOMS kw) [] []) as [gm|]; [|discriminate].
    cbn [bind].
    destruct (get_GMM_d_rows_good rows) with (d0 := mkGMM [] [] [] []) as [d Hd].
    { eapply Forall_impl; [exact Hg|]. intros r Hr'. apply G, Hr'. }
    rewrite Hd. cbn [bind].
    assert (Hex : exists e, exp_errors kw = Done e).
    { unfold exp_errors. destruct (ERR_FILE kw); [eexists; reflexivity|
                                                  contradiction|
                                                  eexists; reflexivity]. }
    destruct Hex as [e Hex]. rewrite Hex. cbn [bind].
    set (b := EMMI_build kw pr h0 (fst gm) (snd gm) d e).
    destruct (SAMPLING kw && getRestart pr) eqn:Er.
    + apply andb_prop in Er. destruct Er as [Es Eg].
      specialize (Hr Es Eg). unfold read_status.
      destruct (STATUS_FILE pr) as [records|]; [|contradiction].
      cbn [bind]. eexists. eexists. reflexivity.
    + cbn [bind]. eexists. eexists. reflexivity.
Qed.

End Constructed.

(* --------------------------------------------------------------------- *)
(** ** The derivative of an overlap *)
(* --------------------------------------------------------------------- *)

Section Gradient.
Import EMMI.
Local Open Scope R_scope.

Lemma quadratic_derivative (c2 c1 c0 x : R) :
  derivable_pt_lim (fun t => c2 * t * t + c1 * t + c0) x (2 * c2 * x + c1).
Proof.
  replace (2 * c2 * x + c1)
    with (((c2 * 1) * x + (c2 * x) * 1) + c1 * 1 + 0) by ring.
  exact (derivable_pt_lim_plus _ _ _ _ _
           (derivable_pt_lim_plus _ _ _ _ _
              (derivable_pt_lim_mult _ _ _ _ _
                 (derivable_pt_lim_scal _ c2 _ _ (derivable_pt_lim_id x))
                 (derivable_pt_lim_id x))
              (derivable_pt_lim_scal _ c1 _ _ (derivable_pt_lim_id x)))
           (derivable_pt_lim_const c0 x)).
Qed.

Lemma gaussian_derivative (pre k c2 c1 c0 x : R) :
  derivable_pt_lim (fun t => pre * exp (k * (c2 * t * t + c1 * t + c0))) x
    (pre * exp (k * (c2 * x * x + c1 * x + c0)) * (k * (2 * c2 * x + c1))).
Proof.
  replace (pre * exp (k * (c2 * x * x + c1 * x + c0)) * (k * (2 * c2 * x + c1)))
    with (pre * (exp (k * (c2 * x * x + c1 * x + c0)) * (k * (2 * c2 * x + c1))))
    by ring.
  exact (derivable_pt_lim_scal _ pre _ _
           (derivable_pt_lim_comp _ _ _ _ _
              (derivable_pt_lim_scal _ k _ _ (quadratic_derivative c2 c1 c0 x))
              (derivable_pt_lim_exp _))).
Qed.

Lemma derivable_pt_lim_eq (f g : R -> R) (x l l' : R) :
  (forall t, f t = g t) -> l = l' ->
  derivable_pt_lim g x l' -> derivable_pt_lim f x l.
Proof.
  intros Hf -> H eps Heps. destruct (H eps Heps) as [delta Hd].
  exists delta. intros k Hk Hlt. rewrite !Hf. apply Hd; assumption.
Qed.

Lemma get_overlap_free (h : Host) (m_m d_m : Vector) (pre : R)
    (inv : VectorGeneric6) :
  fst (get_overlap false h m_m d_m pre inv)
  = pre * exp (- / 2 * form inv (Vminus m_m d_m)) /\
  snd (get_overlap false h m_m d_m pre inv)
  = Vscale (pre * exp (- / 2 * form inv (Vminus m_m d_m)))
           (mat_vec inv (Vminus m_m d_m)).
Proof.
  assert (E : -0.5 = - / 2) by lra.
  unfold get_overlap, displacement, delta, form, mat_vec.
  destruct (quadratic_form (Vminus m_m d_m) inv) as [[[ov p_x] p_y] p_z].
  cbn [fst snd]. rewrite E. split; reflexivity.
Qed.

Lemma get_overlap_dx (h : Host) (m_m : Vector) (pre : R)
    (inv : VectorGeneric6) (x y z : R) :
  derivable_pt_lim
    (fun t => fst (get_overlap false h m_m (mkVector t y z) pre inv)) x
    ((snd (get_overlap false h m_m (mkVector x y z) pre inv)).[0]).
Proof.
  destruct (get_overlap_free h m_m (mkVector x y z) pre inv) as [_ ->].
  destruct m_m as [a b c], inv as [i00 i01 i02 i11 i12 i22].
  apply (derivable_pt_lim_eq _ _ _ _ _
           (fun t => proj1 (get_overlap_free h _ (mkVector t y z) pre _))
           eq_refl).
  unfold Vminus, Vscale.
  cbn [component Vector_indexed vec_x vec_y vec_z].
  eapply derivable_pt_lim_eq;
    [| |apply (gaussian_derivative pre (- / 2) i00
                (- 2 * i00 * a - 2 * i01 * (b - y) - 2 * i02 * (c - z))
                (i00 * a * a + 2 * i01 * a * (b - y) + 2 * i02 * a * (c - z)
                 + i11 * (b - y) * (b - y) + 2 * i12 * (b - y) * (c - z)
                 + i22 * (c - z) * (c - z)) x)].
  - intros t. rewrite form_value. do 3 f_equal. ring.
  - rewrite mat_vec_value, form_value.
    cbn [component Vector_indexed vec_x vec_y vec_z].
    set (E1 := exp _). set (E2 := exp _).
    assert (EE : E1 = E2) by (unfold E1, E2; f_equal; ring).
    clearbody E1 E2. subst E1. field.
Qed.

Lemma get_overlap_dy (h : Host) (m_m : Vector) (pre : R)
    (inv : VectorGeneric6) (x y z : R) :
  derivable_pt_lim
    (fun t => fst (get_overlap false h m_m (mkVector x t z) pre inv)) y
    ((snd (get_overlap false h m_m (mkVector x y z) pre inv)).[1]).
Proof.
  destruct (get_overlap_free h m_m (mkVector x y z) pre inv) as [_ ->].
  destruct m_m as [a b c], inv as [i00 i01 i02 i11 i12 i22].
  apply (derivable_pt_lim_eq _ _ _ _ _
           (fun t => proj1 (get_overlap_free h _ (mkVector x t z) pre _))
           eq_refl).
  unfold Vminus, Vscale.
  cbn [component Vector_indexed vec_x vec_y vec_z].
  eapply derivable_pt_lim_eq;
    [| |apply (gaussian_derivative pre (- / 2) i11
                (- 2 * i11 * b - 2 * i01 * (a - x) - 2 * i12 * (c - z))
                (i11 * b * b + 2 * i01 * (a - x) * b + 2 * i12 * b * (c - z)
                 + i00 * (a - x) * (a - x) + 2 * i02 * (a - x) * (c - z)
                 + i22 * (c - z) * (c - z)) y)].
  - intros t. rewrite form_value. do 3 f_equal. ring.
  - rewrite mat_vec_value, form_value.
    cbn [component Vector_indexed vec_x vec_y vec_z].
    set (E1 := exp _). set (E2 := exp _).
    assert (EE : E1 = E2) by (unfold E1, E2; f_equal; ring).
    clearbody E1 E2. subst E1. field.
Qed.

Lemma get_overlap_dz (h : Host) (m_m : Vector) (pre : R)
    (inv : VectorGeneric6) (x y z : R) :
  derivable_pt_lim
    (fun t => fst (get_overlap false h m_m (mkVector x y t) pre inv)) z
    ((snd (get_overlap false h m_m (mkVector x y z) pre inv)).[2]).
Proof.
  destruct (get_overlap_free h m_m (mkVector x y z) pre inv) as [_ ->].
  destruct m_m as [a b c], inv as [i00 i01 i02 i11 i12 i22].
  apply (derivable_pt_lim_eq _ _ _ _ _
           (fun t => proj1 (get_overlap_free h _ (mkVector x y t) pre _))
           eq_refl).
  unfold Vminus, Vscale.
  cbn [component Vector_indexed vec_x vec_y vec_z].
  eapply derivable_pt_lim_eq;
    [| |apply (gaussian_derivative pre (- / 2) i22
                (- 2 * i22 * c - 2 * i02 * (a - x) - 2 * i12 * (b - y))
                (i22 * c * c + 2 * i02 * (a - x) * c + 2 * i12 * (b - y) * c
                 + i00 * (a - x) * (a - x) + 2 * i01 * (a - x) * (b - y)
                 + i11 * (b - y) * (b - y)) z)].
  - intros t. rewrite form_value. do 3 f_equal. ring.
  - rewrite mat_vec_value, form_value.
    cbn [component Vector_indexed vec_x vec_y vec_z].
    set (E1 := exp _). set (E2 := exp _).
    assert (EE : E1 = E2) by (unfold E1, E2; f_equal; ring).
    clearbody E1 E2. subst E1. field.
Qed.

(** X24. Without periodic boundary conditions the vector that
    [get_overlap] leaves in [ov_der] is the gradient of the overlap that
    it returns with respect to the position of the atom: each of its
    three components is the derivative of the overlap along the
    corresponding coordinate of that position. *)
Theorem get_overlap_gradient (h : Host) (m_m : Vector) (pre : R)
    (inv : VectorGeneric6) (x y z : R) :
  let ov := fun d_m => fst (get_overlap false h m_m d_m pre inv) in
  let ov_der := snd (get_overlap false h m_m (mkVector x y z) pre inv) in
  derivable_pt_lim (fun t => ov (mkVector t y z)) x (ov_der.[0]) /\
  derivable_pt_lim (fun t => ov (mkVector x t z)) y (ov_der.[1]) /\
  derivable_pt_lim (fun t => ov (mkVector x y t)) z (ov_der.[2]).
Proof.
  intros ov ov_der. subst ov ov_der.
  split.
  - apply get_overlap_dx.
  - split.
    + apply get_overlap_dy.
    + apply get_overlap_dz.
Qed.

End Gradient.

(* --------------------------------------------------------------------- *)
(** ** The derivatives set on the atoms *)
(* --------------------------------------------------------------------- *)

Section Sums.
Import EMMI.
Local Open Scope R_scope.

Lemma for_sum_0 (f : nat -> R) : for_sum 0 f = 0.
Proof. reflexivity. Qed.

Lemma derivable_pt_lim_for_sum (n : nat) (f : nat -> R -> R) (f' : nat -> R)
    (x : R) :
  (forall i, (i < n)%nat -> derivable_pt_lim (f i) x (f' i)) ->
  derivable_pt_lim (fun t => for_sum n (fun i => f i t)) x (for_sum n f').
Proof.
  induction n as [|n IH]; intros H.
  - apply (derivable_pt_lim_eq _ (fun _ => 0) _ _ 0);
      [intros t; apply for_sum_0|apply for_sum_0|apply derivable_pt_lim_const].
  - apply (derivable_pt_lim_eq _
             (fun t => for_sum n (fun i => f i t) + f n t) _ _
             (for_sum n f' + f' n)).
    + intros t. apply for_sum_S.
    + apply for_sum_S.
    + apply (derivable_pt_lim_plus (fun t => for_sum n (fun i => f i t)) (f n)).
      * apply IH. intros i Hi. apply H. lia.
      * apply H. lia.
Qed.

Lemma derivable_pt_lim_accumulate {A : Type} (l : list A) (f : A -> R -> R)
    (f' : A -> R) (x : R) :
  (forall e, In e l -> derivable_pt_lim (f e) x (f' e)) ->
  derivable_pt_lim (fun t => accumulate (map (fun e => f e t) l)) x
                   (accumulate (map f' l)).
Proof.
  induction l as [|e l IH]; intros H.
  - apply (derivable_pt_lim_eq _ (fun _ => 0) _ _ 0);
      [intros t; apply accumulate_nil|apply accumulate_nil
      |apply derivable_pt_lim_const].
  - apply (derivable_pt_lim_eq _
             (fun t => f e t + accumulate (map (fun e => f e t) l)) _ _
             (f' e + accumulate (map f' l))).
    + intros t. cbn [map]. apply accumulate_cons.
    + cbn [map]. apply accumulate_cons.
    + apply (derivable_pt_lim_plus (f e)
               (fun t => accumulate (map (fun e => f e t) l))).
      * apply H. left. reflexivity.
      * apply IH. intros e' He'. apply H. right. exact He'.
Qed.

Lemma accumulate_scal (c : R) (l : list R) :
  accumulate (map (fun x => c * x) l) = c * accumulate l.
Proof.
  induction l as [|x l IH]; cbn [map].
  - rewrite accumulate_nil. ring.
  - rewrite !accumulate_cons, IH. ring.
Qed.

Lemma for_sum_delta (n k : nat) (v : R) :
  (k < n)%nat -> for_sum n (fun i => if (k =? i)%nat then v else 0) = v.
Proof.
  induction n as [|n IH]; intros Hk; [lia|].
  rewrite for_sum_S. destruct (Nat.eq_dec k n) as [->|Hne].
  - rewrite Nat.eqb_refl.
    rewrite (for_sum_ext n _ (fun _ => 0)).
    + assert (Z : for_sum n (fun _ => 0) = 0).
      { clear. induction n as [|n IH]; [reflexivity|]. rewrite for_sum_S, IH. ring. }
      rewrite Z. ring.
    + intros i Hi. destruct (Nat.eqb_spec n i); [lia|reflexivity].
  - rewrite IH by lia. destruct (Nat.eqb_spec k n); [contradiction|ring].
Qed.

(** A sum over the components of sums over their entries is a sum over
    the entries. *)
Lemma sum_exchange (M n : nat) (nl : list nat) (F : nat -> nat -> R) :
  Forall (fun e => (e / M < n)%nat) nl ->
  for_sum n (fun i =>
    accumulate (map (F i) (List.filter (fun e => (e / M =? i)%nat) nl)))
  = accumulate (map (fun e => F (e / M)%nat e) nl).
Proof.
  induction 1 as [|e nl He Hnl IH].
  - cbn [List.filter map]. rewrite accumulate_nil.
    clear. induction n as [|n IH]; [reflexivity|].
    rewrite for_sum_S, IH. ring.
  - cbn [map]. rewrite accumulate_cons, <- IH.
    rewrite <- (for_sum_delta n (e / M) (F (e / M)%nat e) He), <- for_sum_plus.
    apply for_sum_ext. intros i _. cbn [List.filter].
    destruct (Nat.eqb_spec (e / M) i) as [->|Hne].
    + cbn [map]. rewrite accumulate_cons. reflexivity.
    + ring.
Qed.

Lemma map_lookup_seq {B : Type} (nl : list nat) (g : nat -> B) :
  map (fun i => g (nl !!! i)) (seq 0 (length nl)) = map g nl.
Proof.
  pose proof (map_filter_lookup nl g (fun _ => true)) as H.
  rewrite !filter_true in H by (intros; reflexivity). exact H.
Qed.

Lemma quadratic_term_derivative (O : R -> R) (O' x c1 c0 W : R) :
  derivable_pt_lim O x O' ->
  derivable_pt_lim (fun t => (c1 * O t + c0) * (c1 * O t + c0) * W) x
                   (2 * (c1 * O x + c0) * (c1 * O') * W).
Proof.
  intros H.
  assert (A : derivable_pt_lim (fun t => c1 * O t + c0) x (c1 * O' + 0)).
  { apply (derivable_pt_lim_plus (fun t => c1 * O t) (fun _ => c0)).
    - apply (derivable_pt_lim_scal O c1 x O' H).
    - apply derivable_pt_lim_const. }
  replace (2 * (c1 * O x + c0) * (c1 * O') * W)
    with (W * ((c1 * O' + 0) * (c1 * O x + c0) + (c1 * O x + c0) * (c1 * O' + 0)))
    by ring.
  eapply (derivable_pt_lim_eq _
            (fun t => W * ((c1 * O t + c0) * (c1 * O t + c0))));
    [intros t; ring|reflexivity|].
  apply (derivable_pt_lim_scal
           (fun t => (c1 * O t + c0) * (c1 * O t + c0)) W).
  apply (derivable_pt_lim_mult (fun t => c1 * O t + c0)
                               (fun t => c1 * O t + c0)); exact A.
Qed.

(** The derivative of the score of the sampled mode with respect to a
    parameter that the model overlaps depend on. *)
Lemma quadratic_score_derivative (n : nat) (O : nat -> R -> R) (O' : nat -> R)
    (x sc a kbt : R) (b d W : nat -> R) :
  (forall i, (i < n)%nat -> derivable_pt_lim (O i) x (O' i)) ->
  derivable_pt_lim
    (fun t => for_sum n (fun i =>
                (sc * (a * O i t + b i) - d i)
                * (sc * (a * O i t + b i) - d i) * W i) * (0.5 * kbt)) x
    (for_sum n (fun i =>
       kbt * (sc * (a * O i x + b i) - d i) * W i * (sc * (a * O' i)))).
Proof.
  intros H.
  apply (derivable_pt_lim_eq _
           (fun t => (/ 2 * kbt)
                     * for_sum n (fun i =>
                         (sc * a * O i t + (sc * b i - d i))
                         * (sc * a * O i t + (sc * b i - d i)) * W i)) _ _
           ((/ 2 * kbt)
            * for_sum n (fun i =>
                2 * (sc * a * O i x + (sc * b i - d i)) * (sc * a * O' i) * W i))).
  - intros t. replace 0.5 with (/ 2) by lra. rewrite Rmult_comm. f_equal.
    apply for_sum_ext. intros i _. ring.
  - rewrite <- for_sum_scal. apply for_sum_ext. intros i _. field.
  - apply (derivable_pt_lim_scal
             (fun t => for_sum n (fun i =>
                         (sc * a * O i t + (sc * b i - d i))
                         * (sc * a * O i t + (sc * b i - d i)) * W i))
             (/ 2 * kbt)).
    apply (derivable_pt_lim_for_sum n
             (fun i t => (sc * a * O i t + (sc * b i - d i))
                         * (sc * a * O i t + (sc * b i - d i)) * W i)
             (fun i => 2 * (sc * a * O i x + (sc * b i - d i))
                       * (sc * a * O' i) * W i)).
    intros i Hi. apply quadratic_term_derivative, H, Hi.
Qed.

End Sums.

Section ErrorFunction.
Import EMMI.
Local Open Scope R_scope.

Lemma gauss_continuous (x : R) : continuity_pt gauss x.
Proof. apply derivable_continuous_pt. unfold gauss. reg. Qed.

(** The error function is positive on the positive numbers. *)
Lemma erf_pos (x : R) : 0 < x -> 0 < erf x.
Proof.
  intros Hx. unfold erf.
  assert (Hle : 0 <= x) by lra.
  assert (I : gauss x * x <= RiemannInt (gauss_integrable 0 x)).
  { pose proof (RiemannInt_P19 (RiemannInt_P14 0 x (gauss x))
                               (gauss_integrable 0 x) Hle) as L.
    rewrite RiemannInt_P15 in L.
    replace (gauss x * x) with (gauss x * (x - 0)) by ring.
    apply L. intros t Ht. unfold fct_cte, gauss.
    destruct (Req_dec (t * t) (x * x)) as [E|N].
    - rewrite E. lra.
    - left. apply exp_increasing. nra. }
  assert (G : 0 < gauss x) by (unfold gauss; apply exp_pos).
  assert (S : 0 < sqrt PI) by (apply sqrt_lt_R0, PI_RGT_0).
  apply Rmult_lt_0_compat.
  - apply Rdiv_lt_0_compat; lra.
  - pose proof (Rmult_lt_0_compat _ _ G Hx). lra.
Qed.

(** The error function is a primitive of its integrand. *)
Lemma erf_derivative (x : R) :
  derivable_pt_lim erf x (2 / sqrt PI * gauss x).
Proof.
  assert (h : x - 1 <= x + 1) by lra.
  assert (C0 : forall t, x - 1 <= t <= x + 1 -> continuity_pt gauss t)
    by (intros t _; apply gauss_continuous).
  pose proof (@RiemannInt_P28 gauss (x - 1) (x + 1) x h C0 ltac:(lra)) as D.
  set (P := primitive h (FTC_P1 h C0)) in D.
  set (K := RiemannInt (gauss_integrable 0 (x - 1))).
  apply (derivable_pt_lim_locally_ext
           (fun z => 2 / sqrt PI * (K + P z)) erf x (x - 1) (x + 1)).
  - lra.
  - intros z Hz. unfold erf. f_equal. unfold P, primitive.
    destruct (Rle_dec (x - 1) z) as [r|N]; [|lra].
    destruct (Rle_dec z (x + 1)) as [r0|N]; [|lra].
    apply RiemannInt_P26.
  - replace (2 / sqrt PI * gauss x) with (2 / sqrt PI * (0 + gauss x)) by ring.
    apply (derivable_pt_lim_scal (fun z => K + P z) (2 / sqrt PI)).
    apply (derivable_pt_lim_plus (fun _ => K) P).
    + apply derivable_pt_lim_const.
    + exact D.
Qed.

Lemma sqrt2_pi_value : 2 / sqrt PI * inv_sqrt2_ = sqrt2_pi_.
Proof.
  unfold inv_sqrt2_, sqrt2_pi_.
  assert (H2 : 0 < sqrt 2) by (apply sqrt_lt_R0; lra).
  assert (Hp : 0 < sqrt PI) by (apply sqrt_lt_R0, PI_RGT_0).
  rewrite sqrt_div by (try lra; apply PI_RGT_0).
  pose proof (sqrt_def 2 ltac:(lra)) as S.
  apply (Rmult_eq_reg_r (sqrt 2 * sqrt PI)); [|nra].
  field_simplify; [|lra|lra]. lra.
Qed.

Lemma gauss_inv_sqrt2 (y : R) : gauss (y * inv_sqrt2_) = exp (- 0.5 * y * y).
Proof.
  unfold gauss, inv_sqrt2_. f_equal.
  assert (H2 : 0 < sqrt 2) by (apply sqrt_lt_R0; lra).
  pose proof (sqrt_def 2 ltac:(lra)) as S.
  assert (E : / sqrt 2 * / sqrt 2 = / 2).
  { rewrite <- Rinv_mult, S. reflexivity. }
  replace (- (y * / sqrt 2 * (y * / sqrt 2))) with (- (y * y * (/ sqrt 2 * / sqrt 2)))
    by ring.
  rewrite E. lra.
Qed.

(** The derivative of one term of the marginal score with respect to a
    parameter that its deviation depends on. *)
Lemma marginal_term_derivative (dv : R -> R) (dv' x : R) :
  derivable_pt_lim dv x dv' -> dv x <> 0 ->
  0 < 0.5 / dv x * erf (dv x * inv_sqrt2_) ->
  derivable_pt_lim (fun t => - ln (0.5 / dv t * erf (dv t * inv_sqrt2_))) x
    (dv' * (/ dv x
            - sqrt2_pi_ * exp (- 0.5 * dv x * dv x) / erf (dv x * inv_sqrt2_))).
Proof.
  intros H Hd Hpos.
  assert (He : erf (dv x * inv_sqrt2_) <> 0).
  { intros E. rewrite E in Hpos. lra. }
  assert (A : derivable_pt_lim (fun t => 0.5 / dv t) x
                ((0 * dv x - dv' * 0.5) / Rsqr (dv x))).
  { apply (derivable_pt_lim_div (fun _ => 0.5) dv);
      [apply derivable_pt_lim_const|exact H|exact Hd]. }
  assert (B : derivable_pt_lim (fun t => erf (dv t * inv_sqrt2_)) x
                (2 / sqrt PI * gauss (dv x * inv_sqrt2_)
                 * (dv' * inv_sqrt2_ + dv x * 0))).
  { apply (derivable_pt_lim_comp (fun t => dv t * inv_sqrt2_) erf).
    - apply (derivable_pt_lim_mult dv (fun _ => inv_sqrt2_));
        [exact H|apply derivable_pt_lim_const].
    - apply erf_derivative. }
  pose proof (derivable_pt_lim_mult _ _ _ _ _ A B) as Gd.
  pose proof (derivable_pt_lim_comp _ ln _ _ _ Gd
                (derivable_pt_lim_ln _ Hpos)) as L.
  pose proof (derivable_pt_lim_opp _ _ _ L) as N.
  eapply derivable_pt_lim_eq; [| |exact N].
  - intros t. reflexivity.
  - unfold mult_fct. cbv beta. rewrite gauss_inv_sqrt2.
    replace (2 / sqrt PI * exp (-0.5 * dv x * dv x) * (dv' * inv_sqrt2_ + dv x * 0))
      with (2 / sqrt PI * inv_sqrt2_ * exp (-0.5 * dv x * dv x) * dv') by ring.
    rewrite sqrt2_pi_value.
    set (E := erf (dv x * inv_sqrt2_)) in *.
    set (X := exp (-0.5 * dv x * dv x)).
    unfold Rsqr. replace 0.5 with (/ 2) by lra. field. split; assumption.
Qed.

End ErrorFunction.

Section Forces.
Import EMMI.
Local Open Scope R_scope.

Lemma get_overlap_host (h1 h2 : Host) (m_m d_m : Vector) (pre : R)
    (inv : VectorGeneric6) :
  get_overlap false h1 m_m d_m pre inv = get_overlap false h2 m_m d_m pre inv.
Proof. reflexivity. Qed.

Lemma getPosition_move (h : Host) (im im' : nat) (w : Vector) :
  (im < length (Positions h))%nat ->
  getPosition (move h im w) im' = if (im' =? im)%nat then w else getPosition h im'.
Proof.
  intros Him. unfold getPosition, move. cbn [Positions].
  destruct (Nat.eqb_spec im' im) as [->|Hne].
  - apply list_lookup_total_insert_eq. exact Him.
  - apply list_lookup_total_insert_ne. intros E. apply Hne. symmetry. exact E.
Qed.

Lemma gather_sigma_single (p : Setup) (net : Net) (s : State) :
  rank_ p = 0%nat -> size_ p = 1%nat ->
  let '(ovmd, inv_s2) := gather_sigma p net s in
  length ovmd = length (ovmd_ s) /\
  (forall i, (i < length (ovmd_ s))%nat ->
     ovmd !!! i = overlap_mean p net s i /\ inv_s2 !!! i = weight p net s i).
Proof.
  intros Hr Hs. unfold gather_sigma. rewrite Hr, Hs.
  change (1 <? 1)%nat with false. cbn [Nat.eqb].
  unfold overlap_mean, weight, averaging.
  set (iv := map _ (seq 0 (length (ovmd_ s)))).
  assert (Hiv : forall i, (i < length (ovmd_ s))%nat -> iv !!! i = inv_variance p s i).
  { intros i Hi. unfold iv. rewrite lookup_total_map_seq by exact Hi. reflexivity. }
  assert (Hlen : length iv = length (ovmd_ s)).
  { unfold iv. rewrite length_map, length_seq. reflexivity. }
  destruct (negb (no_aver_ p) && (1 <? nrep_ p)%nat).
  - split; [rewrite length_map, length_Sum; reflexivity|].
    intros i Hi.
    rewrite lookup_total_map_R by (rewrite length_Sum; exact Hi).
    rewrite !lookup_Sum by (rewrite ?Hlen; exact Hi). rewrite Hiv by exact Hi. auto.
  - split; [reflexivity|]. intros i Hi. rewrite Hiv by exact Hi. auto.
Qed.

(** What a single worker leaves when no rebuild is due. *)
Lemma calculate_overlap_kept (p : Setup) (h : Host) (s : State) :
  size_ p = 1%nat -> rank_ p = 0%nat -> nl_due p h s = false ->
  let r := calculate_overlap p h [] [] s in
  nl_ (fst r) = nl_ s /\ sigma_ (fst r) = sigma_ s /\
  scale_ (fst r) = scale_ s /\ length (ovmd_ (fst r)) = length (ovmd_ s) /\
  (forall id, (id < length (ovmd_ s))%nat ->
     ovmd_ (fst r) !!! id
     = accumulate (map (fun e => exact_overlap p h id (e mod length (GMM_m_type_ p)))
                       (List.filter (fun e => (e / length (GMM_m_type_ p) =? id)%nat)
                                    (nl_ s)))) /\
  (forall i, (i < length (nl_ s))%nat ->
     snd r !!! i
     = exact_overlap_der p h (nl_ s !!! i / length (GMM_m_type_ p))
                         (nl_ s !!! i mod length (GMM_m_type_ p))).
Proof.
  intros Hsize Hrank Hdue r.
  assert (V : forall id, (id < length (ovmd_ s))%nat ->
     ovmd_ (fst r) !!! id
     = accumulate (map (fun e => exact_overlap p h id (e mod length (GMM_m_type_ p)))
                       (List.filter (fun e => (e / length (GMM_m_type_ p) =? id)%nat)
                                    (nl_ s)))).
  { intros id Hid.
    destruct (calculate_overlap_single p h [] [] s id Hsize Hrank Hid) as [_ V].
    rewrite Hdue in V. exact V. }
  subst r. unfold calculate_overlap in *. cbv zeta in *.
  rewrite Hdue, Hsize, Hrank in *. cbn [Nat.ltb Nat.leb] in *.
  rewrite strided_single in *.
  destruct (overlap_fold_length p h (nl_ s) (seq 0 (length (nl_ s)))
              (map (fun _ => 0.0) (ovmd_ s),
               replicate (length (nl_ s)) (mkVector 0 0 0))) as [L1 L2].
  cbn [fst snd] in L1, L2. rewrite length_map in L1. rewrite length_replicate in L2.
  assert (D : forall i, (i < length (nl_ s))%nat ->
     snd (fold_left (overlap_step p h (nl_ s)) (seq 0 (length (nl_ s)))
            (map (fun _ => 0.0) (ovmd_ s),
             replicate (length (nl_ s)) (mkVector 0 0 0))) !!! i
     = exact_overlap_der p h (nl_ s !!! i / length (GMM_m_type_ p))
                         (nl_ s !!! i mod length (GMM_m_type_ p))).
  { intros i Hi. apply overlap_fold_der; [apply in_seq; lia|].
    cbn [snd]. rewrite length_replicate. exact Hi. }
  destruct (fold_left _ _ _) as [ovmd der].
  cbn [fst snd nl_ sigma_ scale_ ovmd_ with_overlaps] in *.
  repeat split; auto.
Qed.

Lemma component_Vplus (a b : Vector) (k : nat) :
  (Vplus a b).[k] = a.[k] + b.[k].
Proof. destruct k as [|[|k]]; reflexivity. Qed.

Lemma component_Vscale (c : R) (a : Vector) (k : nat) :
  (Vscale c a).[k] = c * a.[k].
Proof. destruct k as [|[|k]]; reflexivity. Qed.

Lemma component_zero (k : nat) : (mkVector 0 0 0).[k] = 0.
Proof. destruct k as [|[|k]]; reflexivity. Qed.

(** What the loop over the neighbor list leaves in one cell of
    [atom_der_]. *)
Lemma der_fold (p : Setup) (nl : list nat) (ovmd inv_s2 : list R) (sc : R)
    (ovmd_der : list Vector) (im k : nat) :
  let M := length (GMM_m_type_ p) in
  let tot := fun j =>
    sc * (1.0 / INR (nrep_ p)
          * (kbt_ p * (sc * ovmd !!! (nl !!! j / M)%nat - ovdd_ p !!! (nl !!! j / M)%nat)
             * inv_s2 !!! (nl !!! j / M)%nat * (ovmd_der !!! j).[k])) in
  forall (idx : list nat) (atom_der : list Vector),
    (im < length atom_der)%nat ->
    (fold_left (der_step_sigma p nl ovmd inv_s2 sc ovmd_der) idx atom_der
       !!! im).[k]
    = (atom_der !!! im).[k]
      + accumulate (map (fun j => if (nl !!! j mod M =? im)%nat then tot j else 0)
                        idx).
Proof.
  intros M tot. induction idx as [|j idx IH]; intros atom_der Him.
  - cbn [fold_left map]. rewrite accumulate_nil. ring.
  - cbn [fold_left map]. rewrite accumulate_cons.
    rewrite IH by (unfold der_step_sigma; rewrite length_insert; exact Him).
    unfold der_step_sigma at 1. fold M.
    destruct (Nat.eqb_spec (nl !!! j mod M) im) as [E|E].
    + rewrite E, list_lookup_total_insert_eq by exact Him.
      rewrite component_Vplus, !component_Vscale. unfold tot. ring.
    + rewrite list_lookup_total_insert_ne by exact E. ring.
Qed.

Lemma der_fold_marginal (p : Setup) (nl : list nat) (ovmd : list R) (sc : R)
    (ovmd_der : list Vector) (im k : nat) :
  let M := length (GMM_m_type_ p) in
  let der := fun id =>
    - kbt_ p / erf (deviation p sc ovmd id * inv_sqrt2_) * sqrt2_pi_
      * exp (- 0.5 * deviation p sc ovmd id * deviation p sc ovmd id)
      / sigma0_ p !!! id
    + kbt_ p / (sc * ovmd !!! id - ovdd_ p !!! id) in
  forall (idx : list nat) (atom_der : list Vector),
    (im < length atom_der)%nat ->
    (fold_left (der_step_marginal p nl ovmd sc ovmd_der) idx atom_der
       !!! im).[k]
    = (atom_der !!! im).[k]
      + accumulate (map (fun j => if (nl !!! j mod M =? im)%nat
                                  then sc * (der (nl !!! j / M)%nat
                                             * (ovmd_der !!! j).[k])
                                  else 0) idx).
Proof.
  intros M der. induction idx as [|j idx IH]; intros atom_der Him.
  - cbn [fold_left map]. rewrite accumulate_nil. ring.
  - cbn [fold_left map]. rewrite accumulate_cons.
    rewrite IH by (unfold der_step_marginal; rewrite length_insert; exact Him).
    unfold der_step_marginal at 1. fold M.
    destruct (Nat.eqb_spec (nl !!! j mod M) im) as [E|E].
    + rewrite E, list_lookup_total_insert_eq by exact Him.
      rewrite component_Vplus, !component_Vscale. unfold der, deviation. ring.
    + rewrite list_lookup_total_insert_ne by exact E. ring.
Qed.

Lemma gather_marginal_leader (p : Setup) (net : Net) (s : State) :
  rank_ p = 0%nat -> silent (co_ovmd net) ->
  length (gather_marginal p net s) = length (ovmd_ s) /\
  (forall i, (i < length (ovmd_ s))%nat ->
     gather_marginal p net s !!! i = overlap_mean p net s i).
Proof.
  intros Hr Hs. unfold gather_marginal, overlap_mean, averaging.
  rewrite Hr. cbn [Nat.eqb].
  destruct (negb (no_aver_ p) && (1 <? nrep_ p)%nat).
  - split; [rewrite length_Sum, length_map, length_Sum; reflexivity|].
    intros i Hi. rewrite lookup_Sum_silent by exact Hs.
    rewrite lookup_total_map_R by (rewrite length_Sum; exact Hi).
    rewrite lookup_Sum by exact Hi. reflexivity.
  - split; [reflexivity|]. intros i _. reflexivity.
Qed.

Lemma affine_derivative (O : R -> R) (O' x c1 c0 : R) :
  derivable_pt_lim O x O' ->
  derivable_pt_lim (fun t => c1 * O t + c0) x (c1 * O').
Proof.
  intros H. replace (c1 * O') with (c1 * O' + 0) by ring.
  apply (derivable_pt_lim_plus (fun t => c1 * O t) (fun _ => c0)).
  - apply (derivable_pt_lim_scal O c1 x O' H).
  - apply derivable_pt_lim_const.
Qed.

Section Along.

Variables (p : Setup) (h : Host) (net : Net) (s : State) (im k : nat).
Variables (G : R -> Vector) (x0 : R).

Hypothesis Hpbc : pbc_ p = false.
Hypothesis Hsize : size_ p = 1%nat.
Hypothesis Hrank : rank_ p = 0%nat.
Hypothesis Hdue : nl_due p h s = false.
Hypothesis Hreg : regression_due p h = false.
Hypothesis Hav : averaging p = true \/ nrep_ p = 1%nat.
Hypothesis Hent :
  Forall (fun e => (e / length (GMM_m_type_ p) < length (ovmd_ s))%nat) (nl_ s).
Hypothesis Him : (im < length (Positions h))%nat.
Hypothesis HimM : (im < length (GMM_m_type_ p))%nat.
Hypothesis HG : G x0 = getPosition h im.
Hypothesis HP : forall (m : Vector) (pre : R) (inv : VectorGeneric6),
  derivable_pt_lim (fun t => fst (get_overlap false h m (G t) pre inv)) x0
                   ((snd (get_overlap false h m (G x0) pre inv)).[k]).

Let M := length (GMM_m_type_ p).
Let n := length (ovmd_ s).
Let a := if averaging p then 1.0 / INR (nrep_ p) else 1.
Let b := fun i => if averaging p then ms_ovmd net !!! i * (1.0 / INR (nrep_ p)) else 0.
Let O := fun (i : nat) (w : Vector) =>
  accumulate (map (fun e => exact_overlap p (move h im w) i (e mod M))
                  (List.filter (fun e => (e / M =? i)%nat) (nl_ s))).
Let O' := fun (i : nat) =>
  accumulate (map (fun e => if (e mod M =? im)%nat
                            then (exact_overlap_der p h i im).[k] else 0)
                  (List.filter (fun e => (e / M =? i)%nat) (nl_ s))).

Lemma escale_a : 1.0 / INR (nrep_ p) = a.
Proof.
  unfold a. destruct Hav as [-> | E]; [reflexivity|].
  destruct (averaging p); [reflexivity|]. rewrite E. cbn. lra.
Qed.

Lemma exact_overlap_move (w : Vector) (id im' : nat) :
  exact_overlap p (move h im w) id im'
  = if (im' =? im)%nat
    then fst (get_overlap false h (GMM_d_m_ (GMM_d p) !!! id) w
                (pre_fact_ p !!! (GMM_m_type_ p !!! im
                                  * length (GMM_d_m_ (GMM_d p)) + id)%nat)
                (inv_cov_md_ p !!! (GMM_m_type_ p !!! im
                                    * length (GMM_d_m_ (GMM_d p)) + id)%nat))
    else exact_overlap p h id im'.
Proof.
  unfold exact_overlap. rewrite Hpbc, getPosition_move by exact Him.
  destruct (Nat.eqb_spec im' im) as [->|_]; reflexivity.
Qed.

Lemma exact_overlap_home (id im' : nat) :
  exact_overlap p (move h im (G x0)) id im' = exact_overlap p h id im'.
Proof.
  rewrite exact_overlap_move.
  destruct (Nat.eqb_spec im' im) as [->|_]; [|reflexivity].
  unfold exact_overlap. rewrite Hpbc, HG. reflexivity.
Qed.

(** The score of one evaluation with the atom [im] at [w]. *)
Lemma sampled_step_score (w : Vector) :
  fst (sampled_step p (move h im w) net s)
  = for_sum n (fun i =>
      (scale_ s * (a * O i w + b i) - ovdd_ p !!! i)
      * (scale_ s * (a * O i w + b i) - ovdd_ p !!! i) * weight p net s i)
    * (0.5 * kbt_ p).
Proof.
  unfold sampled_step.
  pose proof (calculate_overlap_kept p (move h im w) s Hsize Hrank Hdue) as K.
  cbv zeta in K.
  destruct (calculate_overlap p (move h im w) [] [] s) as [s1 der].
  cbn [fst snd] in *. destruct K as (_ & Ks & Kc & Kl & Ko & _).
  pose proof (calculate_sigma_unfold p (move h im w) net s1) as U.
  pose proof (gather_sigma_single p net s1 Hrank Hsize) as GS.
  destruct (gather_sigma p net s1) as [ovmd inv_s2].
  destruct U as [_ ->]. destruct GS as [GL GV].
  change (regression_due p (move h im w)) with (regression_due p h).
  rewrite Hreg, GL, Kl, Kc. fold n. f_equal.
  apply for_sum_ext. intros i Hi.
  assert (Hi1 : (i < length (ovmd_ s1))%nat) by (rewrite Kl; exact Hi).
  destruct (GV i Hi1) as [-> ->].
  assert (Ew : weight p net s1 i = weight p net s i).
  { unfold weight, inv_variance. rewrite Ks. reflexivity. }
  assert (Em : overlap_mean p net s1 i = a * O i w + b i).
  { unfold overlap_mean, a, b, O. rewrite (Ko i Hi). fold M.
    destruct (averaging p); ring. }
  rewrite Ew, Em. reflexivity.
Qed.

Lemma O_derivative (i : nat) :
  derivable_pt_lim (fun t => O i (G t)) x0 (O' i).
Proof.
  unfold O, O'.
  apply (derivable_pt_lim_accumulate _
           (fun e t => exact_overlap p (move h im (G t)) i (e mod M))
           (fun e => if (e mod M =? im)%nat
                     then (exact_overlap_der p h i im).[k] else 0)).
  intros e _.
  destruct (Nat.eqb_spec (e mod M) im) as [E|E].
  - eapply derivable_pt_lim_eq;
      [intros t; rewrite exact_overlap_move, E, Nat.eqb_refl; reflexivity
      | |apply HP].
    unfold exact_overlap_der. rewrite Hpbc, HG. reflexivity.
  - eapply derivable_pt_lim_eq;
      [intros t; rewrite exact_overlap_move;
       destruct (Nat.eqb_spec (e mod M) im); [contradiction|reflexivity]
      |reflexivity|apply derivable_pt_lim_const].
Qed.

(** The derivative of the score along the path [G]. *)
Lemma score_derivative :
  derivable_pt_lim (fun t => fst (sampled_step p (move h im (G t)) net s)) x0
    (for_sum n (fun i =>
       kbt_ p * (scale_ s * (a * O i (G x0) + b i) - ovdd_ p !!! i)
       * weight p net s i * (scale_ s * (a * O' i)))).
Proof.
  eapply derivable_pt_lim_eq;
    [intros t; apply sampled_step_score|reflexivity|].
  apply (quadratic_score_derivative n (fun i t => O i (G t)) O' x0 (scale_ s) a
           (kbt_ p) b (fun i => ovdd_ p !!! i) (fun i => weight p net s i)).
  intros i _. apply O_derivative.
Qed.

(** What [calculate_sigma] sets on the atom [im]. *)
Lemma sampled_step_derivative :
  (snd (sampled_step p h net s) !!! im).[k]
  = for_sum n (fun i =>
      kbt_ p * (scale_ s * (a * O i (G x0) + b i) - ovdd_ p !!! i)
      * weight p net s i * (scale_ s * (a * O' i))).
Proof.
  unfold sampled_step.
  pose proof (calculate_overlap_kept p h s Hsize Hrank Hdue) as K.
  cbv zeta in K.
  destruct (calculate_overlap p h [] [] s) as [s1 der].
  cbn [fst snd] in *. destruct K as (Kn & Ks & Kc & Kl & Ko & Kd).
  unfold calculate_sigma_derivatives.
  pose proof (gather_sigma_single p net s1 Hrank Hsize) as GS.
  destruct (gather_sigma p net s1) as [ovmd inv_s2]. destruct GS as [GL GV].
  rewrite Hreg, Hsize, Hrank, Kn, Kc. change (1 <? 1)%nat with false.
  cbv iota. rewrite strided_single.
  rewrite der_fold by (rewrite length_replicate; exact HimM).
  rewrite lookup_total_replicate_2 by exact HimM.
  rewrite component_zero, Rplus_0_l. fold M.
  (* every entry in terms of the entry alone *)
  set (c := fun i => kbt_ p * (scale_ s * (a * O i (G x0) + b i) - ovdd_ p !!! i)
                     * weight p net s i * (scale_ s * a)).
  rewrite (map_ext_in _
             (fun j => (fun e => c (e / M)%nat
                                 * (if (e mod M =? im)%nat
                                    then (exact_overlap_der p h (e / M) im).[k]
                                    else 0)) (nl_ s !!! j))).
  - rewrite (map_lookup_seq (nl_ s)
               (fun e => c (e / M)%nat
                         * (if (e mod M =? im)%nat
                            then (exact_overlap_der p h (e / M) im).[k] else 0))).
    rewrite <- (sum_exchange M n (nl_ s)
                  (fun i e => c i * (if (e mod M =? im)%nat
                                     then (exact_overlap_der p h i im).[k]
                                     else 0)) Hent).
    apply for_sum_ext. intros i _.
    rewrite <- (map_map (fun e => if (e mod M =? im)%nat
                                  then (exact_overlap_der p h i im).[k] else 0)
                        (fun x => c i * x)).
    rewrite accumulate_scal. unfold c, O'. ring.
  - intros j Hj. apply in_seq in Hj. cbv beta.
    destruct (Nat.eqb_spec (nl_ s !!! j mod M) im) as [E|E]; [|ring].
    assert (He : (nl_ s !!! j / M < n)%nat).
    { rewrite Forall_forall in Hent. apply Hent.
      apply list_elem_of_lookup_total_2. lia. }
    assert (He1 : (nl_ s !!! j / M < length (ovmd_ s1))%nat)
      by (rewrite Kl; exact He).
    destruct (GV _ He1) as [-> ->].
    rewrite Kd by lia. fold M. rewrite E.
    assert (Ew : weight p net s1 (nl_ s !!! j / M) = weight p net s (nl_ s !!! j / M)).
    { unfold weight, inv_variance. rewrite Ks. reflexivity. }
    assert (Em : overlap_mean p net s1 (nl_ s !!! j / M)
                 = a * O (nl_ s !!! j / M)%nat (G x0) + b (nl_ s !!! j / M)%nat).
    { unfold overlap_mean, a, b, O. rewrite (Ko _ He). fold M.
      rewrite (map_ext _ _ (fun e => exact_overlap_home (nl_ s !!! j / M) (e mod M))).
      destruct (averaging p); ring. }
    rewrite Ew, Em, escale_a. unfold c. ring.
Qed.

Lemma forces_along :
  derivable_pt_lim (fun t => fst (sampled_step p (move h im (G t)) net s)) x0
                   ((snd (sampled_step p h net s) !!! im).[k]).
Proof. rewrite sampled_step_derivative. apply score_derivative. Qed.

(** *** The marginal score *)

Hypothesis Hsil : silent (co_ovmd net).

Let dv := fun (i : nat) (w : Vector) =>
  (scale_ s * (a * O i w + b i) - ovdd_ p !!! i) / sigma0_ p !!! i.

(** The deviations of the evaluation at the positions of the host. *)
Lemma deviation_home (i : nat) :
  (i < n)%nat ->
  deviation p (scale_ s)
    (gather_marginal p net (fst (calculate_overlap p h [] [] s))) i
  = dv i (G x0).
Proof.
  intros Hi.
  pose proof (calculate_overlap_kept p h s Hsize Hrank Hdue) as K.
  cbv zeta in K.
  destruct (calculate_overlap p h [] [] s) as [s1 der].
  cbn [fst snd] in *. destruct K as (_ & _ & _ & Kl & Ko & _).
  destruct (gather_marginal_leader p net s1 Hrank Hsil) as [_ GV].
  assert (Hi1 : (i < length (ovmd_ s1))%nat) by (rewrite Kl; exact Hi).
  unfold deviation, dv. rewrite (GV i Hi1).
  unfold overlap_mean, a, b, O. rewrite (Ko i Hi). fold M.
  rewrite (map_ext _ _ (fun e => exact_overlap_home i (e mod M))).
  destruct (averaging p); f_equal; ring.
Qed.

Hypothesis Hdev : forall i, (i < n)%nat ->
  dv i (G x0) <> 0 /\
  0 < 0.5 / dv i (G x0) * erf (dv i (G x0) * inv_sqrt2_).

Lemma escale_nonzero : 1.0 / INR (nrep_ p) <> 0.
Proof.
  assert (H : (0 < nrep_ p)%nat).
  { destruct Hav as [E|E]; [|lia].
    unfold averaging in E. apply andb_true_iff in E. destruct E as [_ E].
    apply Nat.ltb_lt in E. lia. }
  apply lt_0_INR in H.
  unfold Rdiv. apply Rmult_integral_contrapositive_currified; [lra|].
  apply Rinv_neq_0_compat. lra.
Qed.

Lemma marginal_step_score (w : Vector) :
  fst (marginal_step p (move h im w) net s)
  = for_sum n (fun i =>
      - ln (0.5 / dv i w * erf (dv i w * inv_sqrt2_)))
    * (kbt_ p / (1.0 / INR (nrep_ p))).
Proof.
  unfold marginal_step.
  pose proof (calculate_overlap_kept p (move h im w) s Hsize Hrank Hdue) as K.
  cbv zeta in K.
  destruct (calculate_overlap p (move h im w) [] [] s) as [s1 der].
  cbn [fst snd] in *. destruct K as (_ & Ks & Kc & Kl & Ko & _).
  destruct (calculate_marginal_unfold p (move h im w) net s1) as [_ U].
  cbv zeta in U. rewrite U. clear U.
  destruct (gather_marginal_leader p net s1 Hrank Hsil) as [GL GV].
  change (regression_due p (move h im w)) with (regression_due p h).
  rewrite Hreg, GL, Kl, Kc. fold n. f_equal.
  apply for_sum_ext. intros i Hi.
  assert (Hi1 : (i < length (ovmd_ s1))%nat) by (rewrite Kl; exact Hi).
  rewrite (GV i Hi1).
  assert (Em : overlap_mean p net s1 i = a * O i w + b i).
  { unfold overlap_mean, a, b, O. rewrite (Ko i Hi). fold M.
    destruct (averaging p); ring. }
  rewrite Em. reflexivity.
Qed.

Lemma dv_derivative (i : nat) :
  derivable_pt_lim (fun t => dv i (G t)) x0
                   (scale_ s * a / sigma0_ p !!! i * O' i).
Proof.
  eapply derivable_pt_lim_eq;
    [| |apply (affine_derivative (fun t => O i (G t)) (O' i) x0
                 (scale_ s * a / sigma0_ p !!! i)
                 ((scale_ s * b i - ovdd_ p !!! i) / sigma0_ p !!! i)
                 (O_derivative i))].
  - intros t. unfold dv, Rdiv. ring.
  - reflexivity.
Qed.

(** The derivative of the marginal score along the path [G]. *)
Lemma marginal_score_derivative :
  derivable_pt_lim (fun t => fst (marginal_step p (move h im (G t)) net s)) x0
    (kbt_ p / (1.0 / INR (nrep_ p))
     * for_sum n (fun i =>
         scale_ s * a / sigma0_ p !!! i * O' i
         * (/ dv i (G x0)
            - sqrt2_pi_ * exp (- 0.5 * dv i (G x0) * dv i (G x0))
              / erf (dv i (G x0) * inv_sqrt2_)))).
Proof.
  eapply derivable_pt_lim_eq;
    [intros t; rewrite marginal_step_score; apply Rmult_comm|reflexivity|].
  apply (derivable_pt_lim_scal
           (fun t => for_sum n (fun i =>
                       - ln (0.5 / dv i (G t) * erf (dv i (G t) * inv_sqrt2_))))
           (kbt_ p / (1.0 / INR (nrep_ p)))).
  apply (derivable_pt_lim_for_sum n
           (fun i t => - ln (0.5 / dv i (G t) * erf (dv i (G t) * inv_sqrt2_)))).
  intros i Hi. destruct (Hdev i Hi) as [Hd Hp].
  apply (marginal_term_derivative (fun t => dv i (G t)));
    [apply dv_derivative|exact Hd|exact Hp].
Qed.

(** What [calculate_marginal] sets on the atom [im]. *)
Lemma marginal_step_derivative :
  (snd (marginal_step p h net s) !!! im).[k]
  = kbt_ p / (1.0 / INR (nrep_ p))
    * for_sum n (fun i =>
        scale_ s * a / sigma0_ p !!! i * O' i
        * (/ dv i (G x0)
           - sqrt2_pi_ * exp (- 0.5 * dv i (G x0) * dv i (G x0))
             / erf (dv i (G x0) * inv_sqrt2_))).
Proof.
  unfold marginal_step.
  pose proof (calculate_overlap_kept p h s Hsize Hrank Hdue) as K.
  cbv zeta in K.
  destruct (calculate_overlap p h [] [] s) as [s1 der].
  cbn [fst snd] in *. destruct K as (Kn & Ks & Kc & Kl & Ko & Kd).
  unfold calculate_marginal_derivatives.
  destruct (gather_marginal_leader p net s1 Hrank Hsil) as [GL GV].
  set (ovmd := gather_marginal p net s1) in *.
  rewrite Hreg, Hsize, Hrank, Kn, Kc. change (1 <? 1)%nat with false.
  cbv iota. rewrite strided_single.
  rewrite der_fold_marginal by (rewrite length_replicate; exact HimM).
  rewrite lookup_total_replicate_2 by exact HimM.
  rewrite component_zero, Rplus_0_l. fold M.
  set (c := fun i => kbt_ p / (1.0 / INR (nrep_ p))
                     * (scale_ s * a / sigma0_ p !!! i
                        * (/ dv i (G x0)
                           - sqrt2_pi_ * exp (- 0.5 * dv i (G x0) * dv i (G x0))
                             / erf (dv i (G x0) * inv_sqrt2_)))).
  rewrite (map_ext_in _
             (fun j => (fun e => c (e / M)%nat
                                 * (if (e mod M =? im)%nat
                                    then (exact_overlap_der p h (e / M) im).[k]
                                    else 0)) (nl_ s !!! j))).
  - rewrite (map_lookup_seq (nl_ s)
               (fun e => c (e / M)%nat
                         * (if (e mod M =? im)%nat
                            then (exact_overlap_der p h (e / M) im).[k] else 0))).
    rewrite <- (sum_exchange M n (nl_ s)
                  (fun i e => c i * (if (e mod M =? im)%nat
                                     then (exact_overlap_der p h i im).[k]
                                     else 0)) Hent).
    rewrite <- for_sum_scal.
    apply for_sum_ext. intros i _.
    rewrite <- (map_map (fun e => if (e mod M =? im)%nat
                                  then (exact_overlap_der p h i im).[k] else 0)
                        (fun x => c i * x)).
    rewrite accumulate_scal. unfold c, O'. ring.
  - intros j Hj. apply in_seq in Hj. cbv beta.
    destruct (Nat.eqb_spec (nl_ s !!! j mod M) im) as [E|E]; [|ring].
    assert (He : (nl_ s !!! j / M < n)%nat).
    { rewrite Forall_forall in Hent. apply Hent.
      apply list_elem_of_lookup_total_2. lia. }
    assert (He1 : (nl_ s !!! j / M < length (ovmd_ s1))%nat)
      by (rewrite Kl; exact He).
    pose proof (GV _ He1) as Ev.
    assert (Em : overlap_mean p net s1 (nl_ s !!! j / M)
                 = a * O (nl_ s !!! j / M)%nat (G x0) + b (nl_ s !!! j / M)%nat).
    { unfold overlap_mean, a, b, O. rewrite (Ko _ He). fold M.
      rewrite (map_ext _ _ (fun e => exact_overlap_home (nl_ s !!! j / M) (e mod M))).
      destruct (averaging p); ring. }
    rewrite Em in Ev.
    assert (Edv : deviation p (scale_ s) ovmd (nl_ s !!! j / M)
                  = dv (nl_ s !!! j / M)%nat (G x0)).
    { unfold deviation, dv. rewrite Ev. reflexivity. }
    rewrite Edv, Ev, Kd by lia. fold M. rewrite E.
    destruct (Hdev _ He) as [Hd Hp].
    set (id := (nl_ s !!! j / M)%nat) in *.
    assert (Hs0 : sigma0_ p !!! id <> 0).
    { intros Z. apply Hd. unfold dv. rewrite Z. unfold Rdiv.
      rewrite Rinv_0. ring. }
    assert (Hx : scale_ s * (a * O id (G x0) + b id) - ovdd_ p !!! id <> 0).
    { intros Z. apply Hd. unfold dv. rewrite Z. unfold Rdiv. ring. }
    assert (Her : erf (dv id (G x0) * inv_sqrt2_) <> 0).
    { intros Z. rewrite Z in Hp. lra. }
    pose proof escale_nonzero as Hes. pose proof escale_a as Ea.
    unfold c.
    replace (/ dv id (G x0))
      with (sigma0_ p !!! id
            / (scale_ s * (a * O id (G x0) + b id) - ovdd_ p !!! id))
      by (unfold dv; field; split; assumption).
    set (X := exp (- 0.5 * dv id (G x0) * dv id (G x0))).
    set (Er := erf (dv id (G x0) * inv_sqrt2_)) in *.
    set (dk := (exact_overlap_der p h id im).[k]).
    rewrite <- Ea in *. set (es := 1.0 / INR (nrep_ p)) in *.
    clearbody X Er dk es. field. repeat split; assumption.
Qed.

Lemma forces_along_marginal :
  derivable_pt_lim (fun t => fst (marginal_step p (move h im (G t)) net s)) x0
                   ((snd (marginal_step p h net s) !!! im).[k]).
Proof. rewrite marginal_step_derivative. apply marginal_score_derivative. Qed.

End Along.

End Forces.

Section ForceTheorems.
Import EMMI.
Local Open Scope R_scope.

Lemma Vector_eta (v : Vector) : mkVector (vec_x v) (vec_y v) (vec_z v) = v.
Proof. destruct v. reflexivity. Qed.

(** X25. The derivatives that [calculate_sigma] sets on the atoms are the
    gradient of its score.  On a single worker without periodic boundary
    conditions, at a step on which neither the neighbor list is rebuilt
    nor the regression is done, for one evaluation ([calculate_overlap]
    followed by [calculate_sigma]) and an atom of the system: each
    component of the vector set on the atom is the derivative of the score
    of the evaluation along the corresponding coordinate of the position
    of the atom, the other atoms, the neighbor list, the uncertainties,
    the scale and what the other replicas contribute being held fixed. *)
Theorem sampled_forces_gradient (p : Setup) (h : Host) (net : Net) (s : State)
    (im : nat) :
  pbc_ p = false -> size_ p = 1%nat -> rank_ p = 0%nat ->
  nl_due p h s = false -> regression_due p h = false ->
  averaging p = true \/ nrep_ p = 1%nat ->
  Forall (fun e => (e / length (GMM_m_type_ p) < length (ovmd_ s))%nat) (nl_ s) ->
  (im < length (Positions h))%nat -> (im < length (GMM_m_type_ p))%nat ->
  let v := getPosition h im in
  let score := fun w => fst (sampled_step p (move h im w) net s) in
  let atom_der := snd (sampled_step p h net s) !!! im in
  derivable_pt_lim (fun t => score (mkVector t (vec_y v) (vec_z v))) (vec_x v)
                   (atom_der.[0]) /\
  derivable_pt_lim (fun t => score (mkVector (vec_x v) t (vec_z v))) (vec_y v)
                   (atom_der.[1]) /\
  derivable_pt_lim (fun t => score (mkVector (vec_x v) (vec_y v) t)) (vec_z v)
                   (atom_der.[2]).
Proof.
  intros Hpbc Hsize Hrank Hdue Hreg Hav Hent Him HimM v score atom_der.
  subst score atom_der. split; [|split].
  - apply (forces_along p h net s im 0 (fun t => mkVector t (vec_y v) (vec_z v))
             (vec_x v)); try assumption.
    + apply Vector_eta.
    + intros m pre inv. apply get_overlap_dx.
  - apply (forces_along p h net s im 1 (fun t => mkVector (vec_x v) t (vec_z v))
             (vec_y v)); try assumption.
    + apply Vector_eta.
    + intros m pre inv. apply get_overlap_dy.
  - apply (forces_along p h net s im 2 (fun t => mkVector (vec_x v) (vec_y v) t)
             (vec_z v)); try assumption.
    + apply Vector_eta.
    + intros m pre inv. apply get_overlap_dz.
Qed.

Lemma sampled_forces_gradient_witness :
  let score := fun w =>
    fst (sampled_step forces_setup (move atoms_at_mean_step_1 0 w) quiet_net
                      listed_state) in
  let atom_der :=
    snd (sampled_step forces_setup atoms_at_mean_step_1 quiet_net listed_state)
      !!! 0%nat in
  derivable_pt_lim (fun t => score (mkVector t 0 0)) 0 (atom_der.[0]).
Proof.
  intros score atom_der.
  assert (E : Forall (fun e => (e / length (GMM_m_type_ forces_setup)
                                < length (ovmd_ listed_state))%nat)
                     (nl_ listed_state)).
  { repeat constructor. }
  destruct (sampled_forces_gradient forces_setup atoms_at_mean_step_1 quiet_net
              listed_state 0 eq_refl eq_refl eq_refl eq_refl eq_refl
              (or_intror eq_refl) E ltac:(cbn; lia) ltac:(cbn; lia)) as [A _].
  exact A.
Defined.

(** X29. The derivatives that [calculate_marginal] sets on the atoms
    are the gradient of its score.  On a single worker without periodic
    boundary conditions, at a step on which neither the neighbor list is
    rebuilt nor the regression is done, and at positions at which every
    term of the marginal score is defined (no deviation is zero and the
    argument of each logarithm is positive): each component of the vector
    set on an atom is the derivative of the score of one evaluation
    ([calculate_overlap] followed by [calculate_marginal]) along the
    corresponding coordinate of the position of the atom, everything else
    being held fixed. *)
Theorem marginal_forces_gradient (p : Setup) (h : Host) (net : Net) (s : State)
    (im : nat) :
  pbc_ p = false -> size_ p = 1%nat -> rank_ p = 0%nat ->
  nl_due p h s = false -> regression_due p h = false ->
  averaging p = true \/ nrep_ p = 1%nat ->
  Forall (fun e => (e / length (GMM_m_type_ p) < length (ovmd_ s))%nat) (nl_ s) ->
  (im < length (Positions h))%nat -> (im < length (GMM_m_type_ p))%nat ->
  silent (co_ovmd net) ->
  (let ovmd := gather_marginal p net (fst (calculate_overlap p h [] [] s)) in
   forall i, (i < length (ovmd_ s))%nat ->
     deviation p (scale_ s) ovmd i <> 0 /\
     0 < 0.5 / deviation p (scale_ s) ovmd i
         * erf (deviation p (scale_ s) ovmd i * inv_sqrt2_)) ->
  let v := getPosition h im in
  let score := fun w => fst (marginal_step p (move h im w) net s) in
  let atom_der := snd (marginal_step p h net s) !!! im in
  derivable_pt_lim (fun t => score (mkVector t (vec_y v) (vec_z v))) (vec_x v)
                   (atom_der.[0]) /\
  derivable_pt_lim (fun t => score (mkVector (vec_x v) t (vec_z v))) (vec_y v)
                   (atom_der.[1]) /\
  derivable_pt_lim (fun t => score (mkVector (vec_x v) (vec_y v) t)) (vec_z v)
                   (atom_der.[2]).
Proof.
  intros Hpbc Hsize Hrank Hdue Hreg Hav Hent Him HimM Hsil Hdev v score atom_der.
  subst score atom_der. cbv zeta in Hdev. split; [|split].
  - apply (forces_along_marginal p h net s im 0
             (fun t => mkVector t (vec_y v) (vec_z v)) (vec_x v));
      try assumption.
    + apply Vector_eta.
    + intros m pre inv. apply get_overlap_dx.
    + intros i Hi.
      pose proof (Hdev i Hi) as D.
      rewrite (deviation_home p h net s im
                 (fun t => mkVector t (vec_y v) (vec_z v)) (vec_x v)
                 Hpbc Hsize Hrank Hdue Hav Him (Vector_eta v) Hsil i Hi) in D.
      exact D.
  - apply (forces_along_marginal p h net s im 1
             (fun t => mkVector (vec_x v) t (vec_z v)) (vec_y v));
      try assumption.
    + apply Vector_eta.
    + intros m pre inv. apply get_overlap_dy.
    + intros i Hi.
      pose proof (Hdev i Hi) as D.
      rewrite (deviation_home p h net s im
                 (fun t => mkVector (vec_x v) t (vec_z v)) (vec_y v)
                 Hpbc Hsize Hrank Hdue Hav Him (Vector_eta v) Hsil i Hi) in D.
      exact D.
  - apply (forces_along_marginal p h net s im 2
             (fun t => mkVector (vec_x v) (vec_y v) t) (vec_z v));
      try assumption.
    + apply Vector_eta.
    + intros m pre inv. apply get_overlap_dz.
    + intros i Hi.
      pose proof (Hdev i Hi) as D.
      rewrite (deviation_home p h net s im
                 (fun t => mkVector (vec_x v) (vec_y v) t) (vec_z v)
                 Hpbc Hsize Hrank Hdue Hav Him (Vector_eta v) Hsil i Hi) in D.
      exact D.
Qed.

Lemma marginal_forces_gradient_witness :
  let score := fun w =>
    fst (marginal_step marginal_forces_setup (move atoms_at_mean_step_1 0 w)
                       quiet_net listed_state) in
  let atom_der :=
    snd (marginal_step marginal_forces_setup atoms_at_mean_step_1 quiet_net
                       listed_state) !!! 0%nat in
  derivable_pt_lim (fun t => score (mkVector t 0 0)) 0 (atom_der.[0]).
Proof.
  intros score atom_der.
  assert (E : Forall (fun e => (e / length (GMM_m_type_ marginal_forces_setup)
                                < length (ovmd_ listed_state))%nat)
                     (nl_ listed_state)).
  { repeat constructor. }
  assert (Hsil : silent (co_ovmd quiet_net)).
  { intros i. destruct i; reflexivity. }
  assert (X : get_exp_overlap false atoms_at_mean_step_1 (mkVector 0 0 0)
                (mkVector 0 0 0) half_cov = 0).
  { unfold get_exp_overlap, displacement, delta, Vminus, quadratic_form. cbn. ring. }
  assert (Hdev :
    let ovmd := gather_marginal marginal_forces_setup quiet_net
                  (fst (calculate_overlap marginal_forces_setup
                          atoms_at_mean_step_1 [] [] listed_state)) in
    forall i, (i < length (ovmd_ listed_state))%nat ->
      deviation marginal_forces_setup (scale_ listed_state) ovmd i <> 0 /\
      0 < 0.5 / deviation marginal_forces_setup (scale_ listed_state) ovmd i
          * erf (deviation marginal_forces_setup (scale_ listed_state) ovmd i
                 * inv_sqrt2_)).
  { intros ovmd i Hi.
    assert (i = 0%nat) by (cbn in Hi; lia). subst i.
    assert (D : deviation marginal_forces_setup (scale_ listed_state) ovmd 0 = 2).
    { pose proof (calculate_overlap_kept marginal_forces_setup
                    atoms_at_mean_step_1 listed_state eq_refl eq_refl eq_refl) as K.
      cbv zeta in K. destruct K as (_ & _ & _ & _ & Ko & _).
      specialize (Ko 0%nat Hi).
      unfold deviation. subst ovmd.
      change (gather_marginal marginal_forces_setup quiet_net
                (fst (calculate_overlap marginal_forces_setup
                        atoms_at_mean_step_1 [] [] listed_state)))
        with (ovmd_ (fst (calculate_overlap marginal_forces_setup
                            atoms_at_mean_step_1 [] [] listed_state))).
      rewrite Ko.
      change (accumulate _)
        with (0 + exact_overlap marginal_forces_setup atoms_at_mean_step_1 0 0
                + exact_overlap marginal_forces_setup atoms_at_mean_step_1 0 1).
      rewrite !exact_overlap_value.
      change (pbc_ marginal_forces_setup) with false.
      change (GMM_d_m_ (GMM_d marginal_forces_setup) !!! 0%nat)
        with (mkVector 0 0 0).
      change (getPosition atoms_at_mean_step_1 0) with (mkVector 0 0 0).
      change (getPosition atoms_at_mean_step_1 1) with (mkVector 0 0 0).
      change (GMM_m_type_ marginal_forces_setup !!! 0%nat
              * length (GMM_d_m_ (GMM_d marginal_forces_setup)) + 0)%nat
        with 0%nat.
      change (GMM_m_type_ marginal_forces_setup !!! 1%nat
              * length (GMM_d_m_ (GMM_d marginal_forces_setup)) + 0)%nat
        with 1%nat.
      change (inv_cov_md_ marginal_forces_setup !!! 0%nat) with half_cov.
      change (inv_cov_md_ marginal_forces_setup !!! 1%nat) with half_cov.
      change (pre_fact_ marginal_forces_setup !!! 0%nat) with 1.
      change (pre_fact_ marginal_forces_setup !!! 1%nat) with 2.
      change (scale_ listed_state) with 1.
      change (ovdd_ marginal_forces_setup !!! 0%nat) with 1.
      change (sigma0_ marginal_forces_setup !!! 0%nat) with 1.
      rewrite X, Rmult_0_r, exp_0. lra. }
    rewrite D. split; [lra|].
    assert (Q : 0 < / sqrt 2) by (apply Rinv_0_lt_compat, sqrt_lt_R0; lra).
    assert (P : 0 < erf (2 * inv_sqrt2_)).
    { apply erf_pos. unfold inv_sqrt2_. lra. }
    assert (H2 : 0.5 / 2 = / 4) by lra. rewrite H2. lra. }
  destruct (marginal_forces_gradient marginal_forces_setup atoms_at_mean_step_1
              quiet_net listed_state 0 eq_refl eq_refl eq_refl eq_refl eq_refl
              (or_intror eq_refl) E ltac:(cbn; lia) ltac:(cbn; lia) Hsil Hdev)
    as [A _].
  exact A.
Defined.

Lemma Vector_ext (u v : Vector) :
  u.[0] = v.[0] -> u.[1] = v.[1] -> u.[2] = v.[2] -> u = v.
Proof. destruct u, v. cbn. intros -> -> ->. reflexivity. Qed.

(** X26. An atom that the neighbor list does not hold gets no force from
    its worker: the cell of [atom_der_] that the loop of
    [calculate_sigma] leaves for it is zero, whatever the overlaps, the
    uncertainties and the scale are. *)
Theorem unlisted_atom_no_derivative (p : Setup) (h : Host) (net : Net)
    (co_der : list Vector) (s : State) (ovmd_der : list Vector) (im : nat) :
  (size_ p <= 1)%nat -> (im < length (GMM_m_type_ p))%nat ->
  Forall (fun e => (e mod length (GMM_m_type_ p))%nat <> im) (nl_ s) ->
  calculate_sigma_derivatives p h net co_der s ovmd_der !!! im
  = mkVector 0 0 0.
Proof.
  intros Hsize Him Hnl. unfold calculate_sigma_derivatives.
  destruct (gather_sigma p net s) as [ovmd inv_s2].
  assert (E : (1 <? size_ p)%nat = false) by (apply Nat.ltb_ge; exact Hsize).
  rewrite E.
  set (sc := if regression_due p h then _ else _).
  assert (Z : forall k,
             (fold_left (der_step_sigma p (nl_ s) ovmd inv_s2 sc ovmd_der)
                        (strided (rank_ p) (size_ p) (length (nl_ s)))
                        (replicate (length (GMM_m_type_ p)) (mkVector 0 0 0))
                !!! im).[k] = 0).
  { intros k. rewrite der_fold by (rewrite length_replicate; exact Him).
    rewrite lookup_total_replicate_2 by exact Him.
    rewrite component_zero, Rplus_0_l.
    rewrite (map_ext_in _ (fun _ => 0)).
    - clear. induction (strided _ _ _) as [|j l IH]; cbn [map].
      + apply accumulate_nil.
      + rewrite accumulate_cons, IH. ring.
    - intros j Hj. apply filter_In in Hj. destruct Hj as [Hj _].
      apply in_seq in Hj.
      destruct (Nat.eqb_spec (nl_ s !!! j mod length (GMM_m_type_ p)) im)
        as [Eq|_]; [|reflexivity].
      exfalso. rewrite Forall_forall in Hnl.
      apply (Hnl (nl_ s !!! j)); [|exact Eq].
      apply list_elem_of_lookup_total_2. lia. }
  apply Vector_ext; rewrite Z; reflexivity.
Qed.

Lemma unlisted_atom_no_derivative_witness :
  calculate_sigma_derivatives forces_setup atoms_at_mean_step_1 quiet_net []
    (with_nl listed_state [0%nat]) [mkVector 1 2 3] !!! 1%nat = mkVector 0 0 0.
Proof.
  apply (unlisted_atom_no_derivative forces_setup atoms_at_mean_step_1 quiet_net
           [] (with_nl listed_state [0%nat]) [mkVector 1 2 3] 1).
  - cbn. lia.
  - cbn. lia.
  - constructor; [cbn; lia|constructor].
Defined.

End ForceTheorems.

(* --------------------------------------------------------------------- *)
(** ** The acceptance ratio and the loaded components *)
(* --------------------------------------------------------------------- *)

Section Bookkeeping.
Import EMMI.
Local Open Scope R_scope.

Lemma floor_between (x : R) (k : Z) : IZR k <= x < IZR k + 1 -> floor x = k.
Proof.
  intros H. unfold floor. symmetry. apply Int_part_spec. lra.
Qed.

Lemma doMonteCarlo_MCfirst (p : Setup) (net : Net) (s : State) :
  MCfirst_ (doMonteCarlo p net s) = MCfirst_ s.
Proof.
  unfold doMonteCarlo. cbn [RandU01].
  destruct (do_sample p).
  - destruct (fold_left _ _ _) as [[oe ne] ns].
    destruct (doAccept p oe ne _) as [[|] r];
      destruct (no_aver_ p && (rank_ p =? 0)%nat); reflexivity.
  - destruct (no_aver_ p && (rank_ p =? 0)%nat); reflexivity.
Qed.

(** X27. The acceptance ratio that an evaluation of [calculate_sigma]
    with a positive step DSIGMA sets on "acc" counts one trial for every
    MCstride_ steps since the first evaluation.  The evaluation that
    finds MCfirst_ at -1 sets it to its own step, whatever the step is,
    and reports the count of accepted moves itself (one trial); an
    evaluation that finds another MCfirst_ keeps it, and at a step from
    MCfirst_ + k*MCstride_ up to, but not including,
    MCfirst_ + (k+1)*MCstride_, with k = 0, 1, 2, ..., it reports
    MCaccept_ divided by k+1. *)
Theorem acceptance_trials (p : Setup) (h : Host) (net : Net) (s : State) :
  0 < dsigma_ p -> (0 < MCstride_ p)%Z ->
  let s' := fst (calculate_sigma p h net s) in
  (MCfirst_ s = (-1)%Z ->
   MCfirst_ s' = getStep h /\ acceptance p h s' = INR (MCaccept_ s')) /\
  (forall k : Z,
     MCfirst_ s <> (-1)%Z -> (0 <= k)%Z ->
     (MCfirst_ s + k * MCstride_ p <= getStep h
      < MCfirst_ s + (k + 1) * MCstride_ p)%Z ->
     MCfirst_ s' = MCfirst_ s /\
     acceptance p h s' = INR (MCaccept_ s') / (IZR k + 1)).
Proof.
  intros Hd Hs s'.
  assert (Hz : 0 < IZR (MCstride_ p)) by (apply IZR_lt; exact Hs).
  assert (F : MCfirst_ s'
              = if (MCfirst_ s =? -1)%Z then getStep h else MCfirst_ s).
  { subst s'. unfold calculate_sigma.
    destruct (gather_sigma p net s) as [ovmd inv_s2]. cbv zeta.
    apply Rltb_true in Hd. rewrite Hd. cbn [andb fst].
    destruct ((Z.rem (getStep h) (MCstride_ p) =? 0)%Z
              && negb (getExchangeStep h)).
    - rewrite doMonteCarlo_MCfirst. cbn [MCfirst_ with_overlaps].
      destruct (MCfirst_ s =? -1)%Z; [reflexivity|].
      rewrite doMonteCarlo_MCfirst. reflexivity.
    - cbn [MCfirst_ with_overlaps].
      destruct (MCfirst_ s =? -1)%Z; reflexivity. }
  split.
  - intros Hf. rewrite Hf in F. cbn in F. split; [exact F|].
    unfold acceptance. rewrite F, Z.sub_diag.
    rewrite (floor_between _ 0).
    + replace (IZR 0 + 1.0) with 1 by lra. unfold Rdiv. rewrite Rinv_1. ring.
    + unfold Rdiv. rewrite Rmult_0_l. lra.
  - intros k Hf Hk [Hlo Hhi].
    apply Z.eqb_neq in Hf. rewrite Hf in F. split; [exact F|].
    unfold acceptance. rewrite F.
    rewrite (floor_between _ k).
    + replace 1.0 with 1 by lra. reflexivity.
    + assert (L : IZR k * IZR (MCstride_ p) <= IZR (getStep h - MCfirst_ s)).
      { rewrite <- mult_IZR. apply IZR_le. lia. }
      assert (U : IZR (getStep h - MCfirst_ s) < (IZR k + 1) * IZR (MCstride_ p)).
      { replace (IZR k + 1) with (IZR (k + 1)) by (rewrite plus_IZR; reflexivity).
        rewrite <- mult_IZR. apply IZR_lt. lia. }
      split.
      * apply Rmult_le_reg_r with (IZR (MCstride_ p)); [exact Hz|].
        unfold Rdiv. rewrite Rmult_assoc, Rinv_l, Rmult_1_r by lra. exact L.
      * apply Rmult_lt_reg_r with (IZR (MCstride_ p)); [exact Hz|].
        unfold Rdiv. rewrite Rmult_assoc, Rinv_l, Rmult_1_r by lra. exact U.
Qed.

Lemma acceptance_trials_witness :
  (let s' := fst (calculate_sigma mc_stride_2 step_0 quiet_net state_of_two) in
   MCfirst_ s' = getStep step_0 /\
   acceptance mc_stride_2 step_0 s' = INR (MCaccept_ s')) /\
  (let s' := fst (calculate_sigma mc_stride_2 step_3 quiet_net
                    (with_MCfirst state_of_two 0)) in
   MCfirst_ s' = MCfirst_ (with_MCfirst state_of_two 0) /\
   acceptance mc_stride_2 step_3 s' = INR (MCaccept_ s') / (IZR 1 + 1)).
Proof.
  assert (Hd : 0 < dsigma_ mc_stride_2) by (cbn; lra).
  assert (Hs : (0 < MCstride_ mc_stride_2)%Z) by (cbn; lia).
  split.
  - destruct (acceptance_trials mc_stride_2 step_0 quiet_net state_of_two Hd Hs)
      as [A _].
    apply A. reflexivity.
  - destruct (acceptance_trials mc_stride_2 step_3 quiet_net
                (with_MCfirst state_of_two 0) Hd Hs) as [_ B].
    apply (B 1%Z); [discriminate|lia|cbn; lia].
Defined.

(** X28. [get_GMM_d] loads the file as it is or not at all: it returns
    exactly when the file exists and every row passes the tests, and then
    the four vectors of the data GMM hold the means, weights, covariances
    and Beta of the rows in the order of the file, one component for each
    row. *)
Theorem get_GMM_d_in_order (file : option (list GMMrow)) (d : GMMdata) :
  get_GMM_d file = Done d <->
  exists rows, file = Some rows /\ Forall good_row rows /\
    d = mkGMM (map (fun r => mkVector (Mean_0 r) (Mean_1 r) (Mean_2 r)) rows)
              (map Weight rows) (map Cov rows) (map Beta rows).
Proof.
  split.
  - apply loaded_components.
  - intros (rows & -> & Hg & ->). unfold get_GMM_d.
    destruct (get_GMM_d_rows_good rows Hg (mkGMM [] [] [] [])) as [d Hd].
    rewrite Hd. f_equal.
    apply get_GMM_d_rows_spec in Hd. destruct Hd as [_ ->]. reflexivity.
Qed.

End Bookkeeping.
